(** * Worldview layer utilities: date-range resolution, overlap detection,
      dynamic range adjustment and the permalink codec

    Shallow embedding of [web/js/modules/layers/util.js].

    Conventions of the embedding.
    - A JavaScript [Date] is its time value: milliseconds since the epoch,
      an integer [Z].  Date strings of the layer catalog ("2020-01-01",
      "2020-01-01T00:00:00Z") are represented by the instant they parse to;
      the [TimeClip] bound of ECMAScript (invalid dates) is outside the model.
    - The calendar follows the ECMAScript abstract operations ([Day],
      [DayFromYear], [YearFromTime], [MonthFromTime], [DateFromTime],
      [MakeDay], [MakeTime], [MakeDate]).
    - The host time zone is a fixed offset [tzo], in minutes, the value
      [Date.prototype.getTimezoneOffset] returns; daylight saving changes
      are outside the model.
    - [dateInterval] is a positive integer (the catalog stores its decimal
      string; [Number(dateInterval)] is that integer and
      [dateInterval === '1'] is equality with one).
    - Strings are sequences of 8-bit characters.
    - An object literal used as a map ([config.layers],
      [config.redirects.layers], the groups map) is a finite map of its own
      properties; a lookup by name also finds the properties inherited from
      [Object.prototype] ([JSObject.inherited]), which are truthy. *)

From Stdlib Require Import ZArith Lia List Bool Ascii String Sorted Permutation.
From stdpp Require Import gmap strings list.

Local Open Scope Z_scope.

(** ** ECMAScript date arithmetic *)

Module ESDate.

Definition msPerDay : Z := 86400000.
Definition msPerHour : Z := 3600000.
Definition msPerMinute : Z := 60000.
Definition msPerSecond : Z := 1000.

Definition Day (t : Z) : Z := t / msPerDay.
Definition TimeWithinDay (t : Z) : Z := t mod msPerDay.

Definition DayFromYear (y : Z) : Z :=
  365 * (y - 1970) + (y - 1969) / 4 - (y - 1901) / 100 + (y - 1601) / 400.

Definition InLeapYear (y : Z) : bool :=
  (y mod 4 =? 0) && (negb (y mod 100 =? 0) || (y mod 400 =? 0)).

Definition DaysInYear (y : Z) : Z := if InLeapYear y then 366 else 365.

(** The largest year [y] with [DayFromYear y <= d]: an estimate from the
    mean length of the Gregorian year, corrected by at most one. *)
Definition YearFromDay (d : Z) : Z :=
  let y0 := 1970 + (400 * d) / 146097 in
  if DayFromYear (y0 + 1) <=? d then y0 + 1
  else if DayFromYear y0 <=? d then y0
  else y0 - 1.

Definition YearFromTime (t : Z) : Z := YearFromDay (Day t).

Definition DayWithinYear (t : Z) : Z := Day t - DayFromYear (YearFromTime t).

(** Number of days of the year before month [m] (0 = January). *)
Definition DaysBeforeMonth (leap : bool) (m : Z) : Z :=
  let l := if leap then 1 else 0 in
  if m <=? 0 then 0
  else if m =? 1 then 31
  else if m =? 2 then 59 + l
  else if m =? 3 then 90 + l
  else if m =? 4 then 120 + l
  else if m =? 5 then 151 + l
  else if m =? 6 then 181 + l
  else if m =? 7 then 212 + l
  else if m =? 8 then 243 + l
  else if m =? 9 then 273 + l
  else if m =? 10 then 304 + l
  else 334 + l.

Definition MonthFromDayWithinYear (leap : bool) (d : Z) : Z :=
  if d <? DaysBeforeMonth leap 1 then 0
  else if d <? DaysBeforeMonth leap 2 then 1
  else if d <? DaysBeforeMonth leap 3 then 2
  else if d <? DaysBeforeMonth leap 4 then 3
  else if d <? DaysBeforeMonth leap 5 then 4
  else if d <? DaysBeforeMonth leap 6 then 5
  else if d <? DaysBeforeMonth leap 7 then 6
  else if d <? DaysBeforeMonth leap 8 then 7
  else if d <? DaysBeforeMonth leap 9 then 8
  else if d <? DaysBeforeMonth leap 10 then 9
  else if d <? DaysBeforeMonth leap 11 then 10
  else 11.

Definition MonthFromTime (t : Z) : Z :=
  MonthFromDayWithinYear (InLeapYear (YearFromTime t)) (DayWithinYear t).

Definition DateFromTime (t : Z) : Z :=
  let leap := InLeapYear (YearFromTime t) in
  DayWithinYear t - DaysBeforeMonth leap (MonthFromTime t) + 1.

Definition HourFromTime (t : Z) : Z := (t / msPerHour) mod 24.
Definition MinFromTime (t : Z) : Z := (t / msPerMinute) mod 60.

(** [MakeDay]: months outside 0..11 carry into the year, days outside the
    month carry into the following (or preceding) months. *)
Definition MakeDay (year month date : Z) : Z :=
  let ym := year + month / 12 in
  let mn := month mod 12 in
  DayFromYear ym + DaysBeforeMonth (InLeapYear ym) mn + date - 1.

Definition MakeTime (hour min sec ms : Z) : Z :=
  hour * msPerHour + min * msPerMinute + sec * msPerSecond + ms.

Definition MakeDate (day time : Z) : Z := day * msPerDay + time.

(** [Date.UTC(y, m, d, h, mi, s)] for a four-digit year. *)
Definition DateUTC (y m d h mi s : Z) : Z :=
  MakeDate (MakeDay y m d) (MakeTime h mi s 0).

(** The instant of the calendar day [y]-[m]-[d] at 00:00:00Z, with the
    month counted from 1 as in an ISO date string. *)
Definition ymd (y m d : Z) : Z := DateUTC y (m - 1) d 0 0 0.

(** The [Date] constructor maps the years 0..99 to 1900..1999. *)
Definition MakeFullYear (y : Z) : Z :=
  if (0 <=? y) && (y <=? 99) then 1900 + y else y.

(** [date.setUTCFullYear(y)] *)
Definition setUTCFullYear (t y : Z) : Z :=
  MakeDate (MakeDay y (MonthFromTime t) (DateFromTime t)) (TimeWithinDay t).

Section Host.
(** [getTimezoneOffset()] of the host, in minutes. *)
Variable tzo : Z.

Definition LocalTime (t : Z) : Z := t - tzo * msPerMinute.
Definition UTC (t : Z) : Z := t + tzo * msPerMinute.

(** [new Date(year, month, date, hours, minutes, seconds)]: the fields are
    read in local time. *)
Definition newDate (y m d h mi s : Z) : Z :=
  UTC (MakeDate (MakeDay (MakeFullYear y) m d) (MakeTime h mi s 0)).

(** [new Date(year, month, date)] *)
Definition newDate3 (y m d : Z) : Z := newDate y m d 0 0 0.

Definition getFullYear (t : Z) : Z := YearFromTime (LocalTime t).
Definition getMonth (t : Z) : Z := MonthFromTime (LocalTime t).
Definition getDate (t : Z) : Z := DateFromTime (LocalTime t).

(** [date.setMinutes(min)]: returns the new time value. *)
Definition setMinutes (t min : Z) : Z :=
  let l := LocalTime t in
  UTC (l - MinFromTime l * msPerMinute + min * msPerMinute).

(** [date.setMonth(month)] *)
Definition setMonth (t month : Z) : Z :=
  let l := LocalTime t in
  UTC (MakeDate (MakeDay (YearFromTime l) month (DateFromTime l))
                (TimeWithinDay l)).

(** [date.setFullYear(year)] *)
Definition setFullYear (t year : Z) : Z :=
  let l := LocalTime t in
  UTC (MakeDate (MakeDay year (MonthFromTime l) (DateFromTime l))
                (TimeWithinDay l)).
End Host.

End ESDate.

(** ** Outcomes of JavaScript code that may throw *)

Inductive outcome (A : Type) : Type :=
| Ret (a : A)
| TypeError.
Arguments Ret {A} a.
Arguments TypeError {A}.

Definition obind {A B} (x : outcome A) (f : A -> outcome B) : outcome B :=
  match x with
  | Ret a => f a
  | TypeError => TypeError
  end.

Notation "x <-! e ;; k" := (obind e (fun x => k))
  (at level 100, e at next level, right associativity).

(** [obj.getTime()] on a value that may be [undefined]. *)
Definition getTime (d : option Z) : outcome Z :=
  match d with
  | Some t => Ret t
  | None => TypeError
  end.

(** ** Data model *)

Inductive Period := yearly | monthly | daily | subdaily.

Record DateRange := mkRange {
  startDate : Z;
  endDate : Z;
  dateInterval : positive
}.

Record Availability := {
  rollingWindow : option Z;
  historicalRanges : option (list DateRange)
}.

Record LayerDef := {
  period : Period;
  ongoing : bool;
  futureTime : option string;
  availability : option Availability;
  dateRanges : option (list DateRange)
}.

#[global] Instance Period_eq_dec : EqDecision Period.
Proof. solve_decision. Defined.
#[global] Instance DateRange_eq_dec : EqDecision DateRange.
Proof. solve_decision. Defined.

(** Truthiness of an optional string: [undefined] and the empty string
    are falsy. *)
Definition truthy_string (s : option string) : bool :=
  match s with
  | Some s => negb (String.eqb s "")
  | None => false
  end.

(** ** [util/util.js] helpers used by the layer utilities *)

Module Util.
Import ESDate.

Record UTCNumbers := {
  Year : Z; Month : Z; Day_ : Z; Hour : Z; Minute : Z
}.

(** Modelled from the spec: [util.getUTCNumbers] ([web/js/util/util.js],
    outside this source tree): "UTC field extraction" of a date. *)
Definition getUTCNumbers (t : Z) : UTCNumbers :=
  {| Year := YearFromTime t; Month := MonthFromTime t; Day_ := DateFromTime t;
     Hour := HourFromTime t; Minute := MinFromTime t |}.

(** Modelled from the spec: [util.toISOStringSeconds] ([web/js/util/util.js]
    is outside this source tree): the ISO string of a date to the second; as an
    instant, the date with its milliseconds dropped. *)
Definition toISOStringSeconds (t : Z) : Z := t - t mod msPerSecond.

(** Modelled from the spec: [util.minuteDiff] ([web/js/util/util.js],
    outside this source tree): the distance of two instants in minutes,
    rounded. *)
Definition minuteDiff (s e : Z) : Z := Z.abs ((e - s + 30000) / msPerMinute).

Section Host.
Variable tzo : Z.

(** Modelled from the spec: [util.getTimezoneOffsetDate]
    ([web/js/util/util.js], outside this source tree): "timezone
    normalization", the date moved back by the host's offset, so that a
    date built from local fields shows these fields in UTC. *)
Definition getTimezoneOffsetDate (t : Z) : Z := t - tzo * msPerMinute.

(** Modelled from the spec: [util.yearDiff], [util.monthDiff] and
    [util.dayDiff] ([web/js/util/util.js], outside this source tree):
    "difference in days/months/years" of two dates, on their calendar
    fields. *)
Definition yearDiff (s e : Z) : Z := getFullYear tzo e - getFullYear tzo s.

Definition monthDiff (s e : Z) : Z :=
  getMonth tzo e - getMonth tzo s
  + 12 * (getFullYear tzo e - getFullYear tzo s).

Definition dayDiff (s e : Z) : Z :=
  MakeDay (getFullYear tzo e) (getMonth tzo e) (getDate tzo e)
  - MakeDay (getFullYear tzo s) (getMonth tzo s) (getDate tzo s).
End Host.

End Util.

(** ** [modules/layers/util.js]: the date-range resolver *)

Module Layers.
Import ESDate Util.

(** The values [i] taken by [for (let i = 0; i <= bound + 1; i += step)];
    the bound is [undefined] when its guard did not hold, and the loop then
    runs no iteration ([i <= NaN] is false). *)
Definition loop_indices (bound : option Z) (step : positive) : list Z :=
  match bound with
  | None => []
  | Some b =>
      if b + 1 <? 0 then []
      else (fun j => j * Z.pos step) <$> seqZ 0 ((b + 1) / Z.pos step + 1)
  end.

(** [Math.ceil(a / k)] for a positive [k]. *)
Definition ceil_div (a : Z) (k : positive) : Z := - ((- a) / Z.pos k).

(** The last element of an array, [undefined] when it is empty. *)
Definition last_date (l : list Z) : option Z := last l.

Definition getRevisedMaxEndDate (minDate maxEndDate startDateLimit endDateLimit : Z) : Z :=
  let frontDateWithinRange :=
    (minDate <=? startDateLimit) && (startDateLimit <=? maxEndDate) in
  let backDateWithinRange :=
    (endDateLimit <=? maxEndDate) && (minDate <=? endDateLimit) in
  if frontDateWithinRange || backDateWithinRange then endDateLimit
  else maxEndDate.

(** The loop of [getDateArrayLastDateInOrder]: [j] is one more than the
    loop index, [arr] is the array as popped so far and [found] is
    [endDateFound].  As long as nothing is found the index is that of the
    last element of [arr], so the read at the index is defined. *)
Fixpoint lastDateInOrder_loop (timeUnit : Z) (j : nat) (arr : list Z)
    (found : bool) : list Z :=
  match j with
  | O => arr
  | S j' =>
      if found then lastDateInOrder_loop timeUnit j' arr found
      else
        match arr !! j' with
        | Some dateCheck =>
            if timeUnit <=? dateCheck
            then lastDateInOrder_loop timeUnit j' (removelast arr) false
            else lastDateInOrder_loop timeUnit j' (arr ++ [timeUnit]) true
        | None => arr
        end
  end.

Definition getDateArrayLastDateInOrder (timeUnit : Z) (dateArray : list Z) : list Z :=
  match last_date dateArray with
  | Some lastDate =>
      if timeUnit <? lastDate
      then lastDateInOrder_loop timeUnit (length dateArray) dateArray false
      else dateArray
  | None => dateArray
  end.

Section Host.
Variable tzo : Z.

Definition getMinStartDate_step (period : Period) (interval : positive)
    (startDateLimit minYear minMonth minDay : Z)
    (st : option Z * option Z) (i : Z) : option Z * option Z :=
  let '(minStartDate, prevDate) := st in
  match minStartDate with
  | Some _ => st
  | None =>
      let timeUnit :=
        match period with
        | monthly => newDate3 tzo minYear (minMonth + i * Z.pos interval) minDay
        | _ => newDate3 tzo minYear minMonth (minDay + i * Z.pos interval)
        end in
      let timeUnit := getTimezoneOffsetDate tzo timeUnit in
      if startDateLimit <? timeUnit then (prevDate, prevDate)
      else (None, Some timeUnit)
  end.

(** [period] is ['monthly'] or ['daily'] at its two call sites; the
    step of the loop builds the monthly date for the first and the daily
    date for the second. *)
Definition getMinStartDate (timeDiff : Z) (period : Period) (interval : positive)
    (startDateLimit minYear minMonth minDay : Z) : option Z :=
  fst (fold_left
         (getMinStartDate_step period interval startDateLimit minYear minMonth minDay)
         (loop_indices (Some timeDiff) 1) (None, None)).

Record PrevCurrentNext := {
  dayBeforeCurrent : option Z;
  currentDateZeroed : option Z;
  dayAfterCurrent : option Z
}.

Definition addSubDatesBasedOnPeriod (period : Period)
    (minCurrentYear minCurrentMonth minCurrentDay minStartMonth minStartDay : Z)
    : PrevCurrentNext :=
  match period with
  | yearly =>
      {| dayBeforeCurrent := Some (newDate3 tzo (minCurrentYear - 1) minStartMonth minStartDay);
         currentDateZeroed := Some (newDate3 tzo minCurrentYear minStartMonth minStartDay);
         dayAfterCurrent := Some (newDate3 tzo (minCurrentYear + 1) minStartMonth minStartDay) |}
  | monthly =>
      {| dayBeforeCurrent := Some (newDate3 tzo minCurrentYear (minCurrentMonth - 1) minStartDay);
         currentDateZeroed := Some (newDate3 tzo minCurrentYear minCurrentMonth minStartDay);
         dayAfterCurrent := Some (newDate3 tzo minCurrentYear (minCurrentMonth + 1) minStartDay) |}
  | daily =>
      {| dayBeforeCurrent := Some (newDate3 tzo minCurrentYear minCurrentMonth (minCurrentDay - 1));
         currentDateZeroed := Some (newDate3 tzo minCurrentYear minCurrentMonth minCurrentDay);
         dayAfterCurrent := Some (newDate3 tzo minCurrentYear minCurrentMonth (minCurrentDay + 1)) |}
  | subdaily =>
      {| dayBeforeCurrent := None; currentDateZeroed := None; dayAfterCurrent := None |}
  end.

Definition getPrevCurrentNextDates (dates : PrevCurrentNext)
    (breakMinDateTime breakMaxDateTime : Z) : outcome (list Z) :=
  dayBeforeCurrentTime <-! getTime (dayBeforeCurrent dates) ;;
  let limitedDateRange :=
    if breakMinDateTime <=? dayBeforeCurrentTime
    then [getTimezoneOffsetDate tzo dayBeforeCurrentTime] else [] in
  currentDateZeroedTime <-! getTime (currentDateZeroed dates) ;;
  let limitedDateRange :=
    limitedDateRange ++ [getTimezoneOffsetDate tzo currentDateZeroedTime] in
  dayAfterCurrentTime <-! getTime (dayAfterCurrent dates) ;;
  Ret (if dayAfterCurrentTime <=? breakMaxDateTime
       then limitedDateRange ++ [getTimezoneOffsetDate tzo dayAfterCurrentTime]
       else limitedDateRange).

Definition getBreakMaxDate (period : Period) (rangeEndDate : Z) : option Z :=
  let n := getUTCNumbers rangeEndDate in
  match period with
  | yearly => Some (newDate3 tzo (Year n + 1) (Month n) (Day_ n))
  | monthly => Some (newDate3 tzo (Year n) (Month n + 1) (Day_ n))
  | daily => Some (newDate3 tzo (Year n) (Month n) (Day_ n + 1))
  | subdaily => None
  end.

(** [getLimitedDateRange(def, currentDate)], on the period and the first
    date range of [def]. *)
Definition getLimitedDateRange (period : Period) (dateRange : DateRange)
    (currentDate : Z) : outcome (list Z) :=
  let rangeStartDate := startDate dateRange in
  let rangeEndDate := endDate dateRange in
  let currentDateTime := currentDate in
  let breakMinDateTime := rangeStartDate in
  breakMaxDateTime <-! getTime (getBreakMaxDate period rangeEndDate) ;;
  if (breakMinDateTime <=? currentDateTime) && (currentDateTime <=? breakMaxDateTime)
  then
    let cur := getUTCNumbers currentDate in
    let st := getUTCNumbers rangeStartDate in
    getPrevCurrentNextDates
      (addSubDatesBasedOnPeriod period (Year cur) (Month cur) (Day_ cur)
                                (Month st) (Day_ st))
      breakMinDateTime breakMaxDateTime
  else Ret [].

Definition getYearDateRange (currentDateTime minDate maxDate : Z)
    (interval : positive) (dateArray : list Z) : list Z :=
  let mx := getUTCNumbers maxDate in
  let mn := getUTCNumbers minDate in
  let minDateTime := minDate in
  let maxYearDate := newDate3 tzo (Year mx + Z.pos interval) (Month mx) (Day_ mx) in
  let maxYearDateTime := maxYearDate in
  let yearDifference :=
    if (minDateTime <=? currentDateTime) && (currentDateTime <=? maxYearDateTime)
    then Some (yearDiff tzo minDate maxYearDate) else None in
  fold_left
    (fun newDateArray i =>
       let year := newDate3 tzo (Year mn + i * Z.pos interval) (Month mn) (Day_ mn) in
       if year <? maxYearDateTime
       then newDateArray ++ [getTimezoneOffsetDate tzo year]
       else newDateArray)
    (loop_indices yearDifference 1) dateArray.

(** The arguments shared by the monthly, daily and subdaily builders
    ([dateRangeBuildOptions]); [limits] is [Some (startDateLimit,
    endDateLimit)] exactly when [rangeLimitsProvided]. *)
Record BuildOptions := {
  limits : option (Z * Z);
  currentDateTime : Z;
  minDate : Z;
  maxDate : Z;
  dateIntervalNum : positive;
  dateArray : list Z
}.

(** The body shared by the loops of [getMonthDateRange] and
    [getDayDateRange] once the stepped date [unit] is built:
    [minStart] is [minStartMonthDate] / [minStartDayDate] and [maxUnit]
    is [maxMonthDate] / [maxDayDate]. *)
Definition push_stepped (rangeLimitsProvided : bool) (minStart : option Z)
    (maxUnit maxEndDateTime unit : Z) (newDateArray : list Z) : list Z :=
  if unit <? maxEndDateTime then
    if rangeLimitsProvided then
      let newDateArray :=
        if 0 <? Z.of_nat (length newDateArray)
        then getDateArrayLastDateInOrder unit newDateArray
        else newDateArray in
      match minStart with
      | Some minStartTime =>
          let withinRange := (minStartTime <? unit) && (unit <? maxUnit) in
          if (unit =? minStartTime) || withinRange
          then newDateArray ++ [unit] else newDateArray
      | None => newDateArray ++ [unit]
      end
    else newDateArray ++ [unit]
  else newDateArray.

(** [d && f(d)] for a number [d] that may be [undefined]: [f] is called
    only on a non-zero number. *)
Definition and_then (d : option Z) (f : Z -> option Z) : option Z :=
  match d with
  | Some v => if v =? 0 then None else f v
  | None => None
  end.

Definition getMonthDateRange (o : BuildOptions) : list Z :=
  let mx := getUTCNumbers (maxDate o) in
  let mn := getUTCNumbers (minDate o) in
  let k := dateIntervalNum o in
  let minDateTime := minDate o in
  let maxMonthDate :=
    getTimezoneOffsetDate tzo
      (newDate3 tzo (Year mx) (Month mx + Z.pos k) (Day_ mx)) in
  let maxEndDateTime :=
    match limits o with
    | Some (startDateLimit, endDateLimit) =>
        getRevisedMaxEndDate (minDate o) maxMonthDate startDateLimit endDateLimit
    | None => maxMonthDate
    end in
  let monthDifference :=
    if (minDateTime <=? currentDateTime o) && (currentDateTime o <=? maxEndDateTime)
    then Some (ceil_div (monthDiff tzo (minDate o) maxMonthDate) k) else None in
  let minStartMonthDate :=
    match limits o with
    | Some (startDateLimit, _) =>
        and_then monthDifference (fun d =>
          getMinStartDate d monthly k startDateLimit (Year mn) (Month mn) (Day_ mn))
    | None => None
    end in
  fold_left
    (fun newDateArray i =>
       let month :=
         getTimezoneOffsetDate tzo
           (newDate3 tzo (Year mn) (Month mn + i * Z.pos k) (Day_ mn)) in
       push_stepped (bool_decide (is_Some (limits o))) minStartMonthDate
                    maxMonthDate maxEndDateTime month newDateArray)
    (loop_indices monthDifference 1) (dateArray o).

Definition getDayDateRange (o : BuildOptions) : list Z :=
  let mx := getUTCNumbers (maxDate o) in
  let mn := getUTCNumbers (minDate o) in
  let k := dateIntervalNum o in
  let minDateTime := minDate o in
  let maxDayDate := newDate3 tzo (Year mx) (Month mx) (Day_ mx + Z.pos k) in
  let maxEndDate :=
    match limits o with
    | Some (startDateLimit, endDateLimit) =>
        getRevisedMaxEndDate (minDate o) maxDayDate startDateLimit endDateLimit
    | None => maxDayDate
    end in
  let maxEndDateTime := maxEndDate in
  let dayDifference :=
    if (minDateTime <=? currentDateTime o) && (currentDateTime o <=? maxEndDateTime)
    then Some (ceil_div (dayDiff tzo (minDate o) maxEndDate) k) else None in
  let minStartDayDate :=
    match limits o with
    | Some (startDateLimit, _) =>
        and_then dayDifference (fun d =>
          getMinStartDate d daily k startDateLimit (Year mn) (Month mn) (Day_ mn))
    | None => None
    end in
  fold_left
    (fun newDateArray i =>
       let day :=
         getTimezoneOffsetDate tzo
           (newDate3 tzo (Year mn) (Month mn) (Day_ mn + i * Z.pos k)) in
       push_stepped (bool_decide (is_Some (limits o))) minStartDayDate
                    maxDayDate maxEndDateTime day newDateArray)
    (loop_indices dayDifference 1) (dateArray o).

Definition getSubdailyDateRange (o : BuildOptions) : list Z :=
  let mx := getUTCNumbers (maxDate o) in
  let mn := getUTCNumbers (minDate o) in
  let k := Z.pos (dateIntervalNum o) in
  let maxMinuteDate :=
    newDate tzo (Year mx) (Month mx) (Day_ mx) (Hour mx) (Minute mx + k) 0 in
  let '(hourBeforeStartDateLimit, hourAfterEndDateLimit) :=
    match limits o with
    | Some (startDateLimit, endDateLimit) =>
        let startDateLimitOffset := tzo * 60000 in
        let endDateLimitOffset := tzo * 60000 in
        let startDateLimitSetMinutes := setMinutes tzo startDateLimit (Minute mn) in
        let endDateLimitSetMinutes := setMinutes tzo endDateLimit (Minute mn) in
        (startDateLimitSetMinutes - startDateLimitOffset - 60 * 60000,
         endDateLimitSetMinutes - endDateLimitOffset + 60 * 60000)
    | None =>
        let currentSetMinutes := setMinutes tzo (currentDateTime o) (Minute mn) in
        (currentSetMinutes - 60 * 60000, currentSetMinutes + 60 * 60000)
    end in
  let minMinuteDate :=
    match limits o with
    | Some _ =>
        let minMinuteDateMinusIntervalOffset :=
          getTimezoneOffsetDate tzo
            (newDate tzo (Year mn) (Month mn) (Day_ mn) (Hour mn) (Minute mn - k) 0) in
        if hourBeforeStartDateLimit <? minDate o then hourBeforeStartDateLimit
        else if minMinuteDateMinusIntervalOffset <? hourBeforeStartDateLimit
             then hourBeforeStartDateLimit
             else minDate o
    | None =>
        if hourBeforeStartDateLimit <? minDate o then minDate o
        else hourBeforeStartDateLimit
    end in
  let maxMinuteDate :=
    if maxMinuteDate <? hourAfterEndDateLimit then maxMinuteDate
    else hourAfterEndDateLimit in
  let minMinuteDateTime := minMinuteDate in
  let maxMinuteDateTime := maxMinuteDate in
  let currentDateTimeCheck :=
    match limits o with
    | Some _ => getTimezoneOffsetDate tzo (currentDateTime o)
    | None => currentDateTime o
    end in
  let minuteDifference :=
    if (minMinuteDateTime <=? currentDateTimeCheck)
       && (currentDateTimeCheck <=? maxMinuteDateTime)
    then Some (minuteDiff minMinuteDate maxMinuteDate) else None in
  let mm := getUTCNumbers minMinuteDate in
  fold_left
    (fun newDateArray i =>
       let subdailyTime :=
         newDate tzo (Year mm) (Month mm) (Day_ mm) (Hour mm) (Minute mm + i) 0 in
       let subdailyTime :=
         match limits o with
         | Some _ => subdailyTime
         | None => getTimezoneOffsetDate tzo subdailyTime
         end in
       let lessThanLastDateInCollection :=
         match last_date newDateArray with
         | Some lastDate => lastDate <? subdailyTime
         | None => true
         end in
       if (minMinuteDateTime <=? subdailyTime) && lessThanLastDateInCollection
       then newDateArray ++ [subdailyTime]
       else newDateArray)
    (loop_indices minuteDifference (dateIntervalNum o)) (dateArray o).

(** The variables of [datesInDateRanges] that the callback of
    [lodashEach(dateRanges, ...)] assigns. *)
Record ResolverState := {
  rs_dateArray : list Z;
  rs_currentDate : Z;
  rs_hitMaxLimitOfRange : bool;
  rs_runningMinDate : option Z
}.

Section Resolver.
Variable def : LayerDef.
Variable ranges : list DateRange.
Variables startDateLimit endDateLimit : option Z.
Variable appNow : Z.

Definition rangeLimits : option (Z * Z) :=
  match startDateLimit, endDateLimit with
  | Some s, Some e => Some (s, e)
  | _, _ => None
  end.

Definition singleDateRangeAndInterval : bool :=
  match rangeLimits with
  | Some _ => false
  | None =>
      match ranges with
      | [r] => Pos.eqb (dateInterval r) 1
      | _ => false
      end
  end.

(** The steps of the callback after its two mode-specific blocks. *)
Definition resolve_range (st : ResolverState) (currentDate : Z)
    (minDate_ maxDate_ : Z) (k : positive) : outcome ResolverState :=
  if singleDateRangeAndInterval then
    match ranges with
    | dateRange0 :: _ =>
        limitedDateRange <-! getLimitedDateRange (period def) dateRange0 currentDate ;;
        Ret {| rs_dateArray := limitedDateRange;
               rs_currentDate := currentDate;
               rs_hitMaxLimitOfRange := rs_hitMaxLimitOfRange st;
               rs_runningMinDate := rs_runningMinDate st |}
    | [] => TypeError
    end
  else
    let dateArray1 :=
      match period def with
      | yearly => getYearDateRange currentDate minDate_ maxDate_ k (rs_dateArray st)
      | _ => rs_dateArray st
      end in
    let o := {| limits := rangeLimits; currentDateTime := currentDate;
                minDate := minDate_; maxDate := maxDate_;
                dateIntervalNum := k; dateArray := dateArray1 |} in
    let dateArray2 :=
      match period def with
      | monthly => getMonthDateRange o
      | daily => getDayDateRange o
      | subdaily => getSubdailyDateRange o
      | yearly => dateArray1
      end in
    Ret {| rs_dateArray := dateArray2;
           rs_currentDate := currentDate;
           rs_hitMaxLimitOfRange := rs_hitMaxLimitOfRange st;
           rs_runningMinDate := Some minDate_ |}.

(** One call of the callback of [lodashEach(dateRanges, ...)]. *)
Definition eachDateRange (st : ResolverState) (index : nat)
    (dateRange : DateRange) : outcome ResolverState :=
  let k := dateInterval dateRange in
  let currentDateTime := rs_currentDate st in
  let lastDateInDateArray := last_date (rs_dateArray st) in
  let minDate_ := startDate dateRange in
  let maxDate_ := endDate dateRange in
  let currentDateLessThanMinDate := currentDateTime <? minDate_ in
  let currentDateGreaterThanMaxDate := maxDate_ <? currentDateTime in
  match rangeLimits with
  | None =>
      if (currentDateLessThanMinDate || currentDateGreaterThanMaxDate)
         && (negb (rs_hitMaxLimitOfRange st) && currentDateLessThanMinDate)
      then
        let dateArray' :=
          match lastDateInDateArray with
          | Some lastDate =>
              if minDate_ <? lastDate
              then removelast (rs_dateArray st) ++ [minDate_; lastDate]
              else rs_dateArray st
          | None => rs_dateArray st ++ [minDate_]
          end in
        Ret {| rs_dateArray := dateArray';
               rs_currentDate := rs_currentDate st;
               rs_hitMaxLimitOfRange := true;
               rs_runningMinDate := rs_runningMinDate st |}
      else resolve_range st (rs_currentDate st) minDate_ maxDate_ k
  | Some (inputStartDateTime, inputEndDateTime) =>
      if startDate dateRange =? endDate dateRange then
        Ret {| rs_dateArray :=
                 if (inputStartDateTime <=? minDate_) && (maxDate_ <=? inputEndDateTime)
                 then rs_dateArray st ++ [minDate_] else rs_dateArray st;
               rs_currentDate := rs_currentDate st;
               rs_hitMaxLimitOfRange := rs_hitMaxLimitOfRange st;
               rs_runningMinDate := rs_runningMinDate st |}
      else
        let minDateWithinRangeLimits :=
          (inputStartDateTime <? minDate_) && (minDate_ <? inputEndDateTime) in
        let runningMinDateAndLastDateEarlier :=
          match rs_runningMinDate st, lastDateInDateArray with
          | Some _, Some lastDate => minDate_ <? lastDate
          | _, _ => false
          end in
        let currentDate :=
          if currentDateLessThanMinDate
             && (minDateWithinRangeLimits || runningMinDateAndLastDateEarlier)
          then minDate_ else rs_currentDate st in
        let maxDate_ :=
          if (Nat.eqb index (length ranges - 1)) && ongoing def
          then (if truthy_string (futureTime def)
                then endDate dateRange else appNow)
          else maxDate_ in
        resolve_range st currentDate minDate_ maxDate_ k
  end.

Fixpoint eachDateRanges (st : ResolverState) (index : nat)
    (rs : list DateRange) : outcome ResolverState :=
  match rs with
  | [] => Ret st
  | r :: rs' =>
      st' <-! eachDateRange st index r ;;
      eachDateRanges st' (S index) rs'
  end.
End Resolver.

Definition datesInDateRanges (def : LayerDef) (date : Z)
    (startDateLimit endDateLimit : option Z) (appNow : Z) : outcome (list Z) :=
  match dateRanges def with
  | None => Ret []
  | Some ranges =>
      st <-! eachDateRanges def ranges startDateLimit endDateLimit appNow
               {| rs_dateArray := []; rs_currentDate := date;
                  rs_hitMaxLimitOfRange := false; rs_runningMinDate := None |}
               0%nat ranges ;;
      Ret (rs_dateArray st)
  end.
End Host.

(** The three candidate dates [getLimitedDateRange] builds: the period
    unit before the requested date, the requested date zeroed, and the unit
    after. *)
Definition limited_candidates (tzo : Z) (p : Period) (r : DateRange) (date : Z)
    : PrevCurrentNext :=
  let cur := getUTCNumbers date in
  let st := getUTCNumbers (startDate r) in
  addSubDatesBasedOnPeriod tzo p (Year cur) (Month cur) (Day_ cur) (Month st) (Day_ st).

(** *** The limited mode in the spec's words

    A calendar date is a year, a month (0 is January) and a day of the
    month; [calendar_of] reads it off an instant in UTC and [midnight] is
    its instant at 00:00:00Z. *)
Definition calendar_of (t : Z) : Z * Z * Z :=
  (YearFromTime t, MonthFromTime t, DateFromTime t).

Definition midnight (c : Z * Z * Z) : Z :=
  let '(y, m, d) := c in DateUTC y m d 0 0 0.

(** Following the spec's words, "yearly advances the year field, monthly
    the month field, daily the day field". *)
Definition advance_unit (p : Period) (n : Z) (c : Z * Z * Z) : Z * Z * Z :=
  let '(y, m, d) := c in
  match p with
  | yearly => (y + n, m, d)
  | monthly => (y, m + n, d)
  | daily => (y, m, d + n)
  | subdaily => c
  end.

(** Following the spec's words, the requested date "zeroed to period
    granularity", "keeping month/day (or day) anchored to the range's
    start". *)
Definition zeroed_to_period (p : Period) (requested start : Z) : Z * Z * Z :=
  let '(y, m, d) := calendar_of requested in
  let '(_, ms, ds) := calendar_of start in
  match p with
  | yearly => (y, ms, ds)
  | monthly => (y, m, ds)
  | _ => (y, m, d)
  end.

(** The instant at which the clock of the host, [tzo] minutes behind UTC,
    shows 00:00:00 on the calendar date. *)
Definition local_midnight (tzo : Z) (c : Z * Z * Z) : Z :=
  midnight c + tzo * msPerMinute.

(** A layer whose fields other than the period and the date ranges are
    the defaults. *)
Definition plain_layer (p : Period) (rs : list DateRange) : LayerDef :=
  {| period := p; ongoing := false; futureTime := None; availability := None;
     dateRanges := Some rs |}.

(** *** [dateOverlap] *)

(** Modelled from the spec: [parseDate] ([web/js/modules/date/util.js],
    outside this source tree): a fresh [Date] of the instant a date string
    denotes. *)
Definition parseDate (t : Z) : Z := t.

(** [Array.prototype.sort(compare)]: the sort is stable, so for a comparator
    that orders by a key the result is fixed; it is built here by insertion
    from the right.  The array is sorted in place: the result is also the
    new content of the array the method was called on. *)
Section Sort.
Context {A : Type}.
Variable compare : A -> A -> Z.

Fixpoint sort_insert (x : A) (l : list A) : list A :=
  match l with
  | [] => [x]
  | y :: l' => if 0 <? compare x y then y :: sort_insert x l' else x :: y :: l'
  end.

Fixpoint array_sort (l : list A) : list A :=
  match l with
  | [] => []
  | x :: l' => sort_insert x (array_sort l')
  end.
End Sort.

(** The comparator [dateOverlap] sorts with. *)
Definition compareStartDate (previous current : DateRange) : Z :=
  let previousTime := parseDate (startDate previous) in
  let currentTime := parseDate (startDate current) in
  if previousTime <? currentTime then -1
  else if previousTime =? currentTime then 0
  else 1.

Record OverlapResult := {
  overlap : bool;
  ranges : list (DateRange * DateRange)
}.

Section Host.
Variable tzo : Z.

(** [previousEnd] as compared with the next range's start. *)
Definition previousEndTime (period : Period) (previous : DateRange) : Z :=
  let previousEnd := parseDate (endDate previous) in
  let k := Z.pos (dateInterval previous) in
  let previousEnd :=
    if (1 <? k) && bool_decide (period = daily)
    then previousEnd + (k * 86400000 - 86400000)
    else previousEnd in
  match period with
  | monthly => setMonth tzo previousEnd (getMonth tzo previousEnd + (k - 1))
  | yearly => setFullYear tzo previousEnd (getFullYear tzo previousEnd + (k - 1))
  | _ => previousEnd
  end.

(** The callback of [sortedRanges.reduce]; [previous] is [arr[idx - 1]],
    [None] at index 0. *)
Definition overlap_step (period : Period) (result : OverlapResult)
    (previous : option DateRange) (current : DateRange) : OverlapResult :=
  match previous with
  | None => result
  | Some previous =>
      let currentStart := parseDate (startDate current) in
      if currentStart <=? previousEndTime period previous
      then {| overlap := true;
              ranges := ranges result ++ [(previous, current)] |}
      else result
  end.

Fixpoint overlap_reduce (period : Period) (result : OverlapResult)
    (previous : option DateRange) (arr : list DateRange) : OverlapResult :=
  match arr with
  | [] => result
  | current :: arr' =>
      overlap_reduce period (overlap_step period result previous current)
                     (Some current) arr'
  end.

(** [dateOverlap(period, dateRanges)]: the result, and the content of the
    caller's [dateRanges] array after the call. *)
Definition dateOverlap (period : Period) (dateRanges : list DateRange)
    : OverlapResult * list DateRange :=
  let sortedRanges := array_sort compareStartDate dateRanges in
  (overlap_reduce period {| overlap := false; ranges := [] |} None sortedRanges,
   sortedRanges).
End Host.

(** The pairs of neighbours of a list, in order. *)
Definition adjacent_pairs {A} (l : list A) : list (A * A) := zip l (tail l).

(** Following the spec's words, "the prior range's end extended by
    [(dateInterval - 1)] period units": the instant [t] advanced by [n]
    units of the period, the unit of a subdaily period being the minute
    its interval counts. *)
Definition advance_by_period_units (tzo : Z) (p : Period) (t n : Z) : Z :=
  match p with
  | yearly => setFullYear tzo t (getFullYear tzo t + n)
  | monthly => setMonth tzo t (getMonth tzo t + n)
  | daily => t + n * msPerDay
  | subdaily => t + n * msPerMinute
  end.

Definition effective_end (tzo : Z) (p : Period) (prior : DateRange) : Z :=
  advance_by_period_units tzo p (endDate prior) (Z.pos (dateInterval prior) - 1).

(** "Overlap is flagged when the prior's effective end >= the next's
    declared start." *)
Definition overlap_flagged (tzo : Z) (p : Period) (pair : DateRange * DateRange) : bool :=
  startDate (snd pair) <=? effective_end tzo p (fst pair).

(** The same without any extension of the prior range's end. *)
Definition overlap_declared (pair : DateRange * DateRange) : bool :=
  startDate (snd pair) <=? endDate (fst pair).

(** Ascending order of the start dates. *)
Definition start_le (a b : DateRange) : Prop := startDate a <= startDate b.

(** The amended test: the end is extended for the yearly, monthly and
    daily periods and taken as declared for the subdaily period. *)
Definition period_flag (tzo : Z) (p : Period) : DateRange * DateRange -> bool :=
  match p with
  | subdaily => overlap_declared
  | _ => overlap_flagged tzo p
  end.

(** The pairs the reduction visits: the neighbours of the array, headed
    by the element before it when there is one. *)
Definition visited_pairs (previous : option DateRange) (arr : list DateRange)
    : list (DateRange * DateRange) :=
  match previous with
  | Some p => adjacent_pairs (p :: arr)
  | None => adjacent_pairs arr
  end.

(** *** [adjustActiveDateRanges] *)

(** The body of the loop at index [i]; the array grows when a range is
    pushed. *)
Definition adjustRange_body (appNow : Z) (i : nat)
    (dateRangesModified : list DateRange) : list DateRange :=
  let appNowYear := YearFromTime appNow in
  match dateRangesModified !! i with
  | None => dateRangesModified
  | Some dateRange =>
      let k := dateInterval dateRange in
      if Nat.eqb i (length dateRangesModified - 1) && (1 <? Z.pos k) then
        let start := startDate dateRange in
        let startDateYear := YearFromTime start in
        let arr1 :=
          if startDateYear =? appNowYear
          then <[i := mkRange (startDate dateRange) (toISOStringSeconds appNow) k]>
                 dateRangesModified
          else dateRangesModified in
        if startDateYear <? appNowYear then
          let dynamicStartYear := YearFromTime start + 1 in
          let dynamicStartDate := setUTCFullYear start dynamicStartYear in
          let end_ := endDate dateRange in
          let endDateYear := YearFromTime end_ in
          let dynamicEndYear := YearFromTime end_ + 1 in
          let dynamicEndDate := setUTCFullYear end_ dynamicEndYear in
          let dynamicEndDate :=
            if dynamicEndDate <? appNow then dynamicEndDate else appNow in
          let arr2 :=
            if endDateYear <? appNowYear then
              let endOfYearDate := setUTCFullYear (ymd 2021 12 31) endDateYear in
              <[i := mkRange (startDate dateRange) (toISOStringSeconds endOfYearDate) k]>
                arr1
            else arr1 in
          if dynamicStartDate <? appNow
          then arr2 ++ [mkRange (toISOStringSeconds dynamicStartDate)
                                (toISOStringSeconds dynamicEndDate) k]
          else arr2
        else arr1
      else dateRangesModified
  end.

(** [for (let i = 0; i < dateRangesModified.length; i += 1)], from index
    [i]; [None] when the fuel runs out before the loop ends. *)
Fixpoint adjustRange_loop (fuel : nat) (appNow : Z) (i : nat)
    (dateRangesModified : list DateRange) : option (list DateRange) :=
  match fuel with
  | O => None
  | S fuel' =>
      if (i <? length dateRangesModified)%nat
      then adjustRange_loop fuel' appNow (S i) (adjustRange_body appNow i dateRangesModified)
      else Some dateRangesModified
  end.

(** Every pushed range starts at least a year after the range it comes
    from, and nothing is pushed once the start has reached the year of
    [appNow]: the loop ends within this many iterations. *)
Definition adjustRange_fuel (appNow : Z) (dateRanges : list DateRange) : nat :=
  let lastYear :=
    match last dateRanges with
    | Some r => YearFromTime (startDate r)
    | None => YearFromTime appNow
    end in
  (length dateRanges + Z.to_nat (YearFromTime appNow - lastYear) + 2)%nat.

(** The number of years from the start of a range to [appNow]. *)
Definition years_left (appNow : Z) (r : DateRange) : nat :=
  Z.to_nat (YearFromTime appNow - YearFromTime (startDate r)).

(** The loop of [applyDateRangeAdjustment] on the ranges of a layer. *)
Definition adjust_ranges (appNow : Z) (dateRanges : list DateRange)
    : option (list DateRange) :=
  adjustRange_loop (adjustRange_fuel appNow dateRanges) appNow 0 dateRanges.

Definition applyDateRangeAdjustment (appNow : Z) (layer : LayerDef) : LayerDef :=
  match dateRanges layer with
  | None => layer
  | Some ranges_ =>
      let failConditions :=
        negb (ongoing layer) || bool_decide (period layer = subdaily) in
      if failConditions then layer
      else
        match adjust_ranges appNow ranges_ with
        | Some dateRangesModified =>
            {| period := period layer; ongoing := ongoing layer;
               futureTime := futureTime layer; availability := availability layer;
               dateRanges := Some dateRangesModified |}
        | None => layer
        end
  end.

(** The range the body leaves at the last index when it runs on [r] with
    an interval above one, and the range it pushes, if any. *)
Definition replaced_range (appNow : Z) (r : DateRange) : DateRange :=
  let appNowYear := YearFromTime appNow in
  let startDateYear := YearFromTime (startDate r) in
  let endDateYear := YearFromTime (endDate r) in
  if startDateYear =? appNowYear
  then mkRange (startDate r) (toISOStringSeconds appNow) (dateInterval r)
  else if (startDateYear <? appNowYear) && (endDateYear <? appNowYear)
  then mkRange (startDate r)
               (toISOStringSeconds (setUTCFullYear (ymd 2021 12 31) endDateYear))
               (dateInterval r)
  else r.

Definition pushed_range (appNow : Z) (r : DateRange) : option DateRange :=
  let appNowYear := YearFromTime appNow in
  let startDateYear := YearFromTime (startDate r) in
  let dynamicStartDate := setUTCFullYear (startDate r) (startDateYear + 1) in
  let dynamicEndDate := setUTCFullYear (endDate r) (YearFromTime (endDate r) + 1) in
  let dynamicEndDate := if dynamicEndDate <? appNow then dynamicEndDate else appNow in
  if (startDateYear <? appNowYear) && (dynamicStartDate <? appNow)
  then Some (mkRange (toISOStringSeconds dynamicStartDate)
                     (toISOStringSeconds dynamicEndDate) (dateInterval r))
  else None.

(** The ranges that replace a last range [r] of interval above one: [r]
    as replaced, followed by what the range pushed for it turns into. *)
Fixpoint range_chain (n : nat) (appNow : Z) (r : DateRange) : list DateRange :=
  replaced_range appNow r ::
  match pushed_range appNow r, n with
  | Some p, S n' => range_chain n' appNow p
  | _, _ => []
  end.

(** [adjustActiveDateRanges(layers, appNow)]: the layers object after the
    call. *)
Definition adjustActiveDateRanges (layers : gmap string LayerDef) (appNow : Z)
    : gmap string LayerDef :=
  applyDateRangeAdjustment appNow <$> layers.

End Layers.

(** ** JavaScript string operations used by the permalink codec *)

Module JSString.
Local Open Scope string_scope.

Definition is_open (c : ascii) : bool := Ascii.eqb c "(".
Definition is_close (c : ascii) : bool := Ascii.eqb c ")".
Definition is_comma (c : ascii) : bool := Ascii.eqb c ",".
Definition is_paren (c : ascii) : bool := is_open c || is_close c.

(** [s.split(sep)] for a separator that matches one character. *)
Fixpoint split_on (sep : ascii -> bool) (s : string) : list string :=
  match s with
  | "" => [""]
  | String c s' =>
      if sep c then "" :: split_on sep s'
      else match split_on sep s' with
           | x :: xs => String c x :: xs
           | [] => [String c ""]
           end
  end.

(** [s.replace(/[()]/g, '')] and the like: the characters matching [p]
    are removed. *)
Fixpoint remove_chars (p : ascii -> bool) (s : string) : string :=
  match s with
  | "" => ""
  | String c s' => if p c then remove_chars p s' else String c (remove_chars p s')
  end.

(** [s.replaceAll(a, b)] for single characters. *)
Fixpoint replace_char (a b : ascii) (s : string) : string :=
  match s with
  | "" => ""
  | String c s' => String (if Ascii.eqb c a then b else c) (replace_char a b s')
  end.

Fixpoint contains (p : ascii -> bool) (s : string) : bool :=
  match s with
  | "" => false
  | String c s' => p c || contains p s'
  end.

(** The longest prefix of characters satisfying [p]. *)
Fixpoint take_while (p : ascii -> bool) (s : string) : string :=
  match s with
  | "" => ""
  | String c s' => if p c then String c (take_while p s') else ""
  end.

Fixpoint join (sep : string) (l : list string) : string :=
  match l with
  | [] => ""
  | [x] => x
  | x :: l' => x ++ sep ++ join sep l'
  end.

(** *** [str.match(/[^(,]+(\([^)]*\))?,?/g)]

    A match starts at a character other than ['('] and [','], takes the
    longest run of such characters, then a parenthesised group up to the
    first [')'] when the run is followed by ['('] and a [')'] occurs later,
    then one comma when present.  The scan is a single pass; its state is
    the match in progress. *)
Inductive scan_state :=
| Idle
| InRun (run : string)
| InGroup (tok : string)
| AfterGroup (tok : string).

Definition snoc (s : string) (c : ascii) : string := s ++ String c "".

Fixpoint scan_layerDefs (st : scan_state) (s : string) : list string :=
  match s with
  | "" =>
      match st with
      | Idle => []
      | InRun tok | InGroup tok | AfterGroup tok => [tok]
      end
  | String c s' =>
      match st with
      | Idle =>
          if is_open c || is_comma c then scan_layerDefs Idle s'
          else scan_layerDefs (InRun (String c "")) s'
      | InRun run =>
          if is_comma c then snoc run c :: scan_layerDefs Idle s'
          else if is_open c then
            if contains is_close s' then scan_layerDefs (InGroup (snoc run c)) s'
            else run :: scan_layerDefs Idle s'
          else scan_layerDefs (InRun (snoc run c)) s'
      | InGroup tok =>
          if is_close c then scan_layerDefs (AfterGroup (snoc tok c)) s'
          else scan_layerDefs (InGroup (snoc tok c)) s'
      | AfterGroup tok =>
          if is_comma c then snoc tok c :: scan_layerDefs Idle s'
          else if is_open c then tok :: scan_layerDefs Idle s'
          else tok :: scan_layerDefs (InRun (String c "")) s'
      end
  end.

(** A non-empty string whose first character can start a layer id. *)
Definition starts_with_id (s : string) : bool :=
  match s with
  | String c _ => negb (is_open c || is_comma c)
  | "" => false
  end.

(** The match in progress, if any, starts with such a character. *)
Definition scan_state_ok (st : scan_state) : bool :=
  match st with
  | Idle => true
  | InRun tok | InGroup tok | AfterGroup tok => starts_with_id tok
  end.

(** The array of matches, [null] when there is none. *)
Definition match_layerDefs (s : string) : option (list string) :=
  match scan_layerDefs Idle s with
  | [] => None
  | l => Some l
  end.

(** [s.match(/[^(,]+/)]: the first run of characters other than ['(']
    and [','], [null] when there is none. *)
Fixpoint match_layerId (s : string) : option string :=
  match s with
  | "" => None
  | String c s' =>
      if is_open c || is_comma c then match_layerId s'
      else Some (take_while (fun c => negb (is_open c || is_comma c)) s)
  end.

(** Line terminators: [.] does not match them. *)
Definition is_line_terminator (c : ascii) : bool :=
  Ascii.eqb c "010" || Ascii.eqb c "013".

(** The prefix of [s] up to and including its last [')'], if any. *)
Fixpoint upto_last_close (s : string) : option string :=
  match s with
  | "" => None
  | String c s' =>
      match upto_last_close s' with
      | Some m => Some (String c m)
      | None => if is_close c then Some (String c "") else None
      end
  end.

(** [s.match(/\(.*\)/)]: from the leftmost ['('] that is followed on its
    line by a [')'], up to the last [')'] of that line. *)
Fixpoint match_parens (s : string) : option string :=
  match s with
  | "" => None
  | String c s' =>
      if is_open c then
        match upto_last_close (take_while (fun c => negb (is_line_terminator c)) s') with
        | Some m => Some (String c m)
        | None => match_parens s'
        end
      else match_parens s'
  end.

(** [s.startsWith('!')] and [s.substring(1)] *)
Definition startsWith_bang (s : string) : bool :=
  match s with
  | String c _ => Ascii.eqb c "!"
  | "" => false
  end.

Definition substring1 (s : string) : string :=
  match s with
  | String _ s' => s'
  | "" => ""
  end.

(** *** [encodeURIComponent] on 8-bit characters *)

Definition is_digit (c : ascii) : bool :=
  let n := nat_of_ascii c in (48 <=? n)%nat && (n <=? 57)%nat.

Definition is_alpha (c : ascii) : bool :=
  let n := nat_of_ascii c in
  ((65 <=? n)%nat && (n <=? 90)%nat) || ((97 <=? n)%nat && (n <=? 122)%nat).

Definition is_unreserved (c : ascii) : bool :=
  is_alpha c || is_digit c
  || existsb (Ascii.eqb c) ["-"; "_"; "."; "!"; "~"; "*"; "'"; "("; ")"]%char.

Definition hex_digit (n : nat) : ascii :=
  if (n <? 10)%nat then ascii_of_nat (48 + n) else ascii_of_nat (55 + n).

Definition percent_byte (n : nat) : string :=
  String "%" (String (hex_digit (n / 16)) (String (hex_digit (n mod 16)) "")).

Definition encode_char (c : ascii) : string :=
  let n := nat_of_ascii c in
  if is_unreserved c then String c ""
  else if (n <? 128)%nat then percent_byte n
  else percent_byte (192 + n / 64) ++ percent_byte (128 + n mod 64).

Fixpoint encodeURIComponent (s : string) : string :=
  match s with
  | "" => ""
  | String c s' => encode_char c ++ encodeURIComponent s'
  end.

(** *** [parseFloat]

    [parseFloat(s)] is [NaN] exactly when [s], after its leading white
    space, has no prefix that is a decimal literal: an optional sign
    followed by [Infinity], by a digit, or by a dot and a digit. *)
Definition is_whitespace (c : ascii) : bool :=
  existsb (Ascii.eqb c) ["009"; "010"; "011"; "012"; "013"; " "; "160"]%char.

Fixpoint trim_start (s : string) : string :=
  match s with
  | String c s' => if is_whitespace c then trim_start s' else s
  | "" => ""
  end.

Definition unsigned_literal_prefix (s : string) : bool :=
  match s with
  | String c s' =>
      is_digit c
      || (Ascii.eqb c "." && match s' with String d _ => is_digit d | "" => false end)
      || String.prefix "Infinity" s
  | "" => false
  end.

Definition parseFloat_isNaN (s : string) : bool :=
  let t := trim_start s in
  negb (match t with
        | String c t' =>
            if Ascii.eqb c "+" || Ascii.eqb c "-" then unsigned_literal_prefix t'
            else unsigned_literal_prefix t
        | "" => false
        end).

End JSString.

(** ** Property lookup on an object literal *)

Module JSObject.
Local Open Scope string_scope.

(** The property names an object literal inherits from
    [Object.prototype]; each has a value that is truthy and has no [push]
    method. *)
Definition object_prototype_keys : list string :=
  ["constructor"; "__defineGetter__"; "__defineSetter__"; "hasOwnProperty";
   "__lookupGetter__"; "__lookupSetter__"; "isPrototypeOf";
   "propertyIsEnumerable"; "toString"; "valueOf"; "__proto__"; "toLocaleString"].

Definition inherited (key : string) : bool :=
  existsb (String.eqb key) object_prototype_keys.

End JSObject.

(** ** [modules/layers/util.js]: the permalink codec *)

Module Codec.
Import JSString JSObject.
Local Open Scope string_scope.

(** What the code does besides computing: console output and telemetry. *)
Inductive effect :=
| Warn (msg : string)
| Log (msg : string)
| PushEvent (layerId : string).

(** Computations that log and may throw: the outcome and the trace of the
    effects performed; the trace up to an exception is kept. *)
Definition M (A : Type) : Type := (outcome A * list effect)%type.

Definition mret {A} (a : A) : M A := (Ret a, []).

Definition mbind {A B} (m : M A) (f : A -> M B) : M B :=
  match m with
  | (Ret a, tr) => let '(r, tr') := f a in (r, (tr ++ tr')%list)
  | (TypeError, tr) => (TypeError, tr)
  end.

Definition emit (e : effect) : M unit := (Ret tt, [e]).

Definition throw {A} : M A := (TypeError, []).

Notation "x <- e ;;; k" := (mbind e (fun x => k))
  (at level 100, e at next level, right associativity).
Notation "e ;;; k" := (mbind e (fun _ => k))
  (at level 100, right associativity).

(** [lodashEach(l, f)] for a callback with effects. *)
Fixpoint forEachM {A} (f : A -> M unit) (l : list A) : M unit :=
  match l with
  | [] => mret tt
  | x :: l' => f x ;;; forEachM f l'
  end.

(** [lodashEach(l, f)] for a callback that updates the variables [S]. *)
Fixpoint foldM {A S} (f : S -> A -> M S) (s : S) (l : list A) : M S :=
  match l with
  | [] => mret s
  | x :: l' => s' <- f s x ;;; foldM f s' l'
  end.

(** *** Attributes as the parsers build them *)

(** The value of a parsed attribute: [true] for a bare key, else the text
    after the first [=]. *)
Inductive attr_value :=
| VTrue
| VStr (s : string).

Record attribute := mkAttr { attr_id : string; attr_value_ : attr_value }.

Record lstate := mkLstate { lstate_id : string; lstate_attributes : list attribute }.

(** Numbers of a layer specification.  Floating point is not interpreted:
    a number is the expression that computes it. *)
Inductive jsnum :=
| NumLit (z : Z)
| ParseFloat (s : string)
| ToNumber (v : attr_value)
| Clamp (x lo hi : jsnum).

Record LayerSpec := {
  hidden : bool;
  opacity : jsnum;
  count : option jsnum;
  bandCombo : option (list string);
  custom : option (list string);
  min : option (list (option jsnum));
  squash : option (list bool);
  max : option (list (option jsnum));
  disabled : option (list string)
}.

Definition is_semicolon (c : ascii) : bool := Ascii.eqb c ";".

(** [attr.value.split(';')]: [true] has no [split] method. *)
Definition value_split (v : attr_value) : M (list string) :=
  match v with
  | VStr s => mret (split_on is_semicolon s)
  | VTrue => throw
  end.

(** [parseFloat(v)] is [NaN]: [true] reads as the text "true". *)
Definition value_isNaN (v : attr_value) : bool :=
  match v with
  | VStr s => parseFloat_isNaN s
  | VTrue => true
  end.

(** The loop over the segments of a [min] or [max] attribute. *)
Definition limit_step (name : string) (arr : list (option jsnum)) (value : string)
    : M (list (option jsnum)) :=
  if String.eqb value "" then mret (arr ++ [None])%list
  else if parseFloat_isNaN value
       then emit (Warn ("Invalid " ++ name ++ " value: " ++ value)) ;;; mret arr
       else mret (arr ++ [Some (ParseFloat value)])%list.

Definition nonempty {A} (l : list A) : option (list A) :=
  match l with
  | [] => None
  | _ => Some l
  end.

Definition set_hidden (b : bool) (s : LayerSpec) : LayerSpec :=
  {| hidden := b; opacity := opacity s; count := count s; bandCombo := bandCombo s;
     custom := custom s; min := min s; squash := squash s; max := max s;
     disabled := disabled s |}.
Definition set_opacity (x : jsnum) (s : LayerSpec) : LayerSpec :=
  {| hidden := hidden s; opacity := x; count := count s; bandCombo := bandCombo s;
     custom := custom s; min := min s; squash := squash s; max := max s;
     disabled := disabled s |}.
Definition set_count (x : option jsnum) (s : LayerSpec) : LayerSpec :=
  {| hidden := hidden s; opacity := opacity s; count := x; bandCombo := bandCombo s;
     custom := custom s; min := min s; squash := squash s; max := max s;
     disabled := disabled s |}.
Definition set_bandCombo (x : option (list string)) (s : LayerSpec) : LayerSpec :=
  {| hidden := hidden s; opacity := opacity s; count := count s; bandCombo := x;
     custom := custom s; min := min s; squash := squash s; max := max s;
     disabled := disabled s |}.
Definition set_custom (x : option (list string)) (s : LayerSpec) : LayerSpec :=
  {| hidden := hidden s; opacity := opacity s; count := count s; bandCombo := bandCombo s;
     custom := x; min := min s; squash := squash s; max := max s;
     disabled := disabled s |}.
Definition set_min (x : option (list (option jsnum))) (s : LayerSpec) : LayerSpec :=
  {| hidden := hidden s; opacity := opacity s; count := count s; bandCombo := bandCombo s;
     custom := custom s; min := x; squash := squash s; max := max s;
     disabled := disabled s |}.
Definition set_squash (x : option (list bool)) (s : LayerSpec) : LayerSpec :=
  {| hidden := hidden s; opacity := opacity s; count := count s; bandCombo := bandCombo s;
     custom := custom s; min := min s; squash := x; max := max s;
     disabled := disabled s |}.
Definition set_max (x : option (list (option jsnum))) (s : LayerSpec) : LayerSpec :=
  {| hidden := hidden s; opacity := opacity s; count := count s; bandCombo := bandCombo s;
     custom := custom s; min := min s; squash := squash s; max := x;
     disabled := disabled s |}.
Definition set_disabled (x : option (list string)) (s : LayerSpec) : LayerSpec :=
  {| hidden := hidden s; opacity := opacity s; count := count s; bandCombo := bandCombo s;
     custom := custom s; min := min s; squash := squash s; max := max s;
     disabled := x |}.

(** [if (attr.id === name) { ... }] *)
Definition when_id (name : string) (attr : attribute)
    (f : LayerSpec -> M LayerSpec) (s : LayerSpec) : M LayerSpec :=
  if String.eqb (attr_id attr) name then f s else mret s.

(** The callback of [lodashEach(attributes, ...)] in [getLayerSpec];
    [util.clamp] and [util.toArray] are outside this source tree: the first
    is kept as the expression [Clamp], which is [NaN] when its argument is,
    and the second leaves the array [split] returns as it is. *)
Definition getLayerSpec_attr (s : LayerSpec) (attr : attribute) : M LayerSpec :=
  let v := attr_value_ attr in
  s <- when_id "hidden" attr (fun s => mret (set_hidden true s)) s ;;;
  s <- when_id "opacity" attr (fun s =>
         mret (set_opacity
                 (if value_isNaN v then NumLit 0
                  else Clamp (ParseFloat (match v with VStr t => t | VTrue => "true" end))
                             (NumLit 0) (NumLit 1)) s)) s ;;;
  s <- when_id "disabled" attr (fun s =>
         values <- value_split v ;;; mret (set_disabled (Some values) s)) s ;;;
  s <- when_id "max" attr (fun s =>
         match v with
         | VStr t =>
             maxArray <- foldM (limit_step "max") [] (split_on is_semicolon t) ;;;
             mret (set_max (nonempty maxArray) s)
         | VTrue => mret s
         end) s ;;;
  s <- when_id "min" attr (fun s =>
         match v with
         | VStr t =>
             minArray <- foldM (limit_step "min") [] (split_on is_semicolon t) ;;;
             mret (set_min (nonempty minArray) s)
         | VTrue => mret s
         end) s ;;;
  s <- when_id "squash" attr (fun s =>
         match v with
         | VTrue => mret (set_squash (Some [true]) s)
         | VStr t =>
             mret (set_squash
                     (nonempty ((fun value => String.eqb value "true")
                                  <$> split_on is_semicolon t)) s)
         end) s ;;;
  s <- when_id "bands" attr (fun s =>
         values <- value_split v ;;; mret (set_bandCombo (Some values) s)) s ;;;
  s <- when_id "palette" attr (fun s =>
         values <- value_split v ;;; mret (set_custom (Some values) s)) s ;;;
  s <- when_id "style" attr (fun s =>
         values <- value_split v ;;; mret (set_custom (Some values) s)) s ;;;
  when_id "count" attr (fun s => mret (set_count (Some (ToNumber v)) s)) s.

Definition defaultSpec : LayerSpec :=
  {| hidden := false; opacity := NumLit 1; count := None; bandCombo := None;
     custom := None; min := None; squash := None; max := None; disabled := None |}.

Definition getLayerSpec (attributes : list attribute) : M LayerSpec :=
  foldM getLayerSpec_attr defaultSpec attributes.

(** *** The catalog and the collaborators of the parsers *)

Section Parsers.
(** The layer definitions of the catalog and the active layers built from
    them. *)
Variables (CatalogLayer ActiveLayer : Type).

Record Config := {
  layers : gmap string CatalogLayer;
  redirects : option (gmap string string)
}.

(** [config.layers] and [config.redirects.layers] are object literals:
    a lookup finds the own properties and, for the names of
    [Object.prototype], the inherited value, a function or, for
    [__proto__], the prototype itself.  Such a value, when it takes the
    place of a layer id, is used as a property key and in messages through
    its text; it is represented by this text, which is the engine's:
    [inherited_text key] is [String(Object.prototype[key])]. *)
Variable inherited_text : string -> string.

(** [addLayer(id, spec, layerArray, config.layers, null, projection)] and
    [resetLayers(config)] of [./selectors], which is outside this source
    tree. *)
Variable addLayer : string -> LayerSpec -> list ActiveLayer -> Config -> list ActiveLayer.
Variable resetLayers : Config -> list ActiveLayer.

(** [config.layers[id]] as a condition: a layer of the catalog, or a
    value inherited from [Object.prototype]; both are truthy. *)
Definition known (config : Config) (id : string) : bool :=
  bool_decide (is_Some (layers config !! id)) || inherited id.

(** [config.redirects.layers[id] || id] when the redirect table exists. *)
Definition redirect (config : Config) (id : string) : string :=
  match redirects config with
  | Some table =>
      match table !! id with
      | Some target => if String.eqb target "" then id else target
      | None => if inherited id then inherited_text id else id
      end
  | None => id
  end.

Definition createLayer_step (config : Config) (layerArray : list ActiveLayer)
    (layerDef : lstate) : M (list ActiveLayer) :=
  if negb (known config (lstate_id layerDef)) then
    emit (Warn ("No such layer: " ++ lstate_id layerDef)) ;;; mret layerArray
  else
    spec <- getLayerSpec (lstate_attributes layerDef) ;;;
    mret (addLayer (lstate_id layerDef) spec layerArray config).

(** [createLayerArrayFromState(layers, config)]; [None] is [undefined]. *)
Definition createLayerArrayFromState (lstates : option (list lstate))
    (config : Config) : M (list ActiveLayer) :=
  match lstates with
  | None => mret []
  | Some l => foldM (createLayer_step config) [] (reverse l)
  end.

Definition is_v1_separator (c : ascii) : bool :=
  Ascii.eqb c "~" || Ascii.eqb c "," || Ascii.eqb c ".".

(** The callback of [lodashEach(ids, ...)] in [layersParse11]. *)
Definition parse11_id (config : Config) (acc : list lstate) (id : string)
    : M (list lstate) :=
  if String.eqb id "baselayers" || String.eqb id "overlays" then mret acc
  else
    let visible := negb (startsWith_bang id) in
    let id := if startsWith_bang id then substring1 id else id in
    let id := redirect config id in
    if negb (known config id) then
      emit (Warn ("No such layer: " ++ id)) ;;; mret acc
    else
      emit (PushEvent id) ;;;
      mret (acc ++ [mkLstate id (if visible then [] else [mkAttr "hidden" VTrue])])%list.

(** Permalink versions 1.0 and 1.1 *)
Definition layersParse11 (str : string) (config : Config) : M (list ActiveLayer) :=
  lstates <- foldM (parse11_id config) [] (split_on is_v1_separator str) ;;;
  createLayerArrayFromState (Some lstates) config.

Definition is_equals (c : ascii) : bool := Ascii.eqb c "=".

(** The callback of [lodashEach(kvps, ...)]. *)
Definition parse12_kvp (kvp : string) : attribute :=
  match split_on is_equals kvp with
  | [p0] => mkAttr p0 VTrue
  | p0 :: p1 :: _ => mkAttr p0 (VStr p1)
  | [] => mkAttr "" VTrue
  end.

(** The callback of [lodashEach(layerDefs, ...)] in [layersParse12]. *)
Definition parse12_layerDef (config : Config) (acc : list lstate)
    (layerDef : string) : M (list lstate) :=
  match match_layerId layerDef with
  | None => throw
  | Some layerId =>
      let layerId := redirect config layerId in
      emit (PushEvent layerId) ;;;
      let attributes :=
        match match_parens layerDef with
        | Some arrayAttr =>
            let strAttr := remove_chars is_paren arrayAttr in
            parse12_kvp <$> split_on is_comma strAttr
        | None => []
        end in
      mret (acc ++ [mkLstate layerId attributes])%list
  end.

(** The [try] block of [layersParse12]. *)
Definition layersParse12_try (str : string) (config : Config) : M (list ActiveLayer) :=
  lstates <- foldM (parse12_layerDef config) []
               (match match_layerDefs str with Some l => l | None => [] end) ;;;
  createLayerArrayFromState (Some lstates) config.

(** Permalink version 1.2: the result and the trace of effects.  The
    text of the caught exception is the engine's and is left out of the
    warning. *)
Definition layersParse12 (str : string) (config : Config)
    : list ActiveLayer * list effect :=
  match layersParse12_try str config with
  | (Ret layerArray, tr) => (layerArray, tr)
  | (TypeError, tr) =>
      (resetLayers config,
       (tr ++ [Warn "Error Parsing layers: TypeError";
               Log "reverting to default layers"])%list)
  end.
End Parsers.

Arguments layers {CatalogLayer} _.
Arguments redirects {CatalogLayer} _.
Arguments known {CatalogLayer} config id.
Arguments redirect {CatalogLayer} inherited_text config id.
Arguments createLayer_step {CatalogLayer ActiveLayer} addLayer config layerArray layerDef.
Arguments createLayerArrayFromState {CatalogLayer ActiveLayer} addLayer lstates config.
Arguments parse11_id {CatalogLayer} inherited_text config acc id.
Arguments layersParse11 {CatalogLayer ActiveLayer} inherited_text addLayer str config.
Arguments parse12_layerDef {CatalogLayer} inherited_text config acc layerDef.
Arguments layersParse12_try {CatalogLayer ActiveLayer} inherited_text addLayer str config.
Arguments layersParse12 {CatalogLayer ActiveLayer} inherited_text addLayer resetLayers str config.

(** *** Notions used to state the properties of the parsers *)

Section ParserNotions.
Context {CatalogLayer : Type}.
Variable inherited_text : string -> string.

Definition is_group_token (token : string) : bool :=
  String.eqb token "baselayers" || String.eqb token "overlays".

(** The id a token of a v1.1 permalink refers to: the token without its
    [!], redirected. *)
Definition v1_token_id (config : Config CatalogLayer) (token : string) : string :=
  redirect inherited_text config
           (if startsWith_bang token then substring1 token else token).

(** The layer ids the tokens of a v1.1 permalink refer to, in order. *)
Definition v1_ids (config : Config CatalogLayer) (tokens : list string) : list string :=
  v1_token_id config <$> List.filter (fun t => negb (is_group_token t)) tokens.

Definition referenced_ids (config : Config CatalogLayer) (str : string) : list string :=
  v1_ids config (split_on is_v1_separator str).

(** An attribute on which [getLayerSpec] raises a [TypeError]: a key
    without a value whose value is split. *)
Definition raising_attribute (a : attribute) : bool :=
  match attr_value_ a with
  | VTrue =>
      existsb (String.eqb (attr_id a)) ["disabled"; "bands"; "palette"; "style"]
  | VStr _ => false
  end.

(** A layer state for which [createLayerArrayFromState] raises: its id is
    found by [config.layers[id]] and an attribute raises. *)
Definition raising_lstate (config : Config CatalogLayer) (l : lstate) : bool :=
  known config (lstate_id l) && existsb raising_attribute (lstate_attributes l).
End ParserNotions.

(** Modelled from the spec: [addLayer] ([web/js/modules/layers/selectors.js]
    is outside this source tree), which "inserts each into the active-layer
    ordering"; here the active layers are the ids with their
    specifications, the newest first.  Used for the examples. *)
Definition insert_layer {CatalogLayer : Type} (id : string) (spec : LayerSpec)
    (layerArray : list (string * LayerSpec)) (config : Config CatalogLayer)
    : list (string * LayerSpec) :=
  (id, spec) :: layerArray.

(** *** Serialization *)

(** A number of an active layer, as far as the serializer observes it:
    its text [`${n}`], and the outcome of the tests [n < 1], [n] as a
    condition, and [n !== 20]. *)
Record number := {
  num_text : string;
  num_lt1 : bool;
  num_truthy : bool;
  num_not20 : bool
}.

Inductive out_value :=
| OUndefined
| ONum (n : number)
| OStr (s : string).

Record out_attribute := mkOut { out_id : string; out_value_ : out_value }.

Record item := { item_id : option string; item_attributes : list out_attribute }.

(** An active layer as [serializeLayers] reads it.  [def_bandCombo] is the
    text [JSON.stringify(def.bandCombo)] when the layer has a band
    combination; the palette and vector-style fields are read as
    conditions only. *)
Record LayerState := {
  def_id : string;
  def_visible : bool;
  def_opacity : option number;
  def_bandCombo : option string;
  def_palette : bool;
  def_vectorStyle : bool;
  def_custom : bool;
  def_min : bool;
  def_max : bool;
  def_squash : bool;
  def_disabled : bool;
  def_granule : bool
}.

(** Modelled from the spec: [util.appendAttributesForURL]
    ([web/js/util/util.js], outside this source tree): a layer token of the
    v1.2 grammar, the id "optionally followed by [(k1=v1,k2=v2,...)];
    boolean keys may omit [=value]".  A value that is falsy is omitted
    with its [=]; [getLayerSpec] notes that an opacity of zero reaches it
    as the bare key. *)
Definition attribute_text (a : out_attribute) : string :=
  match out_value_ a with
  | OUndefined => out_id a
  | ONum n => if num_truthy n then out_id a ++ "=" ++ num_text n else out_id a
  | OStr v => if String.eqb v "" then out_id a else out_id a ++ "=" ++ v
  end.

Definition appendAttributesForURL (it : item) : string :=
  let id := match item_id it with Some i => i | None => "undefined" end in
  match item_attributes it with
  | [] => id
  | attrs => id ++ "(" ++ join "," (attribute_text <$> attrs) ++ ")"
  end.

Section Serialize.
(** [getPaletteAttributeArray(def.id, palettes, state)],
    [getVectorStyleAttributeArray(def)] and the granule count
    [getGranuleLayer(state, def.id).count], all outside this source tree;
    the state is fixed. *)
Variable getPaletteAttributeArray : string -> list out_attribute.
Variable getVectorStyleAttributeArray : LayerState -> list out_attribute.
Variable getGranuleCount : string -> option number.

(** The attribute list [serializeLayers] builds for one layer. *)
Definition serialize_attributes (def : LayerState) : list out_attribute :=
  let attributes := [] in
  let attributes :=
    if def_visible def then attributes
    else (attributes ++ [mkOut "hidden" OUndefined])%list in
  let attributes :=
    match def_opacity def with
    | Some o =>
        if num_lt1 o then (attributes ++ [mkOut "opacity" (ONum o)])%list
        else attributes
    | None => attributes
    end in
  let attributes :=
    match def_bandCombo def with
    | Some json =>
        let bandComboString := replace_char ")" ">" (replace_char "(" "<" json) in
        (attributes ++ [mkOut "bandCombo" (OStr (encodeURIComponent bandComboString))])%list
    | None => attributes
    end in
  if def_palette def
     && (def_custom def || def_min def || def_max def || def_squash def
         || def_disabled def)
  then (attributes ++ getPaletteAttributeArray (def_id def))%list
  else if def_vectorStyle def && (def_custom def || def_min def || def_max def)
  then (attributes ++ getVectorStyleAttributeArray def)%list
  else if def_granule def then
    match getGranuleCount (def_id def) with
    | Some count_ =>
        if num_not20 count_ then (attributes ++ [mkOut "count" (ONum count_)])%list
        else attributes
    | None => attributes
    end
  else attributes.

Definition serializeLayer (def : LayerState) : string :=
  appendAttributesForURL
    {| item_id := if String.eqb (def_id def) "" then None else Some (def_id def);
       item_attributes := serialize_attributes def |}.

(** [serializeLayers(layers, state, groupName)] *)
Definition serializeLayers (layers_ : list LayerState) : list string :=
  serializeLayer <$> layers_.
End Serialize.

(** *** Catalogs and layers of the examples *)

(** Modelled from the spec: [resetLayers] ([web/js/modules/layers/selectors.js]
    is outside this source tree) returns "the catalog's default layer set";
    for the examples the set is one layer, [default_layer]. *)
Definition default_layers {CatalogLayer : Type} (config : Config CatalogLayer)
    : list (string * LayerSpec) :=
  [("default_layer", defaultSpec)].

(** The text V8 gives the values inherited from [Object.prototype]; for
    the examples. *)
Definition v8_text (key : string) : string :=
  if String.eqb key "__proto__" then "[object Object]"
  else "function " ++ (if String.eqb key "constructor" then "Object" else key)
       ++ "() { [native code] }".

(** A catalog with the single layer [id] and no redirects. *)
Definition single_layer_config (id : string) : Config unit :=
  {| layers := {[ id := tt ]}; redirects := None |}.

(** A catalog with the layers [modis_terra] and [viirs]. *)
Definition two_layer_config : Config unit :=
  {| layers := {[ "modis_terra" := tt; "viirs" := tt ]}; redirects := None |}.

Definition double_quote : string := String "034" "".

(** The JSON text of a band combination with the keys [r] and [g]. *)
Definition example_bandCombo_json : string :=
  "{" ++ double_quote ++ "r" ++ double_quote ++ ":"
      ++ double_quote ++ "B04" ++ double_quote ++ ","
      ++ double_quote ++ "g" ++ double_quote ++ ":"
      ++ double_quote ++ "B03" ++ double_quote ++ "}".

Definition number_one : number :=
  {| num_text := "1"; num_lt1 := false; num_truthy := true; num_not20 := true |}.

(** A visible, opaque layer with a band combination and no palette, vector
    style or granule settings. *)
Definition example_bandCombo_layer : LayerState :=
  {| def_id := "HLS_Customizable"; def_visible := true;
     def_opacity := Some number_one;
     def_bandCombo := Some example_bandCombo_json;
     def_palette := false; def_vectorStyle := false; def_custom := false;
     def_min := false; def_max := false; def_squash := false;
     def_disabled := false; def_granule := false |}.

End Codec.

(** ** Notions used to state the round trip of the permalink codec *)

Module CodecNotions.
Import JSString Codec.
Local Open Scope string_scope.

(** The characters with a meaning in a v1.2 layer token, and the line
    terminators, which [.] does not match. *)
Definition is_reserved (c : ascii) : bool :=
  is_paren c || is_comma c || is_equals c || is_line_terminator c.

Definition plain_text (s : string) : bool := negb (contains is_reserved s).

(** The text a serialized attribute carries after its key, if any. *)
Definition out_text (a : out_attribute) : option string :=
  match out_value_ a with
  | OUndefined => None
  | ONum n => if num_truthy n then Some (num_text n) else None
  | OStr v => if String.eqb v "" then None else Some v
  end.

Definition plain_attribute (a : out_attribute) : bool :=
  plain_text (out_id a)
  && match out_text a with Some v => plain_text v | None => true end.

(** The attribute a parser of the v1.2 grammar is to read back. *)
Definition parsed_attribute (a : out_attribute) : attribute :=
  mkAttr (out_id a)
         match out_text a with Some v => VStr v | None => VTrue end.

(** The tokens of a comma-separated list as the scan cuts them: each but
    the last with its comma. *)
Fixpoint with_commas (toks : list string) : list string :=
  match toks with
  | [] => []
  | [t] => [t]
  | t :: toks' => (t ++ ",") :: with_commas toks'
  end.

End CodecNotions.

(** ** [modules/layers/util.js]: overlay groups *)

Module Groups.
Import JSString JSObject Layers.
Local Open Scope string_scope.

(** The fields [getOverlayGroups] reads of an active layer; a layer
    without a layer group has the key [undefined]. *)
Record GroupedLayer := {
  gl_id : string;
  gl_group : string;
  gl_layergroup : string
}.

Record OverlayGroup := {
  groupName : string;
  group_layers : list string;
  collapsed : bool
}.

(** The own properties of [allGroupsMap], in the order of their
    creation. *)
Definition GroupsMap := list (string * list string).

Fixpoint own_property (key : string) (m : GroupsMap) : option (list string) :=
  match m with
  | [] => None
  | (k, v) :: m' => if String.eqb k key then Some v else own_property key m'
  end.

(** [allGroupsMap[key].push(id)] on an own property. *)
Fixpoint push_to (key id : string) (m : GroupsMap) : GroupsMap :=
  match m with
  | [] => []
  | (k, v) :: m' =>
      if String.eqb k key then (k, v ++ [id])%list :: m'
      else (k, v) :: push_to key id m'
  end.

(** The callback of [layers.forEach]. *)
Definition collect_layer (allGroupsMap : GroupsMap) (layer : GroupedLayer)
    : outcome GroupsMap :=
  if negb (String.eqb (gl_group layer) "overlays") then Ret allGroupsMap
  else
    match own_property (gl_layergroup layer) allGroupsMap with
    | Some _ => Ret (push_to (gl_layergroup layer) (gl_id layer) allGroupsMap)
    | None =>
        if inherited (gl_layergroup layer) then TypeError
        else Ret (allGroupsMap ++ [(gl_layergroup layer, [gl_id layer])])%list
    end.

Fixpoint collect_layers (allGroupsMap : GroupsMap) (layers : list GroupedLayer)
    : outcome GroupsMap :=
  match layers with
  | [] => Ret allGroupsMap
  | layer :: layers' =>
      m <-! collect_layer allGroupsMap layer ;;
      collect_layers m layers'
  end.

(** A property key that is an array index: the canonical decimal text of
    an integer below 2^32 - 1. *)
Fixpoint digits_value (s : string) (acc : N) : option N :=
  match s with
  | "" => Some acc
  | String c s' =>
      if is_digit c
      then digits_value s' (10 * acc + (N.of_nat (nat_of_ascii c) - 48))%N
      else None
  end.

Definition array_index (key : string) : option N :=
  match key with
  | "" => None
  | String c rest =>
      if Ascii.eqb c "0" && negb (String.eqb rest "") then None
      else
        match digits_value key 0 with
        | Some n => if (n <? 4294967295)%N then Some n else None
        | None => None
        end
  end.

Definition index_of (key : string) : Z :=
  match array_index key with
  | Some n => Z.of_N n
  | None => 0
  end.

(** [Object.keys]: the array indices in ascending order, then the other
    keys in the order of their creation. *)
Definition object_keys (m : GroupsMap) : list string :=
  let keys := fst <$> m in
  (array_sort (fun a b => index_of a - index_of b)
     (List.filter (fun k => bool_decide (is_Some (array_index k))) keys)
   ++ List.filter (fun k => negb (bool_decide (is_Some (array_index k)))) keys)%list.

(** [prevGroups.find((g) => g.groupName === groupName)] *)
Definition find_group (name : string) (prevGroups : list OverlayGroup)
    : option OverlayGroup :=
  List.find (fun g => String.eqb (groupName g) name) prevGroups.

Definition getOverlayGroups (layers : list GroupedLayer)
    (prevGroups : list OverlayGroup) : outcome (list OverlayGroup) :=
  allGroupsMap <-! collect_layers [] layers ;;
  Ret ((fun name =>
          {| groupName := name;
             group_layers :=
               match own_property name allGroupsMap with
               | Some ids => ids
               | None => []
               end;
             collapsed :=
               match find_group name prevGroups with
               | Some prevGroup => collapsed prevGroup
               | None => false
               end |}) <$> object_keys allGroupsMap).

(** The ids of the overlays of a layer group, in the order of the
    layers. *)
Definition overlay_ids (name : string) (layers : list GroupedLayer) : list string :=
  gl_id <$> List.filter
              (fun l => String.eqb (gl_group l) "overlays"
                        && String.eqb (gl_layergroup l) name) layers.

Definition overlay_groups (layers : list GroupedLayer) : list string :=
  gl_layergroup <$> List.filter (fun l => String.eqb (gl_group l) "overlays") layers.

(** What [allGroupsMap] holds after the layers [done]. *)
Definition groups_of (done : list GroupedLayer) (m : GroupsMap) : Prop :=
  NoDup (fst <$> m)
  /\ (forall k, own_property k m
                = match overlay_ids k done with [] => None | ids => Some ids end)
  /\ (forall k, k ∈ fst <$> m <-> k ∈ overlay_groups done).

End Groups.

(** ** [modules/layers/util.js]: dates next to a requested date *)

Module Nearest.
Import ESDate Util Layers.

(** The result of [prevDateInDateRange]: the date it was given, or an
    object with the previous and the next date. *)
Inductive PrevDate :=
| SameDate (date : Z)
| PrevNext (previous : Z) (next : option Z).

(** [arr[i]] for an index that is an integer or [undefined]. *)
Definition at_index {A} (arr : list A) (i : option Z) : option A :=
  match i with
  | Some i => if 0 <=? i then arr !! Z.to_nat i else None
  | None => None
  end.

Section Host.
Variable tzo : Z.

Definition getHours (t : Z) : Z := HourFromTime (LocalTime tzo t).
Definition getMinutes (t : Z) : Z := MinFromTime (LocalTime tzo t).

(** [nearestInterval(def, date)]; without a first date range the interval
    is [NaN] and the result an Invalid Date, [None] here. *)
Definition nearestInterval (def : LayerDef) (date : Z) : option Z :=
  match dateRanges def with
  | Some (dateRange0 :: _) =>
      let interval := Z.pos (dateInterval dateRange0) in
      let remainder := getMinutes date mod interval in
      let newMinutes := getMinutes date - remainder in
      Some (newDate tzo (getFullYear tzo date) (getMonth tzo date) (getDate tzo date)
                    (getHours date) newMinutes 0)
  | _ => None
  end.

(** [util.closestToIndex] of [web/js/util/util.js], which is outside this
    source tree: an index into the array it is given, or [undefined]. *)
Variable closestToIndex : list Z -> Z -> option Z.

Definition prevDateInDateRange (def : LayerDef) (date : Z)
    (dateArray : option (list Z)) : PrevDate :=
  let currentDateValue := date in
  let currentDateOffsetCheck := getTimezoneOffsetDate tzo date in
  let isFirstDayOfMonth := getDate tzo currentDateOffsetCheck =? 1 in
  let isFirstDayOfYear := getMonth tzo currentDateOffsetCheck =? 0 in
  let isMonthPeriod := bool_decide (period def = monthly) in
  let isYearPeriod := bool_decide (period def = yearly) in
  match dateArray with
  | None => SameDate date
  | Some dateArray =>
      if (isMonthPeriod && isFirstDayOfMonth)
         || (isYearPeriod && isFirstDayOfMonth && isFirstDayOfYear)
      then SameDate date
      else
        let closestAvailableDates :=
          List.filter
            (fun rangeDate =>
               let isRangeDateBefore := rangeDate <? currentDateValue in
               let isRangeDateEqual := rangeDate =? currentDateValue in
               isRangeDateBefore || isRangeDateEqual) dateArray in
        let closestDateIndex := closestToIndex closestAvailableDates currentDateValue in
        let closestDate := at_index closestAvailableDates closestDateIndex in
        let next := at_index dateArray ((fun i => i + 1) <$> closestDateIndex) in
        let previous :=
          match closestDate with
          | Some closestDate => closestDate
          | None => date
          end in
        PrevNext previous next
  end.
End Host.
End Nearest.

(** ** [modules/layers/util.js]: vector layers *)

Module Vector.
Local Open Scope string_scope.

Section Numbers.
(** Map resolutions are floating-point numbers; of their arithmetic the
    code uses a number as a condition, halving and [<]. *)
Variable Num : Type.
Variable truthy : Num -> bool.
Variable half : Num -> Num.
Variable less : Num -> Num -> bool.

(** The fields read of an active layer; [vl_breakPoint projId] is
    [breakPointLayer.projections[projId].resolutionBreakPoint], [None]
    when the path does not exist. *)
Record VectorLayer := {
  vl_type : string;
  vl_visible : bool;
  vl_breakPoint : string -> option Num
}.

(** The loop of [hasVectorLayers] from the layer it has reached. *)
Fixpoint hasVectorLayers_loop (hasVectorTypeLayer : bool)
    (activeLayers : list VectorLayer) : bool :=
  match activeLayers with
  | [] => hasVectorTypeLayer
  | def :: rest =>
      if String.eqb (vl_type def) "vector" && vl_visible def then true
      else hasVectorLayers_loop hasVectorTypeLayer rest
  end.

Definition hasVectorLayers (activeLayers : list VectorLayer) : bool :=
  hasVectorLayers_loop false activeLayers.

Definition isVectorLayerClickable (layer : VectorLayer) (mapRes : Num)
    (projId : string) (isMobile : bool) : bool :=
  if negb (truthy mapRes) then false
  else
    match vl_breakPoint layer projId with
    | Some resolutionBreakPoint =>
        if truthy resolutionBreakPoint then
          let resolutionBreakPoint :=
            if isMobile then half resolutionBreakPoint else resolutionBreakPoint in
          less mapRes resolutionBreakPoint
        else true
    | None => true
    end.

Fixpoint hasNonClickableVectorLayer_loop (isNonClickableVectorLayer : bool)
    (activeLayers : list VectorLayer) (mapRes : Num) (projId : string)
    (isMobile : bool) : bool :=
  match activeLayers with
  | [] => isNonClickableVectorLayer
  | def :: rest =>
      if String.eqb (vl_type def) "vector" && vl_visible def then
        let isNonClickableVectorLayer :=
          negb (isVectorLayerClickable def mapRes projId isMobile) in
        if isNonClickableVectorLayer then isNonClickableVectorLayer
        else hasNonClickableVectorLayer_loop isNonClickableVectorLayer rest
                                             mapRes projId isMobile
      else hasNonClickableVectorLayer_loop isNonClickableVectorLayer rest
                                           mapRes projId isMobile
  end.

Definition hasNonClickableVectorLayer (activeLayers : list VectorLayer)
    (mapRes : Num) (projId : string) (isMobile : bool) : bool :=
  if negb (truthy mapRes) then false
  else hasNonClickableVectorLayer_loop false activeLayers mapRes projId isMobile.
End Numbers.

Arguments vl_type {Num} _.
Arguments vl_visible {Num} _.
Arguments vl_breakPoint {Num} _ _.
Arguments hasVectorLayers_loop {Num} _ _.
Arguments hasVectorLayers {Num} _.
End Vector.

(** * Properties *)

(** ** Calendar arithmetic *)

Section CalendarFacts.
Import ESDate.

Lemma DayFromYear_step y :
365 <= DayFromYear (y + 1) - DayFromYear y <= 366.
Proof. unfold DayFromYear. Z.div_mod_to_equations. lia. Qed.

Lemma DayFromYear_mono y1 y2 : y1 <= y2 -> DayFromYear y1 <= DayFromYear y2.
Proof.
intros H. replace y2 with (y1 + Z.of_nat (Z.to_nat (y2 - y1))) by lia.
induction (Z.to_nat (y2 - y1)) as [|n IH].
- replace (y1 + Z.of_nat 0) with y1 by lia. lia.
- pose proof (DayFromYear_step (y1 + Z.of_nat n)).
  replace (y1 + Z.of_nat (S n)) with (y1 + Z.of_nat n + 1) by lia. lia.
Qed.

Lemma YearFromDay_spec d :
DayFromYear (YearFromDay d) <= d < DayFromYear (YearFromDay d + 1).
Proof.
unfold YearFromDay.
set (y0 := 1970 + (400 * d) / 146097).
destruct (Z.leb_spec (DayFromYear (y0 + 1)) d).
- split; [lia|]. subst y0. unfold DayFromYear in *.
  Z.div_mod_to_equations. lia.
- destruct (Z.leb_spec (DayFromYear y0) d); [lia|].
  replace (y0 - 1 + 1) with y0 by lia. split; [|lia].
  subst y0. unfold DayFromYear in *. Z.div_mod_to_equations. lia.
Qed.

Lemma YearFromDay_unique d y :
DayFromYear y <= d < DayFromYear (y + 1) -> YearFromDay d = y.
Proof.
intros [Hlo Hhi]. pose proof (YearFromDay_spec d) as [Hlo' Hhi'].
destruct (Z.lt_trichotomy (YearFromDay d) y) as [Hlt|[Heq|Hgt]]; [|done|].
- pose proof (DayFromYear_mono (YearFromDay d + 1) y). lia.
- pose proof (DayFromYear_mono (y + 1) (YearFromDay d)). lia.
Qed.

Lemma YearFromDay_lower d y : DayFromYear y <= d -> y <= YearFromDay d.
Proof.
intros Hlo. pose proof (YearFromDay_spec d) as [_ Hhi].
destruct (Z.le_gt_cases y (YearFromDay d)) as [|Hgt]; [done|].
pose proof (DayFromYear_mono (YearFromDay d + 1) y). lia.
Qed.

Lemma DaysBeforeMonth_nonneg leap m : 0 <= DaysBeforeMonth leap m.
Proof.
unfold DaysBeforeMonth.
repeat match goal with |- context [if ?b then _ else _] => destruct b end; lia.
Qed.

Lemma DayWithinYear_nonneg t : 0 <= DayWithinYear t.
Proof.
unfold DayWithinYear, YearFromTime.
pose proof (YearFromDay_spec (Day t)). lia.
Qed.

Lemma DateFromTime_pos t : 1 <= DateFromTime t.
Proof.
unfold DateFromTime, MonthFromTime.
pose proof (DayWithinYear_nonneg t) as Hd.
generalize dependent (DayWithinYear t). intros d Hd.
generalize (InLeapYear (YearFromTime t)). intros leap.
unfold MonthFromDayWithinYear.
repeat match goal with
       | |- context [if ?a <? ?b then _ else _] => destruct (Z.ltb_spec a b)
       end;
  destruct leap; cbn in *; lia.
Qed.

Lemma MonthFromTime_range t : 0 <= MonthFromTime t <= 11.
Proof.
unfold MonthFromTime, MonthFromDayWithinYear.
repeat match goal with |- context [if ?b then _ else _] => destruct b end; lia.
Qed.

Lemma Day_toISOStringSeconds t : Day (Util.toISOStringSeconds t) = Day t.
Proof.
unfold Day, Util.toISOStringSeconds, msPerDay, msPerSecond.
Z.div_mod_to_equations. lia.
Qed.

Lemma toISOStringSeconds_idem t :
Util.toISOStringSeconds (Util.toISOStringSeconds t) = Util.toISOStringSeconds t.
Proof.
unfold Util.toISOStringSeconds, msPerSecond. Z.div_mod_to_equations. lia.
Qed.

Lemma YearFromTime_toISOStringSeconds t :
YearFromTime (Util.toISOStringSeconds t) = YearFromTime t.
Proof. unfold YearFromTime. by rewrite Day_toISOStringSeconds. Qed.

(** Setting the year keeps the month and the day of the month, so the new
  date lies in the requested year or, for the carry of 29 February,
  after its first day. *)
Lemma YearFromTime_setUTCFullYear_lower t y :
y <= YearFromTime (setUTCFullYear t y).
Proof.
unfold YearFromTime. apply YearFromDay_lower.
unfold setUTCFullYear, MakeDate, MakeDay, Day, TimeWithinDay.
pose proof (MonthFromTime_range t) as Hm.
pose proof (DateFromTime_pos t) as Hd.
rewrite (Z.div_small (MonthFromTime t) 12) by lia.
rewrite (Z.mod_small (MonthFromTime t) 12) by lia.
rewrite Z.add_0_r.
pose proof (DaysBeforeMonth_nonneg (InLeapYear y) (MonthFromTime t)).
generalize dependent (DaysBeforeMonth (InLeapYear y) (MonthFromTime t)).
generalize dependent (DateFromTime t). generalize (DayFromYear y).
intros. unfold msPerDay. Z.div_mod_to_equations. lia.
Qed.

End CalendarFacts.

(** ** The date-range resolver *)

Section ResolverFacts.
Import ESDate Util Layers.

Lemma getTimezoneOffsetDate_newDate3 tzo y m d :
  getTimezoneOffsetDate tzo (newDate3 tzo y m d)
  = DateUTC (MakeFullYear y) m d 0 0 0.
Proof.
  unfold getTimezoneOffsetDate, newDate3, newDate, UTC, DateUTC. lia.
Qed.

Lemma newDate3_local tzo y m d :
  newDate3 tzo y m d = DateUTC (MakeFullYear y) m d 0 0 0 + tzo * msPerMinute.
Proof. reflexivity. Qed.

(** Evaluation of the calendar dates that occur closed in a goal. *)
Ltac compute_dates :=
  repeat match goal with
         | |- context [DateUTC ?a ?b ?c ?d ?e ?f] =>
             let v := eval vm_compute in (DateUTC a b c d e f) in
             change (DateUTC a b c d e f) with v
         | |- context [ymd ?a ?b ?c] =>
             let v := eval vm_compute in (ymd a b c) in
             change (ymd a b c) with v
         end;
  change msPerMinute with 60000.

(** Without limits, a layer with one date range of interval one is
    resolved by [getLimitedDateRange] as soon as the requested date is not
    before the start of the range. *)
Lemma datesInDateRanges_limited tzo def r date appNow :
  dateRanges def = Some [r] ->
  dateInterval r = 1%positive ->
  startDate r <= date ->
  datesInDateRanges tzo def date None None appNow
  = getLimitedDateRange tzo (period def) r date.
Proof.
  intros Hr Hk Hle. unfold datesInDateRanges. rewrite Hr. cbn.
  unfold eachDateRange. cbn.
  destruct (Z.ltb_spec date (startDate r)); [lia|]. cbn.
  rewrite andb_false_r.
  unfold resolve_range, singleDateRangeAndInterval. cbn. rewrite Hk. cbn.
  by destruct (getLimitedDateRange tzo (period def) r date).
Qed.

Lemma getLimitedDateRange_in_range tzo p r date bmax b c a :
  getBreakMaxDate tzo p (endDate r) = Some bmax ->
  limited_candidates tzo p r date
  = {| dayBeforeCurrent := Some b; currentDateZeroed := Some c;
       dayAfterCurrent := Some a |} ->
  startDate r <= date <= bmax ->
  getLimitedDateRange tzo p r date
  = Ret ((if startDate r <=? b then [getTimezoneOffsetDate tzo b] else [])
         ++ [getTimezoneOffsetDate tzo c]
         ++ (if a <=? bmax then [getTimezoneOffsetDate tzo a] else [])).
Proof.
  intros Hmax Hc [Hlo Hhi]. unfold getLimitedDateRange. rewrite Hmax.
  cbn [getTime obind].
  destruct (Z.leb_spec (startDate r) date); [|lia].
  destruct (Z.leb_spec date bmax); [|lia]. cbn [andb].
  unfold limited_candidates in Hc. rewrite Hc.
  unfold getPrevCurrentNextDates.
  cbn [getTime obind dayBeforeCurrent currentDateZeroed dayAfterCurrent].
  destruct (a <=? bmax); by rewrite <- ?app_assoc, ?app_nil_r.
Qed.

(** For the yearly, monthly and daily periods the end of the interval and
    the three candidates are defined. *)
Lemma limited_mode_defined tzo p r date :
  p <> subdaily ->
  exists bmax b c a,
    getBreakMaxDate tzo p (endDate r) = Some bmax
    /\ limited_candidates tzo p r date
       = {| dayBeforeCurrent := Some b; currentDateZeroed := Some c;
            dayAfterCurrent := Some a |}.
Proof.
  intros Hp. destruct p; [| | |done];
    unfold getBreakMaxDate, limited_candidates, addSubDatesBasedOnPeriod;
    eauto 10.
Qed.

(** C2. A monthly layer with the single date range 2020-01-01 ..
    2020-06-01 of interval 1, asked for 2020-03-15 without limits, resolves
    to exactly 2020-02-01, 2020-03-01 and 2020-04-01, whatever the fixed
    offset of the host's time zone. *)
Theorem monthly_limited_example tzo def appNow :
  -840 <= tzo <= 720 ->
  period def = monthly ->
  dateRanges def = Some [mkRange (ymd 2020 1 1) (ymd 2020 6 1) 1] ->
  datesInDateRanges tzo def (ymd 2020 3 15) None None appNow
  = Ret [ymd 2020 2 1; ymd 2020 3 1; ymd 2020 4 1].
Proof.
  intros Htz Hp Hr.
  rewrite (datesInDateRanges_limited _ _ _ _ _ Hr eq_refl)
    by (vm_compute; discriminate).
  rewrite Hp.
  erewrite getLimitedDateRange_in_range; [| reflexivity | reflexivity |].
  - rewrite !getTimezoneOffsetDate_newDate3. cbn [startDate endDate].
    rewrite !newDate3_local. compute_dates.
    destruct (Z.leb_spec 1577836800000 (1580515200000 + tzo * 60000)); [|lia].
    destruct (Z.leb_spec (1585699200000 + tzo * 60000)
                         (1593561600000 + tzo * 60000)); [|lia].
    reflexivity.
  - cbn [startDate]. rewrite newDate3_local. compute_dates. lia.
Qed.

Lemma monthly_limited_example_witness :
  datesInDateRanges 300
    (plain_layer monthly [mkRange (ymd 2020 1 1) (ymd 2020 6 1) 1])
    (ymd 2020 3 15) None None 0
  = Ret [ymd 2020 2 1; ymd 2020 3 1; ymd 2020 4 1].
Proof.
  apply (monthly_limited_example 300
           (plain_layer monthly [mkRange (ymd 2020 1 1) (ymd 2020 6 1) 1]) 0).
  - lia.
  - reflexivity.
  - reflexivity.
Defined.


(** The [Date] constructor keeps a year from 100 on. *)
Lemma MakeFullYear_late y : 100 <= y -> MakeFullYear y = y.
Proof.
  intros Hy. unfold MakeFullYear.
  destruct (Z.leb_spec 0 y), (Z.leb_spec y 99); cbn [andb]; lia.
Qed.

(** [getBreakMaxDate] builds the local midnight of the calendar date of
    the end of the range, one unit of the period later. *)
Lemma getBreakMaxDate_explicit tzo p t :
  p <> subdaily ->
  100 <= YearFromTime t ->
  getBreakMaxDate tzo p t
  = Some (local_midnight tzo (advance_unit p 1 (calendar_of t))).
Proof.
  intros Hp Hy.
  destruct p; [| | |done];
    unfold getBreakMaxDate, local_midnight, calendar_of, advance_unit, midnight;
    cbn [getUTCNumbers Year Month Day_];
    rewrite newDate3_local, MakeFullYear_late by lia; reflexivity.
Qed.

(** [addSubDatesBasedOnPeriod] builds the local midnights of the requested
    date zeroed to the period and of the dates one unit before and after
    it. *)
Lemma limited_candidates_explicit tzo p r date :
  p <> subdaily ->
  100 < YearFromTime date ->
  let current := zeroed_to_period p date (startDate r) in
  limited_candidates tzo p r date
  = {| dayBeforeCurrent := Some (local_midnight tzo (advance_unit p (-1) current));
       currentDateZeroed := Some (local_midnight tzo current);
       dayAfterCurrent := Some (local_midnight tzo (advance_unit p 1 current)) |}.
Proof.
  intros Hp Hy.
  destruct p; [| | |done];
    unfold limited_candidates, addSubDatesBasedOnPeriod, local_midnight,
      zeroed_to_period, calendar_of, advance_unit, midnight;
    cbn [getUTCNumbers Year Month Day_];
    rewrite !newDate3_local, !MakeFullYear_late by lia;
    rewrite ?Z.add_opp_r; reflexivity.
Qed.

Lemma getTimezoneOffsetDate_local_midnight tzo c :
  getTimezoneOffsetDate tzo (local_midnight tzo c) = midnight c.
Proof. unfold getTimezoneOffsetDate, local_midnight. lia. Qed.





Example limited_mode_current_after_endDate :
  datesInDateRanges 0
    (plain_layer monthly [mkRange (ymd 2020 1 1) (ymd 2020 6 1) 1])
    (ymd 2020 7 1) None None 0
  = Ret [ymd 2020 6 1; ymd 2020 7 1]
  /\ ymd 2020 6 1 < ymd 2020 7 1.
Proof. split; reflexivity. Qed.

End ResolverFacts.

(** ** Order of the resolved dates *)

Section OrderingFacts.
Import ESDate Util Layers.

Lemma lastDateInOrder_loop_found t j arr :
  lastDateInOrder_loop t j arr true = arr.
Proof. induction j; [done|]. cbn. done. Qed.

(** [getDateArrayLastDateInOrder] pops the dates that are not before the
    new one and, when an earlier date remains, pushes the new date after
    it. *)
Lemma lastDateInOrder_loop_pops t pre x later :
  x < t ->
  Forall (fun y => t <= y) later ->
  lastDateInOrder_loop t (length (pre ++ x :: later)) (pre ++ x :: later) false
  = pre ++ [x; t].
Proof.
  intros Hx. induction later as [|y later IH] using rev_ind; intros Hl.
  - rewrite length_app, Nat.add_comm. cbn.
    rewrite list_lookup_middle by done.
    destruct (Z.leb_spec t x); [lia|].
    rewrite lastDateInOrder_loop_found. by rewrite <- app_assoc.
  - apply Forall_app in Hl as [Hl Hy]. inversion_clear Hy as [|? ? Hy' _].
    replace (pre ++ x :: later ++ [y]) with ((pre ++ x :: later) ++ [y])
      by (by rewrite <- app_assoc).
    rewrite length_app, Nat.add_comm. cbn.
    rewrite list_lookup_middle by done.
    destruct (Z.leb_spec t y); [|lia].
    rewrite removelast_last. by apply IH.
Qed.

(** The builders push the stepped date again after that: with limits
    supplied, a date stepped into the dates of an earlier, overlapping
    range ends up twice in the array. *)
Lemma push_stepped_pushes_twice maxUnit maxEndDateTime t pre x later y :
  t < maxEndDateTime ->
  x < t ->
  Forall (fun y => t <= y) later ->
  last later = Some y ->
  t < y ->
  push_stepped true None maxUnit maxEndDateTime t (pre ++ x :: later)
  = pre ++ [x; t; t].
Proof.
  intros Hmax Hx Hl Hy Hty. unfold push_stepped.
  destruct (Z.ltb_spec t maxEndDateTime); [|lia].
  rewrite length_app. cbn [length].
  destruct (Z.ltb_spec 0 (Z.of_nat (length pre + S (length later)))); [|lia].
  unfold getDateArrayLastDateInOrder, last_date.
  assert (last (pre ++ x :: later) = Some y) as ->.
  { by rewrite last_app, last_cons, Hy. }
  destruct (Z.ltb_spec t y); [|lia].
  rewrite lastDateInOrder_loop_pops by done.
  by rewrite <- app_assoc.
Qed.

(** C1 (defect of the code). For a daily layer with the overlapping date
    ranges 2020-01-01 .. 2020-01-03 and 2020-01-02 .. 2020-01-04, asked for
    2020-01-02, the resolved dates hold 2020-01-02 twice when the limits
    2020-01-01 and 2020-01-31 are supplied, and go back from 2020-01-03 to
    2020-01-02 when no limits are supplied: in neither mode is the sequence
    strictly ascending. *)
Theorem overlapping_ranges_not_ascending :
  let def :=
    plain_layer daily [mkRange (ymd 2020 1 1) (ymd 2020 1 3) 1;
                       mkRange (ymd 2020 1 2) (ymd 2020 1 4) 1] in
  datesInDateRanges 0 def (ymd 2020 1 2) (Some (ymd 2020 1 1)) (Some (ymd 2020 1 31)) 0
  = Ret [ymd 2020 1 1; ymd 2020 1 2; ymd 2020 1 2; ymd 2020 1 3; ymd 2020 1 4]
  /\ datesInDateRanges 0 def (ymd 2020 1 2) None None 0
     = Ret [ymd 2020 1 1; ymd 2020 1 2; ymd 2020 1 3;
            ymd 2020 1 2; ymd 2020 1 3; ymd 2020 1 4].
Proof. split; vm_compute; reflexivity. Qed.

End OrderingFacts.

(** ** Overlap detection *)

Section OverlapFacts.
Import ESDate Util Layers.

Lemma compareStartDate_pos x y :
  (0 <? compareStartDate x y) = (startDate y <? startDate x).
Proof.
  unfold compareStartDate, parseDate.
  destruct (Z.ltb_spec (startDate x) (startDate y)),
           (Z.eqb_spec (startDate x) (startDate y)),
           (Z.ltb_spec (startDate y) (startDate x)); cbn; lia.
Qed.

Lemma sort_insert_perm x l :
  Permutation (sort_insert compareStartDate x l) (x :: l).
Proof.
  induction l as [|y l IH]; cbn; [done|].
  destruct (0 <? compareStartDate x y); [|done].
  rewrite IH. apply perm_swap.
Qed.

Lemma array_sort_perm l : Permutation (array_sort compareStartDate l) l.
Proof.
  induction l as [|x l IH]; cbn; [done|].
  by rewrite sort_insert_perm, IH.
Qed.

Lemma sort_insert_sorted x l :
  StronglySorted start_le l ->
  StronglySorted start_le (sort_insert compareStartDate x l).
Proof.
  induction 1 as [|y l Hs IH Hy]; cbn.
  - repeat constructor.
  - rewrite compareStartDate_pos.
    destruct (Z.ltb_spec (startDate y) (startDate x)) as [Hlt|Hge].
    + constructor; [done|].
      eapply Permutation_Forall; [symmetry; apply sort_insert_perm|].
      constructor; [unfold start_le; lia | done].
    + constructor; [by constructor|].
      constructor; [done|].
      eapply Forall_impl; [apply Hy|]. unfold start_le. cbn. lia.
Qed.

Lemma array_sort_sorted l :
  StronglySorted start_le (array_sort compareStartDate l).
Proof.
  induction l as [|x l IH]; cbn; [constructor|]. by apply sort_insert_sorted.
Qed.

Lemma array_sort_fixed l :
  StronglySorted start_le l -> array_sort compareStartDate l = l.
Proof.
  induction 1 as [|x l Hs IH Hx]; cbn; [done|]. rewrite IH.
  destruct l as [|y l]; cbn; [done|].
  rewrite compareStartDate_pos. inversion_clear Hx as [|? ? Hxy _].
  unfold start_le in Hxy. destruct (Z.ltb_spec (startDate y) (startDate x)); [lia|done].
Qed.

(** Stability: ranges with the same start keep their relative order. *)
Lemma sort_insert_stable k x l :
  List.filter (fun r => startDate r =? k) (sort_insert compareStartDate x l)
  = List.filter (fun r => startDate r =? k) (x :: l).
Proof.
  induction l as [|y l IH]; [done|]. cbn [sort_insert].
  rewrite compareStartDate_pos.
  destruct (Z.ltb_spec (startDate y) (startDate x)) as [Hlt|Hge]; [|done].
  cbn [List.filter] in *. rewrite IH.
  destruct (Z.eqb_spec (startDate x) k), (Z.eqb_spec (startDate y) k); try done. lia.
Qed.

Lemma array_sort_stable k l :
  List.filter (fun r => startDate r =? k) (array_sort compareStartDate l)
  = List.filter (fun r => startDate r =? k) l.
Proof.
  induction l as [|x l IH]; [done|]. cbn [array_sort].
  rewrite sort_insert_stable. cbn [List.filter]. by rewrite IH.
Qed.

(** The end the code compares with the next start. *)
Lemma previousEndTime_effective tzo p r :
  previousEndTime tzo p r
  = match p with subdaily => endDate r | _ => effective_end tzo p r end.
Proof.
  unfold previousEndTime, effective_end, advance_by_period_units, parseDate, msPerDay.
  destruct p.
  - by rewrite bool_decide_eq_false_2, andb_false_r.
  - by rewrite bool_decide_eq_false_2, andb_false_r.
  - rewrite bool_decide_eq_true_2, andb_true_r by done.
    destruct (Z.ltb_spec 1 (Z.pos (dateInterval r))); lia.
  - by rewrite bool_decide_eq_false_2, andb_false_r.
Qed.

Lemma overlap_reduce_filter tzo p arr : forall result previous,
  overlap_reduce tzo p result previous arr
  = let found := List.filter (period_flag tzo p) (visited_pairs previous arr) in
    {| overlap := overlap result || negb (bool_decide (found = []));
       ranges := ranges result ++ found |}.
Proof.
  induction arr as [|current arr IH]; intros result previous.
  - destruct result, previous; cbn; by rewrite ?orb_false_r, ?app_nil_r.
  - cbn [overlap_reduce]. rewrite IH. clear IH.
    destruct previous as [previous|]; cbn [overlap_step visited_pairs].
    + unfold adjacent_pairs. cbn [tail zip zip_with List.filter].
      rewrite previousEndTime_effective.
      assert (period_flag tzo p (previous, current)
              = (startDate current
                 <=? match p with subdaily => endDate previous
                                | _ => effective_end tzo p previous end)) as ->.
      { by destruct p. }
      unfold parseDate.
      destruct (_ <=? _); cbn.
      * rewrite <- app_assoc. f_equal. by rewrite orb_true_r.
      * done.
    + unfold adjacent_pairs. cbn. destruct arr; cbn; done.
Qed.

(** C5, as stated, fails for the subdaily period: the end of the prior
    range is compared as declared, not extended by [dateInterval - 1]
    minutes.  The ranges 00:00 .. 01:00 and 01:10 .. 02:00 of interval 30
    overlap by the stated test and are not reported. *)
Lemma subdaily_overlap_not_extended :
  let rs := [mkRange (DateUTC 2020 0 1 0 0 0) (DateUTC 2020 0 1 1 0 0) 30;
             mkRange (DateUTC 2020 0 1 1 10 0) (DateUTC 2020 0 1 2 0 0) 30] in
  existsb (overlap_flagged 0 subdaily)
          (adjacent_pairs (array_sort compareStartDate rs)) = true
  /\ overlap (fst (dateOverlap 0 subdaily rs)) = false.
Proof. split; reflexivity. Qed.

(** C5, amended. [dateOverlap] sorts the ranges by start date ascending,
    keeping the order of ranges with equal starts, and returns every pair
    of neighbours of the sorted list, in order, for which the start of the
    second is not after the end of the first extended by
    [dateInterval - 1] days, months or years for the daily, monthly and
    yearly periods, and not after the end of the first as declared for the
    subdaily period; [overlap] tells whether there is such a pair.  For the
    daily ranges 2020-01-01 .. 2020-01-10 and 2020-01-05 .. 2020-01-20 it
    reports the overlap of the two. *)
Theorem dateOverlap_adjacent_pairs tzo p dateRanges :
  let sortedRanges := array_sort compareStartDate dateRanges in
  let result := fst (dateOverlap tzo p dateRanges) in
  Permutation sortedRanges dateRanges
  /\ StronglySorted start_le sortedRanges
  /\ (forall k, List.filter (fun r => startDate r =? k) sortedRanges
                = List.filter (fun r => startDate r =? k) dateRanges)
  /\ ranges result = List.filter (period_flag tzo p) (adjacent_pairs sortedRanges)
  /\ overlap result = negb (bool_decide (ranges result = []))
  /\ fst (dateOverlap tzo daily
             [mkRange (ymd 2020 1 1) (ymd 2020 1 10) 1;
              mkRange (ymd 2020 1 5) (ymd 2020 1 20) 1])
     = {| overlap := true;
          ranges := [(mkRange (ymd 2020 1 1) (ymd 2020 1 10) 1,
                      mkRange (ymd 2020 1 5) (ymd 2020 1 20) 1)] |}.
Proof.
  cbn zeta. unfold dateOverlap. cbn [fst].
  rewrite overlap_reduce_filter. cbn [overlap ranges visited_pairs app orb].
  split; [apply array_sort_perm|].
  split; [apply array_sort_sorted|].
  split; [intros k; apply array_sort_stable|].
  split; [done|]. split; [done|].
  reflexivity.
Qed.

(** C9, as stated, fails: the array is sorted in place, so a caller's list
    that is not in ascending order of the starts is reordered. *)
Lemma dateOverlap_reorders_input :
  snd (dateOverlap 0 daily
         [mkRange (ymd 2020 1 5) (ymd 2020 1 20) 1;
          mkRange (ymd 2020 1 1) (ymd 2020 1 10) 1])
  <> [mkRange (ymd 2020 1 5) (ymd 2020 1 20) 1;
      mkRange (ymd 2020 1 1) (ymd 2020 1 10) 1].
Proof. vm_compute. discriminate. Qed.

(** C9, amended. After [dateOverlap] the caller's list holds the same
    ranges, each with its start, end and interval unchanged, in ascending
    order of the starts, ranges with equal starts in their former order; the
    list is left as it was exactly when it was already in ascending
    order. *)
Theorem dateOverlap_sorts_input tzo p dateRanges :
  let after := snd (dateOverlap tzo p dateRanges) in
  Permutation after dateRanges
  /\ StronglySorted start_le after
  /\ (forall k, List.filter (fun r => startDate r =? k) after
                = List.filter (fun r => startDate r =? k) dateRanges)
  /\ (after = dateRanges <-> StronglySorted start_le dateRanges).
Proof.
  cbn zeta. unfold dateOverlap. cbn [snd].
  split; [apply array_sort_perm|].
  split; [apply array_sort_sorted|].
  split; [intros k; apply array_sort_stable|].
  split.
  - intros Heq. rewrite <- Heq. apply array_sort_sorted.
  - apply array_sort_fixed.
Qed.

End OverlapFacts.

(** ** Dynamic range adjustment *)

Section AdjustFacts.
Import ESDate Util Layers.
Variable appNow : Z.

Lemma DayFromYear_succ y : DayFromYear (y + 1) = DayFromYear y + DaysInYear y.
Proof.
  unfold DayFromYear, DaysInYear, InLeapYear.
  destruct (Z.eqb_spec (y mod 4) 0), (Z.eqb_spec (y mod 100) 0),
           (Z.eqb_spec (y mod 400) 0); cbn; Z.div_mod_to_equations; lia.
Qed.

Lemma YearFromTime_endOfYear y :
  YearFromTime (toISOStringSeconds (setUTCFullYear (ymd 2021 12 31) y)) = y.
Proof.
  rewrite YearFromTime_toISOStringSeconds. unfold YearFromTime.
  apply YearFromDay_unique. rewrite DayFromYear_succ.
  unfold setUTCFullYear.
  change (MonthFromTime (ymd 2021 12 31)) with 11.
  change (DateFromTime (ymd 2021 12 31)) with 31.
  change (TimeWithinDay (ymd 2021 12 31)) with 0.
  unfold MakeDate, MakeDay, Day, DaysInYear.
  change (11 / 12) with 0. change (11 mod 12) with 11.
  rewrite Z.add_0_r, Z.add_0_r, Z.div_mul by done.
  destruct (InLeapYear y); cbn; lia.
Qed.

Lemma replaced_range_start r : startDate (replaced_range appNow r) = startDate r.
Proof. unfold replaced_range. by repeat case_match. Qed.

Lemma replaced_range_interval r :
  dateInterval (replaced_range appNow r) = dateInterval r.
Proof. unfold replaced_range. by repeat case_match. Qed.

Lemma replaced_range_idem r :
  replaced_range appNow (replaced_range appNow r) = replaced_range appNow r.
Proof.
  unfold replaced_range at 2.
  destruct (Z.eqb_spec (YearFromTime (startDate r)) (YearFromTime appNow)) as [He|Hne].
  - unfold replaced_range. cbn [startDate]. rewrite He, Z.eqb_refl. done.
  - destruct (Z.ltb_spec (YearFromTime (startDate r)) (YearFromTime appNow)) as [Hs|Hs];
      cbn [andb].
    + destruct (Z.ltb_spec (YearFromTime (endDate r)) (YearFromTime appNow)) as [Hend|Hend].
      * unfold replaced_range. cbn [startDate endDate dateInterval].
        rewrite YearFromTime_endOfYear.
        destruct (Z.eqb_spec (YearFromTime (startDate r)) (YearFromTime appNow)); [lia|].
        destruct (Z.ltb_spec (YearFromTime (startDate r)) (YearFromTime appNow)); [|lia].
        destruct (Z.ltb_spec (YearFromTime (endDate r)) (YearFromTime appNow)); [|lia].
        done.
      * unfold replaced_range.
        destruct (Z.eqb_spec (YearFromTime (startDate r)) (YearFromTime appNow)); [lia|].
        destruct (Z.ltb_spec (YearFromTime (startDate r)) (YearFromTime appNow)); [|lia].
        destruct (Z.ltb_spec (YearFromTime (endDate r)) (YearFromTime appNow)); [lia|].
        done.
    + unfold replaced_range.
      destruct (Z.eqb_spec (YearFromTime (startDate r)) (YearFromTime appNow)); [lia|].
      destruct (Z.ltb_spec (YearFromTime (startDate r)) (YearFromTime appNow)); [lia|].
      done.
Qed.

Lemma pushed_range_replaced r :
  pushed_range appNow r = None ->
  pushed_range appNow (replaced_range appNow r) = None.
Proof.
  unfold pushed_range. rewrite replaced_range_start.
  by destruct (_ && _).
Qed.

Lemma pushed_range_later r p :
  pushed_range appNow r = Some p ->
  YearFromTime (startDate r) < YearFromTime appNow
  /\ YearFromTime (startDate r) + 1 <= YearFromTime (startDate p)
  /\ dateInterval p = dateInterval r.
Proof.
  unfold pushed_range.
  destruct (Z.ltb_spec (YearFromTime (startDate r)) (YearFromTime appNow)); [|done].
  destruct (_ <? appNow); [|done]. cbn [andb].
  intros Heq. apply (inj Some) in Heq. rewrite <- Heq. cbn [startDate dateInterval].
  rewrite YearFromTime_toISOStringSeconds.
  split; [done|]. split; [|done]. apply YearFromTime_setUTCFullYear_lower.
Qed.

Lemma range_chain_last n r :
  YearFromTime appNow - YearFromTime (startDate r) <= Z.of_nat n ->
  exists mid rf,
    range_chain n appNow r = mid ++ [replaced_range appNow rf]
    /\ pushed_range appNow rf = None
    /\ dateInterval rf = dateInterval r.
Proof.
  revert r. induction n as [|n IH]; intros r Hn; cbn [range_chain].
  - destruct (pushed_range appNow r) as [p|] eqn:Hp.
    + apply pushed_range_later in Hp. lia.
    + by exists [], r.
  - destruct (pushed_range appNow r) as [p|] eqn:Hp.
    + pose proof (pushed_range_later _ _ Hp) as (Hy & Hp1 & Hk).
      destruct (IH p ltac:(lia)) as (mid & rf & -> & Hrf & Hkf).
      exists (replaced_range appNow r :: mid), rf. split; [done|]. split; [done|congruence].
    + by exists [], r.
Qed.

Lemma adjustRange_body_last pre r :
  1 < Z.pos (dateInterval r) ->
  adjustRange_body appNow (length pre) (pre ++ [r])
  = pre ++ replaced_range appNow r ::
      match pushed_range appNow r with Some p => [p] | None => [] end.
Proof.
  intros Hk. unfold adjustRange_body.
  rewrite list_lookup_middle by done.
  rewrite length_app. cbn [length].
  replace (length pre + 1 - 1)%nat with (length pre) by lia.
  rewrite Nat.eqb_refl. destruct (Z.ltb_spec 1 (Z.pos (dateInterval r))); [|lia].
  cbn [andb]. unfold replaced_range, pushed_range.
  assert (Hins : forall x, <[length pre := x]> (pre ++ [r]) = pre ++ [x]).
  { intros x. rewrite insert_app_r_alt by lia. by rewrite Nat.sub_diag. }
  destruct (Z.eqb_spec (YearFromTime (startDate r)) (YearFromTime appNow)) as [He|Hne].
  - destruct (Z.ltb_spec (YearFromTime (startDate r)) (YearFromTime appNow)); [lia|].
    cbn [andb]. by rewrite Hins.
  - destruct (Z.ltb_spec (YearFromTime (startDate r)) (YearFromTime appNow)); cbn [andb];
      [|done].
    destruct (Z.ltb_spec (YearFromTime (endDate r)) (YearFromTime appNow)).
    + rewrite Hins. destruct (_ <? appNow); by rewrite <- ?app_assoc.
    + destruct (_ <? appNow); by rewrite <- ?app_assoc.
Qed.

Lemma adjustRange_body_other i arr :
  (forall r, arr !! i = Some r ->
             i <> (length arr - 1)%nat \/ dateInterval r = 1%positive) ->
  adjustRange_body appNow i arr = arr.
Proof.
  intros H. unfold adjustRange_body. destruct (arr !! i) as [r|] eqn:Hr; [|done].
  destruct (H r eq_refl) as [Hi|Hk].
  - apply Nat.eqb_neq in Hi. by rewrite Hi.
  - rewrite Hk. by rewrite andb_false_r.
Qed.

Lemma adjustRange_loop_skip fuel : forall i arr,
  (forall j r, (i <= j)%nat -> arr !! j = Some r ->
               j <> (length arr - 1)%nat \/ dateInterval r = 1%positive) ->
  (length arr - i < fuel)%nat ->
  adjustRange_loop fuel appNow i arr = Some arr.
Proof.
  induction fuel as [|fuel IH]; intros i arr H Hf; [lia|]. cbn [adjustRange_loop].
  destruct (Nat.ltb_spec i (length arr)); [|done].
  rewrite adjustRange_body_other by (intros; by apply (H i)).
  apply IH; [|lia]. intros j r Hj. apply H. lia.
Qed.

Lemma adjustRange_loop_prefix fuel pre r : forall d i,
  (i + d = length pre)%nat ->
  adjustRange_loop (d + fuel) appNow i (pre ++ [r])
  = adjustRange_loop fuel appNow (length pre) (pre ++ [r]).
Proof.
  induction d as [|d IH]; intros i Hi.
  - cbn. by replace i with (length pre) by lia.
  - cbn [Nat.add adjustRange_loop]. rewrite length_app. cbn [length].
    destruct (Nat.ltb_spec i (length pre + 1)); [|lia].
    rewrite adjustRange_body_other.
    + apply IH. lia.
    + intros r' _. left. rewrite length_app. cbn. lia.
Qed.

Lemma adjustRange_loop_last n : forall fuel pre r,
  1 < Z.pos (dateInterval r) ->
  YearFromTime appNow - YearFromTime (startDate r) <= Z.of_nat n ->
  (n + 2 <= fuel)%nat ->
  adjustRange_loop fuel appNow (length pre) (pre ++ [r])
  = Some (pre ++ range_chain n appNow r).
Proof.
  induction n as [|n IH]; intros fuel pre r Hk Hn Hf.
  - destruct fuel as [|[|fuel]]; [lia|lia|].
    cbn [adjustRange_loop range_chain]. rewrite length_app. cbn [length].
    destruct (Nat.ltb_spec (length pre) (length pre + 1)); [|lia].
    rewrite adjustRange_body_last by done.
    destruct (pushed_range appNow r) as [p|] eqn:Hp.
    { apply pushed_range_later in Hp. lia. }
    rewrite length_app. cbn [length].
    destruct (Nat.ltb_spec (S (length pre)) (length pre + 1)); [lia|done].
  - destruct fuel as [|fuel]; [lia|].
    cbn [adjustRange_loop range_chain]. rewrite length_app. cbn [length].
    destruct (Nat.ltb_spec (length pre) (length pre + 1)); [|lia].
    rewrite adjustRange_body_last by done.
    destruct (pushed_range appNow r) as [p|] eqn:Hp.
    + pose proof (pushed_range_later _ _ Hp) as (Hy & Hp1 & Hkp).
      replace (pre ++ replaced_range appNow r :: [p])
        with ((pre ++ [replaced_range appNow r]) ++ [p]) by (by rewrite <- app_assoc).
      replace (S (length pre)) with (length (pre ++ [replaced_range appNow r]))
        by (rewrite length_app; cbn; lia).
      rewrite IH; [by rewrite <- app_assoc | by rewrite Hkp | lia | lia].
    + destruct fuel as [|fuel]; [lia|]. cbn [adjustRange_loop].
      rewrite length_app. cbn [length].
      destruct (Nat.ltb_spec (S (length pre)) (length pre + 1)); [lia|done].
Qed.

Lemma adjust_ranges_nil : adjust_ranges appNow [] = Some [].
Proof.
  unfold adjust_ranges, adjustRange_fuel. cbn [last length].
  by rewrite Z.sub_diag.
Qed.

Lemma adjust_ranges_snoc pre r :
  adjust_ranges appNow (pre ++ [r])
  = Some (pre ++ if 1 <? Z.pos (dateInterval r)
                 then range_chain (years_left appNow r) appNow r else [r]).
Proof.
  unfold adjust_ranges, adjustRange_fuel. rewrite last_snoc.
  fold (years_left appNow r).
  destruct (Z.ltb_spec 1 (Z.pos (dateInterval r))) as [Hk|Hk].
  - rewrite length_app. cbn [length].
    replace (length pre + 1 + years_left appNow r + 2)%nat
      with (length pre + (years_left appNow r + 3))%nat by lia.
    rewrite (adjustRange_loop_prefix _ _ _ (length pre) 0%nat) by done.
    apply adjustRange_loop_last; [done| unfold years_left; lia | lia].
  - apply adjustRange_loop_skip; [|lia].
    intros j r' _ Hr'. destruct (decide (j = (length (pre ++ [r]) - 1)%nat)) as [->|]; [|by left].
    right. rewrite length_app in Hr'. cbn [length] in Hr'.
    replace (length pre + 1 - 1)%nat with (length pre) in Hr' by lia.
    rewrite list_lookup_middle in Hr' by done. injection Hr' as <-. lia.
Qed.

(** The loop of the adjustment ends within the fuel it is given. *)
Lemma adjust_ranges_terminates rs : is_Some (adjust_ranges appNow rs).
Proof.
  destruct rs as [|r rs _] using rev_ind.
  - by rewrite adjust_ranges_nil.
  - by rewrite adjust_ranges_snoc.
Qed.

Lemma adjust_ranges_idem rs rs' :
  adjust_ranges appNow rs = Some rs' -> adjust_ranges appNow rs' = Some rs'.
Proof.
  destruct rs as [|r pre _] using rev_ind.
  - rewrite adjust_ranges_nil. intros [= <-]. apply adjust_ranges_nil.
  - rewrite adjust_ranges_snoc.
    destruct (Z.ltb_spec 1 (Z.pos (dateInterval r))) as [Hk|Hk]; intros [= <-].
    + destruct (range_chain_last (years_left appNow r) r) as (mid & rf & -> & Hrf & Hkf).
      { unfold years_left. lia. }
      rewrite app_assoc, adjust_ranges_snoc.
      rewrite replaced_range_interval, Hkf.
      destruct (Z.ltb_spec 1 (Z.pos (dateInterval r))); [|lia].
      do 2 f_equal.
      destruct (years_left appNow (replaced_range appNow rf)); cbn [range_chain];
        rewrite pushed_range_replaced by done; by rewrite replaced_range_idem.
    + rewrite adjust_ranges_snoc.
      by destruct (Z.ltb_spec 1 (Z.pos (dateInterval r))); [lia|].
Qed.

Lemma applyDateRangeAdjustment_idem layer :
  applyDateRangeAdjustment appNow (applyDateRangeAdjustment appNow layer)
  = applyDateRangeAdjustment appNow layer.
Proof.
  unfold applyDateRangeAdjustment at 2.
  destruct (dateRanges layer) as [rs|] eqn:Hrs.
  - destruct (negb (ongoing layer) || bool_decide (period layer = subdaily)) eqn:Hf.
    + unfold applyDateRangeAdjustment. by rewrite Hrs, Hf.
    + destruct (adjust_ranges appNow rs) as [rs'|] eqn:Ha.
      * unfold applyDateRangeAdjustment. cbn [dateRanges ongoing period].
        rewrite Hf, (adjust_ranges_idem _ _ Ha), Hrs, Ha. done.
      * unfold applyDateRangeAdjustment. by rewrite Hrs, Hf, Ha.
  - unfold applyDateRangeAdjustment. by rewrite Hrs.
Qed.
End AdjustFacts.

Section AdjustTheorem.
Import Layers.

(** C6. Applying [adjustActiveDateRanges] twice with the same [appNow]
    leaves every layer, and so its date ranges, as one application does. *)
Theorem adjustActiveDateRanges_idempotent (layers : gmap string LayerDef) appNow :
  adjustActiveDateRanges (adjustActiveDateRanges layers appNow) appNow
  = adjustActiveDateRanges layers appNow.
Proof.
  unfold adjustActiveDateRanges. rewrite <- map_fmap_compose.
  apply map_fmap_ext. intros i layer _. cbn.
  apply applyDateRangeAdjustment_idem.
Qed.
End AdjustTheorem.

(** ** The permalink codec *)

Section CodecFacts.
Import JSString Codec.
Local Open Scope string_scope.

Lemma mbind_ret {A B} (a : A) (f : A -> M B) : mbind (mret a) f = f a.
Proof. unfold mbind, mret. by destruct (f a). Qed.

Lemma foldM_limit_step name l : forall arr,
  exists arr' tr, foldM (limit_step name) arr l = (Ret arr', tr).
Proof.
  induction l as [|v l IH]; intros arr; cbn [foldM]; [by eexists _, _|].
  unfold limit_step at 1.
  destruct (String.eqb v "").
  - rewrite mbind_ret. apply IH.
  - destruct (parseFloat_isNaN v).
    + unfold mbind at 1. cbn.
      destruct (IH arr) as (arr' & tr & ->). by eexists _, _.
    + rewrite mbind_ret. apply IH.
Qed.

Lemma getLayerSpec_attr_outcome s a :
  if raising_attribute a
  then exists tr, getLayerSpec_attr s a = (TypeError, tr)
  else exists s' tr, getLayerSpec_attr s a = (Ret s', tr).
Proof.
  destruct a as [id v]. unfold raising_attribute, getLayerSpec_attr, when_id.
  cbn [attr_id attr_value_ existsb].
  assert (Hlim : forall name t (f : list (option jsnum) -> LayerSpec),
             exists s' tr,
               mbind (foldM (limit_step name) [] (split_on is_semicolon t))
                     (fun arr => mret (f arr)) = (Ret s', tr)).
  { intros name t f.
    destruct (foldM_limit_step name (split_on is_semicolon t) []) as (arr & tr & ->).
    cbn. by eexists _, _. }
  destruct (String.eqb_spec id "hidden") as [->|_];
    [destruct v; cbn; first [by eexists _, _ | by eexists]|].
  destruct (String.eqb_spec id "opacity") as [->|_];
    [destruct v; cbn; first [by eexists _, _ | by eexists]|].
  destruct (String.eqb_spec id "disabled") as [->|_];
    [destruct v; cbn; first [by eexists _, _ | by eexists]|].
  destruct (String.eqb_spec id "max") as [->|_].
  { destruct v as [|t]; cbn; [by eexists _, _|].
    destruct (Hlim "max" t (fun arr => set_max (nonempty arr) s)) as (s' & tr & Hs).
    unfold mbind, mret in *. cbn in *.
    destruct (foldM _ _ _) as [[arr|] tr']; [|done]. cbn in *. by eexists _, _. }
  destruct (String.eqb_spec id "min") as [->|_].
  { destruct v as [|t]; cbn; [by eexists _, _|].
    destruct (Hlim "min" t (fun arr => set_min (nonempty arr) s)) as (s' & tr & Hs).
    unfold mbind, mret in *. cbn in *.
    destruct (foldM _ _ _) as [[arr|] tr']; [|done]. cbn in *. by eexists _, _. }
  destruct (String.eqb_spec id "squash") as [->|_];
    [destruct v; cbn; first [by eexists _, _ | by eexists]|].
  destruct (String.eqb_spec id "bands") as [->|_];
    [destruct v; cbn; first [by eexists _, _ | by eexists]|].
  destruct (String.eqb_spec id "palette") as [->|_];
    [destruct v; cbn; first [by eexists _, _ | by eexists]|].
  destruct (String.eqb_spec id "style") as [->|_];
    [destruct v; cbn; first [by eexists _, _ | by eexists]|].
  destruct (String.eqb_spec id "count") as [->|_];
    [destruct v; cbn; first [by eexists _, _ | by eexists]|].
  cbn. destruct v; by eexists _, _.
Qed.

Lemma mbind_emit {B} e (f : unit -> M B) :
  mbind (emit e) f = (fst (f tt), e :: snd (f tt)).
Proof. unfold mbind, emit. by destruct (f tt). Qed.

Lemma foldM_cons {A S} (f : S -> A -> M S) s a l :
  foldM f s (a :: l) = mbind (f s a) (fun s' => foldM f s' l).
Proof. reflexivity. Qed.

Lemma foldM_app {A S} (f : S -> A -> M S) l1 l2 : forall s,
  foldM f s (l1 ++ l2) = mbind (foldM f s l1) (fun s' => foldM f s' l2).
Proof.
  induction l1 as [|a l1 IH]; intros s.
  - cbn [app foldM]. by rewrite mbind_ret.
  - cbn [app foldM]. unfold mbind at 1 3.
    destruct (f s a) as [[s'|] tr]; [|done].
    rewrite IH. unfold mbind.
    destruct (foldM f s' l1) as [[s''|] tr']; [|done].
    destruct (foldM f s'' l2) as [r tr'']. by rewrite app_assoc.
Qed.

(** A loop raises exactly when one of its steps does. *)
Lemma foldM_outcome {A S} (f : S -> A -> M S) (bad : A -> bool) :
  (forall s a, if bad a then exists tr, f s a = (TypeError, tr)
               else exists s' tr, f s a = (Ret s', tr)) ->
  forall l s, if existsb bad l then exists tr, foldM f s l = (TypeError, tr)
              else exists s' tr, foldM f s l = (Ret s', tr).
Proof.
  intros Hf. induction l as [|a l IH]; intros s; cbn [existsb foldM].
  - by eexists _, _.
  - specialize (Hf s a). destruct (bad a); cbn [orb].
    + destruct Hf as (tr & ->). by eexists.
    + destruct Hf as (s' & tr & ->). specialize (IH s'). unfold mbind.
      destruct (existsb bad l).
      * destruct IH as (tr' & ->). by eexists.
      * destruct IH as (s'' & tr' & ->). by eexists _, _.
Qed.

Lemma getLayerSpec_outcome attributes :
  if existsb raising_attribute attributes
  then exists tr, getLayerSpec attributes = (TypeError, tr)
  else exists s tr, getLayerSpec attributes = (Ret s, tr).
Proof. apply foldM_outcome. apply getLayerSpec_attr_outcome. Qed.

Section Parsing.
Context {CatalogLayer ActiveLayer : Type}.
Variable inherited_text : string -> string.
Variable addLayer :
  string -> LayerSpec -> list ActiveLayer -> Config CatalogLayer -> list ActiveLayer.
Variable resetLayers : Config CatalogLayer -> list ActiveLayer.
Variable config : Config CatalogLayer.

Lemma known_spec id :
  known config id = true
  <-> is_Some (layers config !! id) \/ JSObject.inherited id = true.
Proof. unfold known. by rewrite orb_true_iff, bool_decide_eq_true. Qed.

Lemma createLayer_step_outcome layerArray l :
  if raising_lstate config l
  then exists tr, createLayer_step addLayer config layerArray l = (TypeError, tr)
  else exists arr tr, createLayer_step addLayer config layerArray l = (Ret arr, tr).
Proof.
  unfold raising_lstate, createLayer_step.
  destruct (known config (lstate_id l)); cbn [negb andb].
  - pose proof (getLayerSpec_outcome (lstate_attributes l)) as H.
    destruct (existsb raising_attribute (lstate_attributes l)).
    + destruct H as (tr & ->). by eexists.
    + destruct H as (s & tr & ->). by eexists _, _.
  - cbn. by eexists _, _.
Qed.

Lemma existsb_reverse {A} (f : A -> bool) l : existsb f (reverse l) = existsb f l.
Proof.
  induction l as [|a l IH]; [done|]. rewrite reverse_cons. cbn [existsb].
  rewrite existsb_app, IH. cbn. by rewrite orb_false_r, orb_comm.
Qed.

Lemma createLayerArrayFromState_outcome lstates :
  if existsb (raising_lstate config) lstates
  then exists tr, createLayerArrayFromState addLayer (Some lstates) config = (TypeError, tr)
  else exists arr tr,
      createLayerArrayFromState addLayer (Some lstates) config = (Ret arr, tr).
Proof.
  unfold createLayerArrayFromState. rewrite <- (existsb_reverse _ lstates).
  apply foldM_outcome. intros. apply createLayer_step_outcome.
Qed.

Lemma starts_with_id_snoc tok c :
  starts_with_id tok = true -> starts_with_id (snoc tok c) = true.
Proof. by destruct tok. Qed.

Lemma scan_layerDefs_starts s : forall st,
  scan_state_ok st = true ->
  Forall (fun tok => starts_with_id tok = true) (scan_layerDefs st s).
Proof.
  induction s as [|c s IH]; intros st Hst.
  - destruct st; cbn in *; repeat constructor; done.
  - destruct st as [|run|tok|tok]; cbn [scan_layerDefs scan_state_ok] in *.
    + destruct (is_open c || is_comma c) eqn:Hc; apply IH; [done|].
      cbn. by rewrite Hc.
    + destruct (is_comma c).
      { constructor; [by apply starts_with_id_snoc|by apply IH]. }
      destruct (is_open c).
      { destruct (contains is_close s).
        - apply IH. by apply starts_with_id_snoc.
        - constructor; [done|by apply IH]. }
      apply IH. by apply starts_with_id_snoc.
    + destruct (is_close c); apply IH; by apply starts_with_id_snoc.
    + destruct (is_comma c) eqn:Hcomma.
      { constructor; [by apply starts_with_id_snoc|by apply IH]. }
      destruct (is_open c) eqn:Hopen.
      { constructor; [done|by apply IH]. }
      constructor; [done|]. apply IH. cbn. by rewrite Hopen, Hcomma.
Qed.

Lemma match_layerId_starts tok :
  starts_with_id tok = true -> is_Some (match_layerId tok).
Proof.
  destruct tok as [|c tok]; [done|]. cbn.
  intros H. apply negb_true_iff in H. by rewrite H.
Qed.

Lemma foldM_parse12_layerDef tokens :
  Forall (fun tok => starts_with_id tok = true) tokens ->
  forall acc, exists lstates tr,
    foldM (parse12_layerDef inherited_text config) acc tokens = (Ret lstates, tr).
Proof.
  induction 1 as [|tok tokens Htok _ IH]; intros acc; cbn [foldM].
  - by eexists _, _.
  - unfold parse12_layerDef at 1.
    destruct (match_layerId_starts tok Htok) as [layerId ->].
    unfold mbind, emit, mret. cbn.
    match goal with |- context [foldM _ ?a tokens] => destruct (IH a) as (ls & tr & ->) end.
    by eexists _, _.
Qed.

(** Without a closing parenthesis in the input no match of the scan holds
    an opening one: a run stops before it. *)
Lemma contains_snoc p s c : contains p (snoc s c) = contains p s || p c.
Proof.
  induction s as [|x s IH].
  - change (snoc "" c) with (String c ""). cbn [contains]. by rewrite orb_false_r.
  - change (snoc (String x s) c) with (String x (snoc s c)). cbn [contains].
    by rewrite IH, orb_assoc.
Qed.

Lemma scan_layerDefs_unclosed s : forall st,
  contains is_close s = false ->
  match st with
  | Idle => True
  | InRun run => contains is_open run = false
  | _ => False
  end ->
  Forall (fun tok => contains is_open tok = false) (scan_layerDefs st s).
Proof.
  induction s as [|c s IH]; intros st Hs Hst.
  - destruct st; cbn in *; repeat constructor; done.
  - cbn [contains] in Hs. apply orb_false_iff in Hs as [_ Hs].
    destruct st as [|run|tok|tok]; cbn [scan_layerDefs] in *; try done.
    + destruct (is_open c || is_comma c) eqn:Hc; apply IH; try done.
      cbn. apply orb_false_iff in Hc as [-> _]. done.
    + destruct (is_comma c) eqn:Hcomma.
      { constructor; [|by apply IH]. rewrite contains_snoc, Hst.
        unfold is_comma, is_open in *. apply Ascii.eqb_eq in Hcomma. by subst c. }
      destruct (is_open c) eqn:Hopen.
      { rewrite Hs. constructor; [done|by apply IH]. }
      apply IH; [done|]. by rewrite contains_snoc, Hst, Hopen.
Qed.

Lemma match_parens_unopened s : contains is_open s = false -> match_parens s = None.
Proof.
  induction s as [|c s IH]; [done|]. cbn. intros [Hc Hs]%orb_false_iff.
  by rewrite Hc, IH.
Qed.

Lemma foldM_parse12_unopened tokens :
  Forall (fun tok => starts_with_id tok = true) tokens ->
  Forall (fun tok => contains is_open tok = false) tokens ->
  forall acc, exists lstates tr,
    foldM (parse12_layerDef inherited_text config) acc tokens
    = (Ret (acc ++ lstates)%list, tr)
    /\ Forall (fun l => lstate_attributes l = []) lstates.
Proof.
  induction 1 as [|tok tokens Htok _ IH]; intros Hopen acc; cbn [foldM].
  - exists [], []. by rewrite app_nil_r.
  - inversion_clear Hopen as [|? ? Ho Hrest].
    unfold parse12_layerDef at 1.
    destruct (match_layerId_starts tok Htok) as [layerId ->].
    rewrite (match_parens_unopened tok Ho).
    unfold mbind, emit, mret. cbn [app].
    match goal with |- context [foldM _ (acc ++ [?l])%list tokens] =>
      destruct (IH Hrest (acc ++ [l])%list) as (ls & tr & -> & Hls);
        exists (l :: ls) end.
    eexists. split; [by rewrite <- app_assoc|]. by constructor.
Qed.

(** C4, amended. For every input string [layersParse12] returns a layer
    list and propagates no exception.  Cutting the input into layer
    definitions and reading their ids and attributes never raises; when
    [createLayerArrayFromState] raises on the layer states read, the
    catalog's default layer set is returned and the error and "reverting
    to default layers" are logged, and otherwise the layers it builds are
    returned.  An input in which no parenthesis is closed raises nothing:
    it is read as layer ids without attributes. *)
Theorem layersParse12_never_throws str :
  exists lstates tr1,
    foldM (parse12_layerDef inherited_text config) []
          (match match_layerDefs str with Some l => l | None => [] end)
    = (Ret lstates, tr1)
    /\ ((exists layerArray tr2,
            createLayerArrayFromState addLayer (Some lstates) config
            = (Ret layerArray, tr2)
            /\ layersParse12 inherited_text addLayer resetLayers str config
               = (layerArray, tr1 ++ tr2)%list)
        \/ (exists tr2,
              createLayerArrayFromState addLayer (Some lstates) config
              = (TypeError, tr2)
              /\ layersParse12 inherited_text addLayer resetLayers str config
                 = (resetLayers config,
                    ((tr1 ++ tr2) ++ [Warn "Error Parsing layers: TypeError";
                                      Log "reverting to default layers"])%list)))
    /\ (contains is_close str = false ->
        Forall (fun l => lstate_attributes l = []) lstates
        /\ exists layerArray tr2,
            createLayerArrayFromState addLayer (Some lstates) config
            = (Ret layerArray, tr2)
            /\ layersParse12 inherited_text addLayer resetLayers str config
               = (layerArray, tr1 ++ tr2)%list).
Proof.
  set (tokens := match match_layerDefs str with Some l => l | None => [] end).
  assert (Htokens : tokens = scan_layerDefs Idle str).
  { unfold tokens, match_layerDefs. by destruct (scan_layerDefs Idle str). }
  assert (Htok : Forall (fun tok => starts_with_id tok = true) tokens).
  { rewrite Htokens. by apply scan_layerDefs_starts. }
  destruct (foldM_parse12_layerDef _ Htok []) as (lstates & tr1 & Hparse).
  exists lstates, tr1. split; [done|].
  assert (Hret : forall layerArray tr2,
            createLayerArrayFromState addLayer (Some lstates) config
            = (Ret layerArray, tr2) ->
            layersParse12 inherited_text addLayer resetLayers str config
            = (layerArray, tr1 ++ tr2)%list).
  { intros layerArray tr2 Hc. unfold layersParse12, layersParse12_try.
    fold tokens. rewrite Hparse. unfold mbind. by rewrite Hc. }
  split.
  - destruct (createLayerArrayFromState addLayer (Some lstates) config)
      as [[layerArray|] tr2] eqn:Hc.
    + left. exists layerArray, tr2. split; [done|]. by apply Hret.
    + right. exists tr2. split; [done|].
      unfold layersParse12, layersParse12_try. fold tokens. rewrite Hparse.
      unfold mbind. by rewrite Hc.
  - intros Hclose.
    destruct (foldM_parse12_unopened tokens Htok) with (acc := @nil lstate)
      as (ls & tr & Hls & Hattrs).
    { rewrite Htokens. by apply scan_layerDefs_unclosed. }
    rewrite Hparse in Hls. injection Hls as -> ->. cbn [app].
    split; [done|].
    pose proof (createLayerArrayFromState_outcome ls) as Hout.
    assert (existsb (raising_lstate config) ls = false) as Hno.
    { clear -Hattrs. induction Hattrs as [|l ls Hl _ IH]; [done|].
      cbn [existsb]. rewrite IH, orb_false_r. unfold raising_lstate.
      rewrite Hl. cbn. by rewrite andb_false_r. }
    rewrite Hno in Hout. destruct Hout as (layerArray & tr2 & Hc).
    exists layerArray, tr2. split; [done|]. by apply Hret.
Qed.
End Parsing.


Section UnknownIds.
Context {CatalogLayer ActiveLayer : Type}.
Variable inherited_text : string -> string.
Variable addLayer :
  string -> LayerSpec -> list ActiveLayer -> Config CatalogLayer -> list ActiveLayer.
Variable layer_id : ActiveLayer -> string.
Hypothesis addLayer_ids : forall id spec layerArray config i,
  i ∈ layer_id <$> addLayer id spec layerArray config
  <-> i = id \/ i ∈ layer_id <$> layerArray.
Variable config : Config CatalogLayer.

Lemma foldM_parse11_id tokens : forall acc,
  exists l tr,
    foldM (parse11_id inherited_text config) acc tokens = (Ret (acc ++ l)%list, tr)
    /\ Forall (fun ls => raising_lstate config ls = false) l
    /\ (forall i, i ∈ lstate_id <$> l
                  <-> i ∈ v1_ids inherited_text config tokens /\ known config i = true)
    /\ (forall i, i ∈ v1_ids inherited_text config tokens -> known config i = false ->
                  Warn ("No such layer: " ++ i) ∈ tr).
Proof.
  induction tokens as [|tok tokens IH]; intros acc.
  - exists [], []. rewrite app_nil_r. split; [done|]. split; [done|].
    split; [|by intros i H%elem_of_nil]. intros i. cbn. split.
    + by intros H%elem_of_nil.
    + by intros [H%elem_of_nil _].
  - cbn [foldM]. unfold parse11_id at 1. unfold v1_ids at 1 2. cbn [List.filter].
    fold (is_group_token tok). destruct (is_group_token tok) eqn:Hg; cbn [negb].
    { rewrite mbind_ret. apply IH. }
    cbn [fmap list_fmap]. fold (v1_token_id inherited_text config tok).
    set (id := v1_token_id inherited_text config tok).
    fold (v1_ids inherited_text config tokens).
    destruct (known config id) eqn:Hk; cbn [negb].
    + set (ls := mkLstate id (if negb (startsWith_bang tok) then []
                              else [mkAttr "hidden" VTrue])).
      destruct (IH (acc ++ [ls])%list) as (l & tr & Hl & Hok & Hids & Hwarn).
      exists (ls :: l), (PushEvent id :: tr).
      unfold mbind, emit, mret. cbn [app]. fold ls. rewrite Hl. cbn [app].
      split; [by rewrite <- app_assoc|].
      split.
      { constructor; [|done]. unfold raising_lstate, ls. cbn.
        by destruct (negb (startsWith_bang tok)); cbn; rewrite andb_false_r. }
      split.
      * intros i. rewrite fmap_cons, !elem_of_cons, Hids. cbn [lstate_id ls].
        split; [intros [->|[? ?]]; auto | intros [[->|?] ?]; auto].
      * intros i [->|Hi]%elem_of_cons Hnk; [congruence|].
        apply elem_of_cons. right. by apply Hwarn.
    + destruct (IH acc) as (l & tr & Hl & Hok & Hids & Hwarn).
      exists l, (Warn ("No such layer: " ++ id) :: tr).
      unfold mbind, emit, mret. cbn [app]. rewrite Hl. cbn [app].
      split; [done|]. split; [done|].
      split.
      * intros i. rewrite elem_of_cons, Hids.
        split; [intros [? ?]; auto | intros [[->|?] ?]; [congruence | auto]].
      * intros i [->|Hi]%elem_of_cons Hnk; [by left|]. right. by apply Hwarn.
Qed.

Lemma foldM_createLayer_ids l :
  Forall (fun ls => raising_lstate config ls = false) l ->
  forall arr0, exists arr tr,
    foldM (createLayer_step addLayer config) arr0 l = (Ret arr, tr)
    /\ (forall i, i ∈ layer_id <$> arr
                  <-> (i ∈ lstate_id <$> l /\ known config i = true)
                      \/ i ∈ layer_id <$> arr0).
Proof.
  induction 1 as [|ls l Hls _ IH]; intros arr0; cbn [foldM].
  - exists arr0, []. split; [done|]. intros i. rewrite fmap_nil, elem_of_nil.
    split; [auto | by intros [[[] _]|?]].
  - unfold createLayer_step at 1.
    destruct (known config (lstate_id ls)) eqn:Hk; cbn [negb].
    + unfold raising_lstate in Hls. rewrite Hk in Hls. cbn [andb] in Hls.
      pose proof (getLayerSpec_outcome (lstate_attributes ls)) as Hspec.
      rewrite Hls in Hspec. destruct Hspec as (spec & tr0 & Hspec).
      rewrite Hspec. unfold mbind at 2. unfold mret at 1. unfold mbind.
      destruct (IH (addLayer (lstate_id ls) spec arr0 config)) as (arr & tr & -> & Hids).
      eexists _, _. split; [done|]. intros i.
      rewrite Hids, addLayer_ids, fmap_cons, elem_of_cons.
      split; [intros [[? ?]|[->|?]]; auto | intros [[[->|?] ?]|?]; auto].
    + destruct (IH arr0) as (arr & tr & Harr & Hids).
      unfold mbind, emit, mret. cbn [app]. rewrite Harr.
      eexists _, _. split; [done|]. intros i.
      rewrite Hids, fmap_cons, elem_of_cons.
      split; [intros [[? ?]|?]; auto | intros [[[->|?] ?]|?]; [congruence | auto | auto]].
Qed.

(** A v1.1 permalink is parsed without an exception whatever ids it
    refers to; an id for which, after redirects, the lookup
    [config.layers[id]] finds nothing is warned about and is not in the
    resulting layer list, and every id for which it finds a value is in the
    resulting layer list.  [addLayer] is a collaborator: it is assumed to
    insert the layer it is given and to keep the layers already there. *)
Lemma layersParse11_falsy_ids_dropped str :
  exists layerArray tr,
    layersParse11 inherited_text addLayer str config = (Ret layerArray, tr)
    /\ (forall i, i ∈ referenced_ids inherited_text config str ->
                  known config i = false ->
                  Warn ("No such layer: " ++ i) ∈ tr
                  /\ i ∉ layer_id <$> layerArray)
    /\ (forall i, i ∈ referenced_ids inherited_text config str ->
                  known config i = true ->
                  i ∈ layer_id <$> layerArray).
Proof.
  unfold layersParse11.
  destruct (foldM_parse11_id (split_on is_v1_separator str) [])
    as (l & tr1 & -> & Hok & Hids & Hwarn).
  cbn [app]. unfold mbind at 1. unfold createLayerArrayFromState.
  destruct (foldM_createLayer_ids (reverse l)) with (arr0 := @nil ActiveLayer)
    as (arr & tr2 & -> & Harr).
  { by apply Forall_reverse. }
  exists arr. eexists. split; [done|].
  unfold referenced_ids.
  assert (Hin : forall i, i ∈ layer_id <$> arr
                          <-> i ∈ v1_ids inherited_text config
                                    (split_on is_v1_separator str)
                              /\ known config i = true).
  { intros i. rewrite Harr, fmap_nil, elem_of_nil, fmap_reverse, elem_of_reverse, Hids.
    split; [intros [[[? ?] ?]|[]]; auto | intros [? ?]; auto]. }
  split.
  - intros i Hi Hk. split.
    + apply elem_of_app. left. by apply Hwarn.
    + rewrite Hin. intros [_ ?]. congruence.
  - intros i Hi Hk. by apply Hin.
Qed.
End UnknownIds.

Lemma getLayerSpec_attr_bandCombo s a s' tr :
  attr_id a <> "bands" ->
  getLayerSpec_attr s a = (Ret s', tr) ->
  bandCombo s' = bandCombo s.
Proof.
  destruct a as [id v]. unfold getLayerSpec_attr, when_id.
  cbn [attr_id attr_value_]. intros Hid.
  destruct (String.eqb_spec id "bands") as [->|_]; [done|].
  destruct (String.eqb_spec id "hidden") as [->|_];
    [destruct v; cbn; by intros [= <- _]|].
  destruct (String.eqb_spec id "opacity") as [->|_];
    [destruct v; cbn; by intros [= <- _]|].
  destruct (String.eqb_spec id "disabled") as [->|_];
    [destruct v; cbn; [done|by intros [= <- _]]|].
  destruct (String.eqb_spec id "max") as [->|_].
  { destruct v as [|t]; cbn; [by intros [= <- _]|].
    unfold mbind, mret. destruct (foldM _ _ _) as [[arr|] tr']; [|done].
    cbn. by intros [= <- _]. }
  destruct (String.eqb_spec id "min") as [->|_].
  { destruct v as [|t]; cbn; [by intros [= <- _]|].
    unfold mbind, mret. destruct (foldM _ _ _) as [[arr|] tr']; [|done].
    cbn. by intros [= <- _]. }
  destruct (String.eqb_spec id "squash") as [->|_];
    [destruct v; cbn; by intros [= <- _]|].
  destruct (String.eqb_spec id "palette") as [->|_];
    [destruct v; cbn; [done|by intros [= <- _]]|].
  destruct (String.eqb_spec id "style") as [->|_];
    [destruct v; cbn; [done|by intros [= <- _]]|].
  destruct (String.eqb_spec id "count") as [->|_];
    [destruct v; cbn; by intros [= <- _]|].
  cbn. by intros [= <- _].
Qed.

(** [getLayerSpec] sets the band combination from attributes named
    [bands] only. *)
Lemma getLayerSpec_bandCombo attributes s tr :
  Forall (fun a => attr_id a <> "bands") attributes ->
  getLayerSpec attributes = (Ret s, tr) ->
  bandCombo s = None.
Proof.
  unfold getLayerSpec. change None with (bandCombo defaultSpec).
  generalize defaultSpec. intros s0 Hall. revert s0 tr.
  induction Hall as [|a l Ha _ IH]; intros s0 tr; cbn [foldM].
  - unfold mret. by intros [= <- _].
  - unfold mbind. destruct (getLayerSpec_attr s0 a) as [[s1|] tr1] eqn:H1; [|done].
    destruct (foldM getLayerSpec_attr s1 l) as [r tr2] eqn:H2.
    intros [= -> _]. rewrite (IH _ _ H2).
    by apply (getLayerSpec_attr_bandCombo _ _ _ _ Ha H1).
Qed.


(** C4, as stated, fails for an unbalanced parenthesis: ["a(hidden"] raises
    no exception; it is read as the two layer ids [a] and [hidden], and the
    result is the layer [a], visible, not the default layer set. *)
Lemma unbalanced_parenthesis_not_default :
  layersParse12 v8_text insert_layer default_layers "a(hidden" (single_layer_config "a")
  = ([("a", defaultSpec)],
     [PushEvent "a"; PushEvent "hidden"; Warn "No such layer: hidden"])
  /\ fst (layersParse12 v8_text insert_layer default_layers "a(hidden"
            (single_layer_config "a"))
     <> default_layers (single_layer_config "a").
Proof. split; [reflexivity | vm_compute; discriminate]. Qed.

(** A key without a value, by contrast, does lead to the default set. *)
Example bare_palette_key_reverts_to_default :
  layersParse12 v8_text insert_layer default_layers "a(palette)" (single_layer_config "a")
  = (default_layers (single_layer_config "a"),
     [PushEvent "a"; Warn "Error Parsing layers: TypeError";
      Log "reverting to default layers"]).
Proof. reflexivity. Qed.

(** C8 (defect of the code). The parsers test [config.layers[id]], and
    the lookup on the object literal also finds what [Object.prototype]
    holds: an id named like one of its properties passes for a layer of
    the catalog.  In a v1.1 permalink [constructor] is not warned about
    and is handed on to [addLayer]; in a v1.2 permalink [toString] with the
    bare key [palette] raises, and the layer of the catalog named beside it
    is lost with the fall back to the default layer set.  An id that the
    lookup does not find, [no_such], is dropped with the warning. *)
Theorem prototype_named_id_not_dropped :
  layers two_layer_config !! "constructor" = None
  /\ layers two_layer_config !! "toString" = None
  /\ layersParse11 v8_text insert_layer "modis_terra,constructor,no_such" two_layer_config
     = (Ret [("modis_terra", defaultSpec); ("constructor", defaultSpec)],
        [PushEvent "modis_terra"; PushEvent "constructor";
         Warn "No such layer: no_such"])
  /\ layersParse12 v8_text insert_layer default_layers "modis_terra,toString(palette)"
       two_layer_config
     = (default_layers two_layer_config,
        [PushEvent "modis_terra"; PushEvent "toString";
         Warn "Error Parsing layers: TypeError"; Log "reverting to default layers"]).
Proof. repeat split; reflexivity. Qed.

(** C3 (defect of the code). The serializer writes the band combination
    under the key [bandCombo]; [getLayerSpec] reads it from the key [bands]
    only.  The permalink of a visible, opaque layer with a band combination
    parses back to a layer without one. *)
Theorem bandCombo_lost_in_round_trip
    (getPaletteAttributeArray : string -> list out_attribute)
    (getVectorStyleAttributeArray : LayerState -> list out_attribute)
    (getGranuleCount : string -> option number)
    (inherited_text : string -> string) :
  let permalink :=
    join "," (serializeLayers getPaletteAttributeArray getVectorStyleAttributeArray
                              getGranuleCount [example_bandCombo_layer]) in
  permalink
  = "HLS_Customizable(bandCombo=%7B%22r%22%3A%22B04%22%2C%22g%22%3A%22B03%22%7D)"
  /\ layersParse12 inherited_text insert_layer default_layers permalink
       (single_layer_config "HLS_Customizable")
     = ([("HLS_Customizable", defaultSpec)], [PushEvent "HLS_Customizable"])
  /\ bandCombo defaultSpec = None.
Proof. cbn zeta. split; [reflexivity|]. split; reflexivity. Qed.

End CodecFacts.

(** ** Order kept by the date builders *)

Section OrderKeeping.
Import ESDate Util Layers.

Lemma lastDateInOrder_loop_all_popped t later :
  Forall (fun y => t <= y) later ->
  lastDateInOrder_loop t (length later) later false = [].
Proof.
  induction later as [|y later IH] using rev_ind; intros Hl; [done|].
  apply Forall_app in Hl as [Hl Hy]. inversion_clear Hy as [|? ? Hy' _].
  rewrite length_app, Nat.add_comm. cbn.
  replace (length later) with (length later + 0)%nat at 1 by lia.
  rewrite lookup_app_r, Nat.add_comm by lia.
  replace (0 + length later - length later)%nat with 0%nat by lia. cbn.
  destruct (Z.leb_spec t y); [|lia].
  rewrite removelast_last. by apply IH.
Qed.

Lemma sorted_split t l :
  StronglySorted Z.lt l ->
  l = List.filter (fun x => x <? t) l ++ List.filter (fun x => t <=? x) l
  /\ Forall (fun x => x < t) (List.filter (fun x => x <? t) l)
  /\ Forall (fun y => t <= y) (List.filter (fun x => t <=? x) l).
Proof.
  intros Hs. split; [|split].
  - induction Hs as [|x l Hs IH Hx]; [done|]. cbn [List.filter].
    destruct (Z.ltb_spec x t), (Z.leb_spec t x); try lia.
    + cbn. by rewrite <- IH.
    + assert (List.filter (fun x0 => x0 <? t) l = []) as ->.
      { clear IH Hs. induction l as [|y l IHl]; [done|]. inversion_clear Hx. cbn.
        destruct (Z.ltb_spec y t); [lia|]. by apply IHl. }
      cbn. f_equal. rewrite IH at 1.
      assert (List.filter (fun x0 => x0 <? t) l = []) as ->; [|done].
      clear IH Hs. induction l as [|y l IHl]; [done|]. inversion_clear Hx. cbn.
      destruct (Z.ltb_spec y t); [lia|]. by apply IHl.
  - apply List.Forall_forall. intros x [_ Hx%Z.ltb_lt]%filter_In. done.
  - apply List.Forall_forall. intros x [_ Hx%Z.leb_le]%filter_In. done.
Qed.

Lemma sorted_filter (f : Z -> bool) l :
  StronglySorted Z.lt l -> StronglySorted Z.lt (List.filter f l).
Proof.
  induction 1 as [|x l Hs IH Hx]; cbn; [constructor|].
  destruct (f x); [|done]. constructor; [done|].
  apply List.Forall_forall. intros y [Hy _]%filter_In.
  rewrite List.Forall_forall in Hx. by apply Hx.
Qed.

Lemma sorted_snoc l x :
  StronglySorted Z.lt l -> Forall (fun y => y < x) l -> StronglySorted Z.lt (l ++ [x]).
Proof.
  induction 1 as [|y l Hs IH Hy]; intros Hl; cbn.
  - repeat constructor.
  - inversion_clear Hl as [|? ? Hyx Hl']. constructor; [by apply IH|].
    apply Forall_app. split; [done|]. by constructor.
Qed.

(** X1. [getDateArrayLastDateInOrder] on a strictly ascending array whose
    last date is after the new one: the dates that are not before the new
    date are removed and the new date is pushed after the earlier ones; when
    no earlier date remains the result is empty and the new date is not
    pushed.  The result is strictly ascending. *)
Theorem getDateArrayLastDateInOrder_keeps_order timeUnit dateArray lastDate :
  StronglySorted Z.lt dateArray ->
  last dateArray = Some lastDate ->
  timeUnit < lastDate ->
  let earlier := List.filter (fun x => x <? timeUnit) dateArray in
  getDateArrayLastDateInOrder timeUnit dateArray
  = match earlier with [] => [] | _ => earlier ++ [timeUnit] end
  /\ StronglySorted Z.lt (getDateArrayLastDateInOrder timeUnit dateArray).
Proof.
  intros Hs Hlast Hlt earlier.
  destruct (sorted_split timeUnit dateArray Hs) as (Hsplit & Hpre & Hlater).
  fold earlier in Hsplit, Hpre.
  assert (Heq : getDateArrayLastDateInOrder timeUnit dateArray
                = match earlier with [] => [] | _ => earlier ++ [timeUnit] end).
  { unfold getDateArrayLastDateInOrder, last_date. rewrite Hlast.
    destruct (Z.ltb_spec timeUnit lastDate); [|lia].
    rewrite Hsplit at 1 2.
    set (later := List.filter (fun x => timeUnit <=? x) dateArray) in *.
    destruct earlier as [|x earlier' _] using rev_ind.
    - cbn. by apply lastDateInOrder_loop_all_popped.
    - apply Forall_app in Hpre as [_ Hx]. inversion_clear Hx as [|? ? Hx' _].
      rewrite <- app_assoc. cbn [app].
      rewrite lastDateInOrder_loop_pops by done.
      destruct (earlier' ++ [x]) eqn:E; [by destruct earlier'|].
      rewrite <- E. by rewrite <- app_assoc. }
  split; [done|]. rewrite Heq.
  assert (Hse : StronglySorted Z.lt earlier) by (by apply sorted_filter).
  clearbody earlier. destruct earlier as [|z e']; [constructor|].
  by apply sorted_snoc.
Qed.
End OrderKeeping.

(** ** Steps of the calendar *)

Section StepFacts.
Import ESDate Util Layers.

Lemma MakeDay_date_step y m d n : MakeDay y m (d + n) = MakeDay y m d + n.
Proof. unfold MakeDay. lia. Qed.

Lemma newDate3_date_step tzo y m d n :
  newDate3 tzo y m (d + n) = newDate3 tzo y m d + n * msPerDay.
Proof.
  unfold newDate3, newDate, UTC, MakeDate. rewrite MakeDay_date_step. lia.
Qed.

(** Evaluation of the month table at closed arguments. *)
Ltac compute_table :=
  repeat match goal with
         | |- context [DaysBeforeMonth ?b ?k] =>
             let v := eval vm_compute in (DaysBeforeMonth b k) in
             change (DaysBeforeMonth b k) with v
         end.

Lemma MakeDay_month_step y m d :
  28 <= MakeDay y (m + 1) d - MakeDay y m d <= 31.
Proof.
  unfold MakeDay.
  assert (Hm : 0 <= m mod 12 < 12) by (apply Z.mod_pos_bound; lia).
  destruct (Z.eq_dec (m mod 12) 11) as [H11|H11].
  - assert ((m + 1) / 12 = m / 12 + 1) as -> by (Z.div_mod_to_equations; lia).
    assert ((m + 1) mod 12 = 0) as -> by (Z.div_mod_to_equations; lia).
    rewrite H11. replace (y + (m / 12 + 1)) with (y + m / 12 + 1) by lia.
    rewrite DayFromYear_succ. unfold DaysInYear.
    generalize (DayFromYear (y + m / 12)). intros D.
    destruct (InLeapYear (y + m / 12)), (InLeapYear (y + m / 12 + 1));
      compute_table; lia.
  - assert ((m + 1) / 12 = m / 12) as -> by (Z.div_mod_to_equations; lia).
    assert ((m + 1) mod 12 = m mod 12 + 1) as -> by (Z.div_mod_to_equations; lia).
    generalize (DayFromYear (y + m / 12)). intros D.
    generalize dependent (m mod 12). intros k Hk Hk11.
    assert (k = 0 \/ k = 1 \/ k = 2 \/ k = 3 \/ k = 4 \/ k = 5 \/ k = 6 \/ k = 7
            \/ k = 8 \/ k = 9 \/ k = 10) as Hc by lia.
    destruct (InLeapYear (y + m / 12));
      repeat (destruct Hc as [->|Hc]; [compute_table; lia|]);
      subst; compute_table; lia.
Qed.

Lemma MakeDay_month_mono y d m1 m2 :
  m1 < m2 -> MakeDay y m1 d < MakeDay y m2 d.
Proof.
  intros H. replace m2 with (m1 + 1 + Z.of_nat (Z.to_nat (m2 - m1 - 1))) by lia.
  induction (Z.to_nat (m2 - m1 - 1)) as [|n IH].
  - pose proof (MakeDay_month_step y m1 d). replace (m1 + 1 + Z.of_nat 0) with (m1 + 1) by lia. lia.
  - pose proof (MakeDay_month_step y (m1 + 1 + Z.of_nat n) d).
    replace (m1 + 1 + Z.of_nat (S n)) with (m1 + 1 + Z.of_nat n + 1) by lia. lia.
Qed.

Lemma MakeDay_year_step y m d :
  364 <= MakeDay (y + 1) m d - MakeDay y m d <= 367.
Proof.
  unfold MakeDay. replace (y + 1 + m / 12) with (y + m / 12 + 1) by lia.
  rewrite DayFromYear_succ. unfold DaysInYear.
  assert (Hm : 0 <= m mod 12 < 12) by (apply Z.mod_pos_bound; lia).
  generalize (DayFromYear (y + m / 12)). intros D.
  generalize dependent (m mod 12). intros k Hk.
  assert (k = 0 \/ k = 1 \/ k = 2 \/ k = 3 \/ k = 4 \/ k = 5 \/ k = 6 \/ k = 7
          \/ k = 8 \/ k = 9 \/ k = 10 \/ k = 11) as Hc by lia.
  destruct (InLeapYear (y + m / 12)), (InLeapYear (y + m / 12 + 1));
    repeat (destruct Hc as [->|Hc]; [unfold DaysBeforeMonth; cbn; lia|]);
      subst; unfold DaysBeforeMonth; cbn; lia.
Qed.

Lemma MakeDay_year_mono m d y1 y2 :
  y1 < y2 -> MakeDay y1 m d < MakeDay y2 m d.
Proof.
  intros H. replace y2 with (y1 + 1 + Z.of_nat (Z.to_nat (y2 - y1 - 1))) by lia.
  induction (Z.to_nat (y2 - y1 - 1)) as [|n IH].
  - pose proof (MakeDay_year_step y1 m d). replace (y1 + 1 + Z.of_nat 0) with (y1 + 1) by lia. lia.
  - pose proof (MakeDay_year_step (y1 + 1 + Z.of_nat n) m d).
    replace (y1 + 1 + Z.of_nat (S n)) with (y1 + 1 + Z.of_nat n + 1) by lia. lia.
Qed.
End StepFacts.

(** ** The yearly, monthly and daily builders *)

Section BuilderFacts.
Import ESDate Util Layers.

Lemma fold_left_push (p : Z -> bool) (f : Z -> Z) idxs : forall arr,
  fold_left (fun a i => if p i then a ++ [f i] else a) idxs arr
  = arr ++ map f (List.filter p idxs).
Proof.
  induction idxs as [|i idxs IH]; intros arr; cbn [fold_left List.filter map].
  - by rewrite app_nil_r.
  - rewrite IH. destruct (p i); [|done]. by rewrite <- app_assoc.
Qed.

Lemma sorted_seqZ m n : StronglySorted Z.lt (seqZ m n) /\ Forall (fun i => m <= i) (seqZ m n).
Proof.
  split.
  - unfold seqZ. generalize (Z.to_nat n). intros k. generalize 0%nat.
    induction k as [|k IH]; intros s; cbn; [constructor|].
    constructor; [apply IH|].
    apply List.Forall_forall. intros x Hx. apply in_map_iff in Hx as (j & <- & Hj).
    apply in_seq in Hj. lia.
  - apply List.Forall_forall. intros x Hx%list_elem_of_In%elem_of_seqZ. lia.
Qed.

Lemma sorted_map_mono (f : Z -> Z) (P : Z -> Prop) l :
  (forall a b, P a -> P b -> a < b -> f a < f b) ->
  Forall P l -> StronglySorted Z.lt l -> StronglySorted Z.lt (map f l).
Proof.
  intros Hf HP Hs. induction Hs as [|x l Hs IH Hx]; cbn; [constructor|].
  inversion_clear HP as [|? ? Px Pl]. constructor; [by apply IH|].
  apply List.Forall_forall. intros y Hy. apply in_map_iff in Hy as (z & <- & Hz).
  rewrite List.Forall_forall in Hx, Pl. apply Hf; auto.
Qed.

Lemma loop_indices_sorted bound k :
  StronglySorted Z.lt (loop_indices bound k)
  /\ Forall (fun i => 0 <= i) (loop_indices bound k).
Proof.
  unfold loop_indices. destruct bound as [b|]; [|by split; constructor].
  destruct (b + 1 <? 0); [by split; constructor|].
  destruct (sorted_seqZ 0 ((b + 1) / Z.pos k + 1)) as [Hs Hn]. split.
  - change (StronglySorted Z.lt (map (fun j => j * Z.pos k) (seqZ 0 ((b + 1) / Z.pos k + 1)))).
    eapply sorted_map_mono; [|apply Hn|apply Hs]. cbn. intros. nia.
  - change (Forall (fun i => 0 <= i) (map (fun j => j * Z.pos k) (seqZ 0 ((b + 1) / Z.pos k + 1)))).
    apply List.Forall_forall. intros y Hy. apply in_map_iff in Hy as (z & <- & Hz).
    rewrite List.Forall_forall in Hn. specialize (Hn z Hz). cbn in Hn. nia.
Qed.

(** The dates a loop of a builder pushes, for a step that grows with the
    index. *)
Lemma stepped_dates_sorted (f : Z -> Z) (p : Z -> bool) bound k :
  (forall i j, 0 <= i -> i < j -> f i < f j) ->
  StronglySorted Z.lt (map f (List.filter p (loop_indices bound k))).
Proof.
  intros Hf. destruct (loop_indices_sorted bound k) as [Hs Hn].
  eapply (sorted_map_mono f (fun i => 0 <= i)).
  - intros a b Ha _ Hab. by apply Hf.
  - apply List.Forall_forall. intros x [Hx _]%filter_In.
    rewrite List.Forall_forall in Hn. by apply Hn.
  - by apply sorted_filter.
Qed.

Lemma getYearDateRange_appends tzo currentDateTime minDate maxDate k dateArray :
  100 <= YearFromTime minDate ->
  exists new,
    getYearDateRange tzo currentDateTime minDate maxDate k dateArray = dateArray ++ new
    /\ StronglySorted Z.lt new.
Proof.
  intros Hy. unfold getYearDateRange.
  set (mn := getUTCNumbers minDate). set (mx := getUTCNumbers maxDate).
  set (idxs := loop_indices _ 1).
  rewrite (fold_left_push
             (fun i => newDate3 tzo (Year mn + i * Z.pos k) (Month mn) (Day_ mn)
                       <? newDate3 tzo (Year mx + Z.pos k) (Month mx) (Day_ mx))
             (fun i => getTimezoneOffsetDate tzo
                         (newDate3 tzo (Year mn + i * Z.pos k) (Month mn) (Day_ mn)))).
  eexists. split; [done|]. apply stepped_dates_sorted.
  intros i j Hi Hij. rewrite !getTimezoneOffsetDate_newDate3.
  unfold DateUTC, MakeDate. cbn [Year mn getUTCNumbers].
  assert (Hmk : MakeDay (MakeFullYear (YearFromTime minDate + i * Z.pos k)) (Month mn) (Day_ mn)
                < MakeDay (MakeFullYear (YearFromTime minDate + j * Z.pos k)) (Month mn) (Day_ mn)).
  { apply MakeDay_year_mono. unfold MakeFullYear.
    destruct (Z.leb_spec 0 (YearFromTime minDate + i * Z.pos k)),
             (Z.leb_spec (YearFromTime minDate + i * Z.pos k) 99),
             (Z.leb_spec 0 (YearFromTime minDate + j * Z.pos k)),
             (Z.leb_spec (YearFromTime minDate + j * Z.pos k) 99); cbn; nia. }
  unfold msPerDay. lia.
Qed.

Lemma getMonthDateRange_appends tzo o :
  limits o = None ->
  exists new,
    getMonthDateRange tzo o = dateArray o ++ new /\ StronglySorted Z.lt new.
Proof.
  intros Hl. unfold getMonthDateRange. rewrite Hl.
  set (mn := getUTCNumbers (minDate o)). set (mx := getUTCNumbers (maxDate o)).
  set (idxs := loop_indices _ 1).
  rewrite bool_decide_eq_false_2 by (by intros [? ?]).
  unfold push_stepped.
  rewrite (fold_left_push
             (fun i => getTimezoneOffsetDate tzo
                         (newDate3 tzo (Year mn) (Month mn + i * Z.pos (dateIntervalNum o)) (Day_ mn))
                       <? getTimezoneOffsetDate tzo
                            (newDate3 tzo (Year mx) (Month mx + Z.pos (dateIntervalNum o)) (Day_ mx)))
             (fun i => getTimezoneOffsetDate tzo
                         (newDate3 tzo (Year mn) (Month mn + i * Z.pos (dateIntervalNum o)) (Day_ mn)))).
  eexists. split; [done|]. apply stepped_dates_sorted.
  intros i j Hi Hij. rewrite !getTimezoneOffsetDate_newDate3.
  unfold DateUTC, MakeDate.
  assert (Hmk : MakeDay (MakeFullYear (Year mn)) (Month mn + i * Z.pos (dateIntervalNum o)) (Day_ mn)
                < MakeDay (MakeFullYear (Year mn)) (Month mn + j * Z.pos (dateIntervalNum o)) (Day_ mn)).
  { apply MakeDay_month_mono. nia. }
  unfold msPerDay. lia.
Qed.

Lemma getDayDateRange_appends tzo o :
  limits o = None ->
  exists new,
    getDayDateRange tzo o = dateArray o ++ new /\ StronglySorted Z.lt new.
Proof.
  intros Hl. unfold getDayDateRange. rewrite Hl.
  set (mn := getUTCNumbers (minDate o)). set (mx := getUTCNumbers (maxDate o)).
  set (idxs := loop_indices _ 1).
  rewrite bool_decide_eq_false_2 by (by intros [? ?]).
  unfold push_stepped.
  rewrite (fold_left_push
             (fun i => getTimezoneOffsetDate tzo
                         (newDate3 tzo (Year mn) (Month mn) (Day_ mn + i * Z.pos (dateIntervalNum o)))
                       <? newDate3 tzo (Year mx) (Month mx) (Day_ mx + Z.pos (dateIntervalNum o)))
             (fun i => getTimezoneOffsetDate tzo
                         (newDate3 tzo (Year mn) (Month mn) (Day_ mn + i * Z.pos (dateIntervalNum o))))).
  eexists. split; [done|]. apply stepped_dates_sorted.
  intros i j Hi Hij. rewrite !newDate3_date_step.
  unfold getTimezoneOffsetDate, msPerDay. nia.
Qed.
End BuilderFacts.

(** ** The subdaily builder *)

Section SubdailyFacts.
Import ESDate Util Layers.

Lemma sorted_last_max l y :
  StronglySorted Z.lt l -> last l = Some y -> Forall (fun x => x <= y) l.
Proof.
  induction 1 as [|x l Hs IH Hx]; [done|]. destruct l as [|z l'].
  - cbn. intros [= ->]. by repeat constructor.
  - rewrite last_cons_cons. intros Hy. specialize (IH Hy).
    constructor; [|done].
    inversion_clear Hx as [|? ? Hxz _]. inversion_clear IH as [|? ? Hzy _]. lia.
Qed.

Lemma sorted_push_after_last l x :
  StronglySorted Z.lt l ->
  match last l with Some y => y <? x | None => true end = true ->
  StronglySorted Z.lt (l ++ [x]).
Proof.
  intros Hs Hx. apply sorted_snoc; [done|].
  destruct (last l) as [y|] eqn:Hy.
  - apply Z.ltb_lt in Hx. eapply Forall_impl; [by apply sorted_last_max|].
    cbn. intros. lia.
  - apply last_None in Hy. subst. constructor.
Qed.

Lemma getSubdailyDateRange_appends_sorted tzo o :
  StronglySorted Z.lt (dateArray o) ->
  exists new,
    getSubdailyDateRange tzo o = dateArray o ++ new
    /\ StronglySorted Z.lt (getSubdailyDateRange tzo o).
Proof.
  intros Hs. unfold getSubdailyDateRange.
  destruct (match limits o with Some _ => _ | None => _ end) as [hb ha].
  cbv zeta.
  match goal with |- context [fold_left ?f ?l (dateArray o)] =>
    set (body := f); generalize l end.
  intros idxs.
  assert (H : forall arr, StronglySorted Z.lt arr ->
            exists new, fold_left body idxs arr = arr ++ new
                        /\ StronglySorted Z.lt (fold_left body idxs arr)).
  { induction idxs as [|i idxs IH]; intros arr Harr; cbn [fold_left].
    - exists []. by rewrite app_nil_r.
    - unfold body at 2 4. unfold last_date.
      match goal with |- context [if ?c then _ else _] => destruct c eqn:Hc end.
      + apply andb_true_iff in Hc as [_ Hc].
        match goal with |- context [arr ++ [?x]] =>
          destruct (IH (arr ++ [x])) as (new & Hnew & Hsn);
            [by apply sorted_push_after_last|];
            exists (x :: new) end.
        split; [|done]. rewrite Hnew. by rewrite <- app_assoc.
      + by apply IH. }
  by apply H.
Qed.
End SubdailyFacts.

(** ** Layers with a single date range *)

Section SingleRange.
Import ESDate Util Layers.

Lemma YearFromTime_mono t1 t2 : t1 <= t2 -> YearFromTime t1 <= YearFromTime t2.
Proof.
  intros H. unfold YearFromTime. apply YearFromDay_lower.
  pose proof (YearFromDay_spec (Day t1)) as [Hlo _].
  assert (Day t1 <= Day t2); [|lia].
  unfold Day, msPerDay. apply Z.div_le_mono; lia.
Qed.

Lemma datesInDateRanges_before_single tzo def r date sl el appNow :
  dateRanges def = Some [r] ->
  rangeLimits sl el = None ->
  date < startDate r ->
  datesInDateRanges tzo def date sl el appNow = Ret [startDate r].
Proof.
  intros Hr Hl Hlt. unfold datesInDateRanges. rewrite Hr.
  cbn [eachDateRanges]. unfold eachDateRange. rewrite Hl.
  cbn [rs_currentDate rs_dateArray rs_hitMaxLimitOfRange last_date last negb].
  destruct (Z.ltb_spec date (startDate r)); [|lia]. cbn. done.
Qed.

(** X2. A subdaily layer with a single date range of interval one, asked
    without limits for a date that is not before the start of the range,
    raises a [TypeError]: [getBreakMaxDate] has no branch for the subdaily
    period and [getLimitedDateRange] reads the time of its result. *)
Theorem subdaily_limited_mode_throws tzo def r date appNow :
  dateRanges def = Some [r] ->
  dateInterval r = 1%positive ->
  period def = subdaily ->
  startDate r <= date ->
  datesInDateRanges tzo def date None None appNow = TypeError.
Proof.
  intros Hr Hk Hp Hle.
  rewrite (datesInDateRanges_limited _ _ _ _ _ Hr Hk Hle), Hp. reflexivity.
Qed.

Lemma limited_dates_sorted tzo p r date l :
  p <> subdaily ->
  (p = yearly -> 101 <= YearFromTime date) ->
  getLimitedDateRange tzo p r date = Ret l ->
  StronglySorted Z.lt l.
Proof.
  intros Hp Hy.
  destruct (limited_mode_defined tzo p r date Hp) as (bmax & b & c & a & Hmax & Hc).
  destruct (Z_le_dec (startDate r) date) as [Hlo|Hlo];
    [destruct (Z_le_dec date bmax) as [Hhi|Hhi]|].
  - rewrite (getLimitedDateRange_in_range _ _ _ _ _ _ _ _ Hmax Hc (conj Hlo Hhi)).
    intros [= <-].
    assert (Hbc : getTimezoneOffsetDate tzo b < getTimezoneOffsetDate tzo c
                  /\ getTimezoneOffsetDate tzo c < getTimezoneOffsetDate tzo a).
    { unfold limited_candidates, addSubDatesBasedOnPeriod in Hc.
      destruct p; [| | |done]; injection Hc as <- <- <-;
        rewrite !getTimezoneOffsetDate_newDate3; unfold DateUTC, MakeDate, msPerDay.
      - specialize (Hy eq_refl). cbn [Year getUTCNumbers] in *.
        unfold MakeFullYear.
        destruct (Z.leb_spec 0 (YearFromTime date - 1)), (Z.leb_spec (YearFromTime date - 1) 99),
                 (Z.leb_spec 0 (YearFromTime date)), (Z.leb_spec (YearFromTime date) 99),
                 (Z.leb_spec 0 (YearFromTime date + 1)), (Z.leb_spec (YearFromTime date + 1) 99);
          cbn [andb]; try lia.
        pose proof (MakeDay_year_mono (MonthFromTime (startDate r))
                      (DateFromTime (startDate r))
                      (YearFromTime date - 1) (YearFromTime date) ltac:(lia)).
        pose proof (MakeDay_year_mono (MonthFromTime (startDate r))
                      (DateFromTime (startDate r))
                      (YearFromTime date) (YearFromTime date + 1) ltac:(lia)).
        lia.
      - pose proof (MakeDay_month_mono (MakeFullYear (YearFromTime date))
                      (DateFromTime (startDate r))
                      (MonthFromTime date - 1) (MonthFromTime date) ltac:(lia)).
        pose proof (MakeDay_month_mono (MakeFullYear (YearFromTime date))
                      (DateFromTime (startDate r))
                      (MonthFromTime date) (MonthFromTime date + 1) ltac:(lia)).
        lia.
      - unfold MakeDay. lia. }
    destruct (startDate r <=? b), (a <=? bmax); cbn;
      repeat (constructor; try lia).
  - unfold getLimitedDateRange. rewrite Hmax. cbn [getTime obind].
    destruct (Z.leb_spec date bmax); [lia|]. rewrite andb_false_r.
    intros [= <-]. constructor.
  - unfold getLimitedDateRange. rewrite Hmax. cbn [getTime obind].
    destruct (Z.leb_spec (startDate r) date); [lia|]. cbn [andb].
    intros [= <-]. constructor.
Qed.

Lemma single_range_sorted tzo def r date appNow l :
  dateRanges def = Some [r] ->
  (period def = yearly -> 101 <= YearFromTime (startDate r)) ->
  datesInDateRanges tzo def date None None appNow = Ret l ->
  StronglySorted Z.lt l.
Proof.
  intros Hr Hy.
  destruct (Z_lt_dec date (startDate r)) as [Hlt|Hge].
  { rewrite (datesInDateRanges_before_single _ _ _ _ None None _ Hr eq_refl Hlt).
    intros [= <-]. repeat constructor. }
  assert (Hle : startDate r <= date) by lia.
  destruct (Pos.eq_dec (dateInterval r) 1%positive) as [Hk|Hk].
  - rewrite (datesInDateRanges_limited _ _ _ _ _ Hr Hk Hle).
    destruct (decide (period def = subdaily)) as [Hp|Hp]; [by rewrite Hp|].
    apply limited_dates_sorted; [done|].
    intros Hyr. pose proof (YearFromTime_mono _ _ Hle). specialize (Hy Hyr). lia.
  - unfold datesInDateRanges. rewrite Hr. cbn [eachDateRanges]. unfold eachDateRange.
    cbn [rangeLimits rs_currentDate rs_dateArray rs_hitMaxLimitOfRange last_date last].
    destruct (Z.ltb_spec date (startDate r)); [lia|]. cbn [orb andb negb].
    rewrite andb_false_r. unfold resolve_range, singleDateRangeAndInterval.
    cbn [rangeLimits]. apply Pos.eqb_neq in Hk. rewrite Hk.
    cbn [obind rs_dateArray].
    destruct (period def) eqn:Hp; intros [= <-].
    + destruct (getYearDateRange_appends tzo date (startDate r) (endDate r)
                  (dateInterval r) [] ltac:(specialize (Hy eq_refl); lia))
        as (new & -> & Hs). done.
    + match goal with |- StronglySorted _ (getMonthDateRange _ ?o) =>
        destruct (getMonthDateRange_appends tzo o eq_refl) as (new & -> & Hs) end.
      done.
    + match goal with |- StronglySorted _ (getDayDateRange _ ?o) =>
        destruct (getDayDateRange_appends tzo o eq_refl) as (new & -> & Hs) end.
      done.
    + match goal with |- StronglySorted _ (getSubdailyDateRange _ ?o) =>
        destruct (getSubdailyDateRange_appends_sorted tzo o) as (new & _ & Hs) end;
        [constructor|done].
Qed.
Lemma limited_dates_returns tzo p r date :
  p <> subdaily -> exists l, getLimitedDateRange tzo p r date = Ret l.
Proof.
  intros Hp.
  destruct (limited_mode_defined tzo p r date Hp) as (bmax & b & c & a & Hmax & Hc).
  destruct (Z_le_dec (startDate r) date) as [Hlo|Hlo];
    [destruct (Z_le_dec date bmax) as [Hhi|Hhi]|].
  - rewrite (getLimitedDateRange_in_range _ _ _ _ _ _ _ _ Hmax Hc (conj Hlo Hhi)).
    by eexists.
  - unfold getLimitedDateRange. rewrite Hmax. cbn [getTime obind].
    destruct (Z.leb_spec date bmax); [lia|]. rewrite andb_false_r. by eexists.
  - unfold getLimitedDateRange. rewrite Hmax. cbn [getTime obind].
    destruct (Z.leb_spec (startDate r) date); [lia|]. cbn [andb]. by eexists.
Qed.

Lemma single_range_returns tzo def r date appNow :
  dateRanges def = Some [r] ->
  ~ (period def = subdaily /\ dateInterval r = 1%positive /\ startDate r <= date) ->
  exists l, datesInDateRanges tzo def date None None appNow = Ret l.
Proof.
  intros Hr Hn.
  destruct (Z_lt_dec date (startDate r)) as [Hlt|Hge].
  { rewrite (datesInDateRanges_before_single _ _ _ _ None None _ Hr eq_refl Hlt).
    by eexists. }
  assert (Hle : startDate r <= date) by lia.
  destruct (Pos.eq_dec (dateInterval r) 1%positive) as [Hk|Hk].
  - rewrite (datesInDateRanges_limited _ _ _ _ _ Hr Hk Hle).
    apply limited_dates_returns. intros Hp. by apply Hn.
  - unfold datesInDateRanges. rewrite Hr. cbn [eachDateRanges]. unfold eachDateRange.
    cbn [rangeLimits rs_currentDate rs_dateArray rs_hitMaxLimitOfRange last_date last].
    destruct (Z.ltb_spec date (startDate r)); [lia|]. cbn [orb andb negb].
    rewrite andb_false_r. unfold resolve_range, singleDateRangeAndInterval.
    cbn [rangeLimits]. apply Pos.eqb_neq in Hk. rewrite Hk.
    cbn [obind rs_dateArray]. by eexists.
Qed.

(** X3. Without limits, a layer with a single date range is resolved
    without an exception to strictly ascending dates, whatever the period,
    the interval, the requested date and the offset of the host's time zone;
    apart are the subdaily layers of interval one asked for a date not before
    the start, which raise (X2), and, for a yearly layer, a range that starts
    before the year 101: the [Date] constructor maps the years 0..99 to
    1900..1999. *)
Theorem single_range_dates_ascending tzo def r date appNow :
  dateRanges def = Some [r] ->
  (period def = yearly -> 101 <= YearFromTime (startDate r)) ->
  ~ (period def = subdaily /\ dateInterval r = 1%positive /\ startDate r <= date) ->
  exists l,
    datesInDateRanges tzo def date None None appNow = Ret l
    /\ StronglySorted Z.lt l.
Proof.
  intros Hr Hy Hn.
  destruct (single_range_returns tzo def r date appNow Hr Hn) as (l & Hl).
  exists l. split; [done|]. by apply (single_range_sorted tzo def r date appNow).
Qed.
End SingleRange.

(** ** Resolution within limits *)

Section CoverageFacts.
Import ESDate Util Layers.

Lemma eachDateRanges_single_dates tzo def ranges sl el appNow rs st index :
  Forall (fun r => startDate r = endDate r) rs ->
  eachDateRanges tzo def ranges (Some sl) (Some el) appNow st index rs
  = Ret {| rs_dateArray :=
             rs_dateArray st
             ++ List.filter (fun s => (sl <=? s) && (s <=? el)) (startDate <$> rs);
           rs_currentDate := rs_currentDate st;
           rs_hitMaxLimitOfRange := rs_hitMaxLimitOfRange st;
           rs_runningMinDate := rs_runningMinDate st |}.
Proof.
  intros H. revert st index.
  induction H as [|r rs Hr _ IH]; intros st index.
  - cbn. rewrite app_nil_r. by destruct st.
  - cbn [eachDateRanges]. unfold eachDateRange. cbn [rangeLimits].
    rewrite <- Hr, Z.eqb_refl. cbn [obind]. rewrite IH.
    cbn [rs_dateArray rs_currentDate rs_hitMaxLimitOfRange rs_runningMinDate
         fmap list_fmap List.filter].
    destruct ((sl <=? startDate r) && (startDate r <=? el));
      by rewrite <- ?app_assoc.
Qed.

(** X4. With limits, a layer all of whose date ranges are single dates
    (the start is the end) resolves to the starts that lie within the
    limits, both ends included, in the order of the ranges; the requested
    date, the period and the intervals play no part. *)
Theorem single_date_ranges_within_limits tzo def rs date sl el appNow :
  dateRanges def = Some rs ->
  Forall (fun r => startDate r = endDate r) rs ->
  datesInDateRanges tzo def date (Some sl) (Some el) appNow
  = Ret (List.filter (fun s => (sl <=? s) && (s <=? el)) (startDate <$> rs)).
Proof.
  intros Hr H. unfold datesInDateRanges. rewrite Hr.
  by rewrite (eachDateRanges_single_dates _ _ _ _ _ _ _ _ _ H).
Qed.

Lemma getMinStartDate_step_found tzo period k lim y m d r p l :
  fold_left (getMinStartDate_step tzo period k lim y m d) l (Some r, p) = (Some r, p).
Proof. induction l as [|i l IH]; [done|]. cbn. apply IH. Qed.

Lemma getMinStartDate_fold tzo period k lim y m d res (len : nat) :
  let unit := fun i =>
    getTimezoneOffsetDate tzo
      match period with
      | monthly => newDate3 tzo y (m + i * Z.pos k) d
      | _ => newDate3 tzo y m (d + i * Z.pos k)
      end in
  forall a prev,
  (prev = None \/ (prev = Some (unit (a - 1)) /\ unit (a - 1) <= lim /\ 1 <= a)) ->
  0 <= a ->
  fst (fold_left (getMinStartDate_step tzo period k lim y m d)
         ((fun j => j * 1) <$> seqZ a (Z.of_nat len)) (None, prev)) = Some res ->
  exists i, 0 <= i /\ i + 1 < a + Z.of_nat len
            /\ res = unit i /\ unit i <= lim /\ lim < unit (i + 1).
Proof.
  intros unit. induction len as [|len IH]; intros a prev Hprev Ha.
  - cbn. discriminate.
  - rewrite seqZ_cons by lia. cbn [fmap list_fmap fold_left].
    rewrite Z.mul_1_r.
    replace (Z.pred (Z.of_nat (S len))) with (Z.of_nat len) by lia.
    unfold getMinStartDate_step at 2. fold (unit a).
    destruct (Z.ltb_spec lim (unit a)) as [Hgt|Hle].
    + destruct Hprev as [->|(-> & Hp & Ha1)].
      * intros H. destruct (IH (Z.succ a) None (or_introl eq_refl) ltac:(lia) H)
          as (i & ? & ? & ? & ? & ?).
        exists i. repeat split; try done; lia.
      * rewrite getMinStartDate_step_found. cbn [fst]. intros [= <-].
        exists (a - 1). replace (a - 1 + 1) with a by lia.
        repeat split; try done; lia.
    + intros H.
      destruct (IH (Z.succ a) (Some (unit a))) as (i & ? & ? & ? & ? & ?);
        [right; replace (Z.succ a - 1) with a by lia; repeat split; try done; lia
        |lia|exact H|].
      exists i. repeat split; try done; lia.
Qed.

(** X5. When [getMinStartDate] returns a date, it is the stepped date of
    an index [i <= timeDiff] that is not after the start limit while the
    stepped date of [i + 1] is after it: the last step that does not pass
    the limit. *)
Theorem getMinStartDate_last_step_before_limit tzo timeDiff period k lim y m d res :
  let unit := fun i =>
    getTimezoneOffsetDate tzo
      match period with
      | monthly => newDate3 tzo y (m + i * Z.pos k) d
      | _ => newDate3 tzo y m (d + i * Z.pos k)
      end in
  period = monthly \/ period = daily ->
  getMinStartDate tzo timeDiff period k lim y m d = Some res ->
  exists i, 0 <= i <= timeDiff
            /\ res = unit i /\ unit i <= lim /\ lim < unit (i + 1).
Proof.
  intros unit _. unfold getMinStartDate, loop_indices.
  destruct (Z.ltb_spec (timeDiff + 1) 0) as [|Hnn]; [discriminate|].
  rewrite Z.div_1_r. intros H.
  replace (timeDiff + 1 + 1) with (Z.of_nat (Z.to_nat (timeDiff + 1 + 1))) in H by lia.
  destruct (getMinStartDate_fold tzo period k lim y m d res _ 0 None
              (or_introl eq_refl) ltac:(lia) H) as (i & ? & ? & ? & ? & ?).
  exists i. repeat split; try done; lia.
Qed.
End CoverageFacts.

(** ** What the dynamic range adjustment keeps *)

Section AdjustFrame.
Import ESDate Util Layers.

Lemma toISOStringSeconds_le t : toISOStringSeconds t <= t.
Proof.
  unfold toISOStringSeconds, msPerSecond.
  pose proof (Z.mod_pos_bound t 1000 ltac:(lia)). lia.
Qed.

Lemma YearFromTime_lt_time t1 t2 :
  YearFromTime t1 < YearFromTime t2 -> t1 < t2.
Proof.
  intros H. destruct (Z_lt_dec t1 t2) as [|Hge]; [done|].
  pose proof (YearFromTime_mono t2 t1 ltac:(lia)). lia.
Qed.

Lemma replaced_range_end appNow r :
  endDate r <= appNow -> endDate (replaced_range appNow r) <= appNow.
Proof.
  intros Hr. unfold replaced_range.
  destruct (_ =? _); cbn [endDate]; [apply toISOStringSeconds_le|].
  destruct (_ <? _) eqn:Hs; [|done].
  destruct (Z.ltb_spec (YearFromTime (endDate r)) (YearFromTime appNow)) as [He|];
    [|done].
  cbn [andb endDate]. apply Z.lt_le_incl, YearFromTime_lt_time.
  by rewrite YearFromTime_endOfYear.
Qed.

Lemma pushed_range_before appNow r p :
  pushed_range appNow r = Some p ->
  startDate p < appNow /\ endDate p <= appNow.
Proof.
  unfold pushed_range. destruct (_ <? YearFromTime appNow); [|done].
  destruct (Z.ltb_spec (setUTCFullYear (startDate r) (YearFromTime (startDate r) + 1))
                       appNow) as [Hs|]; [|done].
  cbn [andb]. intros Heq. apply (inj Some) in Heq. rewrite <- Heq.
  cbn [startDate endDate]. split.
  - pose proof (toISOStringSeconds_le
                  (setUTCFullYear (startDate r) (YearFromTime (startDate r) + 1))). lia.
  - destruct (Z.ltb_spec (setUTCFullYear (endDate r) (YearFromTime (endDate r) + 1))
                         appNow).
    + pose proof (toISOStringSeconds_le
                    (setUTCFullYear (endDate r) (YearFromTime (endDate r) + 1))). lia.
    + apply toISOStringSeconds_le.
Qed.

Lemma range_chain_frame appNow n : forall r,
  exists new,
    range_chain n appNow r = replaced_range appNow r :: new
    /\ Forall (fun x => startDate x < appNow /\ endDate x <= appNow
                        /\ dateInterval x = dateInterval r) new.
Proof.
  induction n as [|n IH]; intros r.
  - exists []. split; [|constructor]. cbn. by destruct (pushed_range appNow r).
  - cbn [range_chain]. destruct (pushed_range appNow r) as [p|] eqn:Hp.
    + destruct (IH p) as (new & -> & Hnew).
      destruct (pushed_range_before _ _ _ Hp) as [Hs He].
      destruct (pushed_range_later _ _ _ Hp) as (_ & _ & Hk).
      exists (replaced_range appNow p :: new). split; [done|].
      constructor.
      * rewrite replaced_range_start, replaced_range_interval.
        split; [done|]. split; [by apply replaced_range_end|done].
      * eapply Forall_impl; [exact Hnew|]. cbn. intros x (? & ? & ?).
        repeat split; try done. congruence.
    + exists []. split; [done|constructor].
Qed.

Lemma adjust_ranges_frame appNow rs :
  exists rs' new,
    adjust_ranges appNow rs = Some rs'
    /\ startDate <$> rs' = (startDate <$> rs) ++ (startDate <$> new)
    /\ dateInterval <$> rs' = (dateInterval <$> rs) ++ (dateInterval <$> new)
    /\ take (length rs - 1) rs' = take (length rs - 1) rs
    /\ Forall (fun x => startDate x < appNow /\ endDate x <= appNow) new.
Proof.
  destruct rs as [|r pre _] using rev_ind.
  - exists [], []. rewrite adjust_ranges_nil. repeat split; done.
  - rewrite adjust_ranges_snoc.
    replace (length (pre ++ [r]) - 1)%nat with (length pre)
      by (rewrite length_app; cbn; lia).
    destruct (1 <? Z.pos (dateInterval r)).
    + destruct (range_chain_frame appNow (years_left appNow r) r) as (new & -> & Hnew).
      exists (pre ++ replaced_range appNow r :: new), new.
      split; [done|].
      rewrite !fmap_app. cbn [fmap list_fmap].
      rewrite replaced_range_start, replaced_range_interval, <- !app_assoc.
      repeat split; try done.
      * by rewrite !take_app_length.
      * eapply Forall_impl; [exact Hnew|]. cbn. tauto.
    + exists (pre ++ [r]), []. rewrite !app_nil_r.
      repeat split; done.
Qed.

End AdjustFrame.


(** ** Overlap detection and the order of its input *)

Section OverlapOrder.
Import ESDate Util Layers.

Lemma sorted_perm_unique (l1 l2 : list DateRange) :
  Permutation l1 l2 ->
  NoDup (startDate <$> l1) ->
  StronglySorted start_le l1 ->
  StronglySorted start_le l2 ->
  l1 = l2.
Proof.
  revert l2. induction l1 as [|x l1 IH]; intros l2 Hp Hnd Hs1 Hs2.
  - by apply Permutation_nil in Hp.
  - destruct l2 as [|y l2]; [by apply Permutation_sym, Permutation_nil in Hp|].
    apply StronglySorted_inv in Hs1 as [Hs1 Hx].
    apply StronglySorted_inv in Hs2 as [Hs2 Hy].
    cbn [fmap list_fmap] in Hnd. apply NoDup_cons in Hnd as [Hxn Hnd].
    assert (Hxy : x = y).
    { assert (Hyin : y ∈ x :: l1) by (rewrite Hp; left).
      assert (Hxin : x ∈ y :: l2) by (rewrite <- Hp; left).
      apply elem_of_cons in Hyin as [->|Hyin]; [done|].
      apply elem_of_cons in Hxin as [->|Hxin]; [done|].
      rewrite List.Forall_forall in Hx, Hy.
      apply list_elem_of_In in Hyin, Hxin.
      pose proof (Hx _ Hyin) as H1. pose proof (Hy _ Hxin) as H2.
      unfold start_le in H1, H2.
      exfalso. apply Hxn. apply list_elem_of_fmap. exists y.
      split; [lia|by apply list_elem_of_In]. }
    subst y. f_equal. apply IH; try done.
    by apply Permutation_cons_inv in Hp.
Qed.

(** X7. For date ranges with pairwise distinct starts, the result of
    [dateOverlap] and the content it leaves in the array do not depend on
    the order in which the ranges are given. *)
Theorem dateOverlap_order_independent tzo p rs1 rs2 :
  Permutation rs1 rs2 ->
  NoDup (startDate <$> rs1) ->
  dateOverlap tzo p rs1 = dateOverlap tzo p rs2.
Proof.
  intros Hp Hnd. unfold dateOverlap.
  assert (array_sort compareStartDate rs1 = array_sort compareStartDate rs2) as ->;
    [|done].
  apply sorted_perm_unique; try apply array_sort_sorted.
  - by rewrite !array_sort_perm.
  - eapply NoDup_Permutation_proper; [|exact Hnd].
    apply fmap_Permutation, array_sort_perm.
Qed.

(** X8. Calling [dateOverlap] again on the array it has sorted gives the
    same result and leaves the array as it is. *)
Theorem dateOverlap_twice tzo p rs :
  dateOverlap tzo p (snd (dateOverlap tzo p rs)) = dateOverlap tzo p rs.
Proof.
  unfold dateOverlap. cbn [snd].
  by rewrite (array_sort_fixed _ (array_sort_sorted rs)).
Qed.
End OverlapOrder.

(** ** Attributes and the v1.1 parser *)

Section CodecExtras.
Import JSString Codec.
Local Open Scope string_scope.

Lemma when_id_other name attr f s :
  String.eqb (attr_id attr) name = false -> when_id name attr f s = mret s.
Proof. unfold when_id. by intros ->. Qed.

Lemma getLayerSpec_attr_other s a :
  existsb (String.eqb (attr_id a))
    ["hidden"; "opacity"; "disabled"; "max"; "min"; "squash"; "bands";
     "palette"; "style"; "count"] = false ->
  getLayerSpec_attr s a = mret s.
Proof.
  cbn [existsb]. rewrite !orb_false_iff.
  intros (? & ? & ? & ? & ? & ? & ? & ? & ? & ? & _).
  unfold getLayerSpec_attr.
  by repeat (rewrite when_id_other by done; rewrite ?mbind_ret).
Qed.

(** X9. [getLayerSpec] reads the ten keys hidden, opacity, disabled, max,
    min, squash, bands, palette, style and count only: attributes with any
    other key change neither the specification, nor the outcome, nor the
    warnings. *)
Theorem getLayerSpec_ignores_other_keys attributes :
  let spec_key := fun a =>
    existsb (String.eqb (attr_id a))
      ["hidden"; "opacity"; "disabled"; "max"; "min"; "squash"; "bands";
       "palette"; "style"; "count"] in
  getLayerSpec attributes = getLayerSpec (List.filter spec_key attributes).
Proof.
  intros spec_key. unfold getLayerSpec. generalize defaultSpec.
  induction attributes as [|a l IH]; intros s; [done|].
  cbn [List.filter]. destruct (spec_key a) eqn:Ha.
  - rewrite !foldM_cons. destruct (getLayerSpec_attr s a) as [[s'|] tr]; [|done].
    unfold mbind. by rewrite IH.
  - rewrite foldM_cons, (getLayerSpec_attr_other s a Ha), mbind_ret. apply IH.
Qed.

Section V1.
Context {CatalogLayer ActiveLayer : Type}.
Variable inherited_text : string -> string.
Variable addLayer :
  string -> LayerSpec -> list ActiveLayer -> Config CatalogLayer -> list ActiveLayer.
Variable config : Config CatalogLayer.

Lemma foldM_parse11_id_closed tokens : forall acc,
  let id_of := v1_token_id inherited_text config in
  let named := List.filter (fun t => negb (is_group_token t)) tokens in
  foldM (parse11_id inherited_text config) acc tokens
  = (Ret (acc ++ ((fun t => mkLstate (id_of t)
                              (if startsWith_bang t then [mkAttr "hidden" VTrue] else []))
                  <$> List.filter (fun t => known config (id_of t)) named))%list,
     (fun t => if known config (id_of t)
               then PushEvent (id_of t)
               else Warn ("No such layer: " ++ id_of t)) <$> named).
Proof.
  induction tokens as [|tok tokens IH]; intros acc; cbn zeta.
  - cbn. by rewrite app_nil_r.
  - rewrite foldM_cons. unfold parse11_id at 1. cbn [List.filter].
    fold (is_group_token tok). destruct (is_group_token tok); cbn [negb].
    { rewrite mbind_ret. apply IH. }
    cbn [List.filter fmap list_fmap]. fold (v1_token_id inherited_text config tok).
    destruct (known config (v1_token_id inherited_text config tok)); cbn [negb].
    + unfold mbind, emit, mret. cbn [app]. rewrite IH. cbn [fmap list_fmap app].
      rewrite <- app_assoc. by destruct (startsWith_bang tok).
    + unfold mbind, emit, mret. cbn [app]. by rewrite IH.
Qed.

Lemma foldM_createLayer_v1 toks : forall arr0,
  let id_of := v1_token_id inherited_text config in
  Forall (fun t => known config (id_of t) = true) toks ->
  foldM (createLayer_step addLayer config) arr0
    ((fun t => mkLstate (id_of t)
                 (if startsWith_bang t then [mkAttr "hidden" VTrue] else [])) <$> toks)
  = (Ret (fold_left
            (fun arr t =>
               addLayer (id_of t)
                 (if startsWith_bang t then set_hidden true defaultSpec else defaultSpec)
                 arr config) toks arr0), []).
Proof.
  induction toks as [|t toks IH]; intros arr0 id_of H; [done|].
  inversion_clear H as [|? ? Ht Hrest].
  cbn [fmap list_fmap fold_left]. rewrite foldM_cons.
  unfold createLayer_step at 1. cbn [lstate_id lstate_attributes].
  rewrite Ht. cbn [negb].
  destruct (startsWith_bang t).
  - change (getLayerSpec [mkAttr "hidden" VTrue])
      with (mret (set_hidden true defaultSpec)).
    rewrite !mbind_ret. by apply IH.
  - change (getLayerSpec []) with (mret defaultSpec).
    rewrite !mbind_ret. by apply IH.
Qed.

(** X10. [layersParse11] in closed form.  The tokens other than the group
    names baselayers and overlays are looked up, without their leading [!]
    and redirected, with [config.layers[id]]; each yields one effect, in
    order: the telemetry event when the lookup finds a value, a layer of the
    catalog or what [Object.prototype] holds under that name, and the
    warning when it finds none.  The ids found are added last token first,
    with the default specification, hidden for a token with a leading [!].
    No exception is raised. *)
Theorem layersParse11_closed_form str :
  let id_of := v1_token_id inherited_text config in
  let named :=
    List.filter (fun t => negb (is_group_token t)) (split_on is_v1_separator str) in
  let found :=
    List.filter
      (fun t => bool_decide (is_Some (layers config !! id_of t))
                || JSObject.inherited (id_of t)) named in
  layersParse11 inherited_text addLayer str config
  = (Ret (fold_left
            (fun arr t =>
               addLayer (id_of t)
                 (if startsWith_bang t then set_hidden true defaultSpec else defaultSpec)
                 arr config) (reverse found) []),
     (fun t => if bool_decide (is_Some (layers config !! id_of t))
                  || JSObject.inherited (id_of t)
               then PushEvent (id_of t)
               else Warn ("No such layer: " ++ id_of t)) <$> named).
Proof.
  cbn zeta. unfold layersParse11. rewrite foldM_parse11_id_closed.
  cbn [app]. unfold mbind at 1. unfold createLayerArrayFromState.
  rewrite <- fmap_reverse, foldM_createLayer_v1.
  - by rewrite app_nil_r.
  - apply Forall_reverse, List.Forall_forall. intros t Ht.
    by apply filter_In in Ht as [_ Ht].
Qed.
End V1.

End CodecExtras.

(** ** Reading back a serialized permalink *)

Section RoundTrip.
Import JSString Codec CodecNotions.
Local Open Scope string_scope.

Lemma string_app_cons x (a b : string) : String x a ++ b = String x (a ++ b).
Proof. reflexivity. Qed.

Lemma string_app_nil_l (a : string) : "" ++ a = a.
Proof. reflexivity. Qed.

Lemma string_app_assoc (a b c : string) : (a ++ b) ++ c = a ++ (b ++ c).
Proof. induction a as [|x a IH]; [done|]. by rewrite !string_app_cons, IH. Qed.

Lemma string_app_nil_r (a : string) : a ++ "" = a.
Proof. induction a as [|x a IH]; [done|]. by rewrite string_app_cons, IH. Qed.

Lemma contains_app p a b : contains p (a ++ b) = contains p a || contains p b.
Proof.
  induction a as [|x a IH]; [done|]. rewrite string_app_cons. cbn [contains].
  by rewrite IH, orb_assoc.
Qed.

Lemma contains_weaken (p q : ascii -> bool) s :
  (forall c, p c = true -> q c = true) ->
  contains q s = false -> contains p s = false.
Proof.
  intros Hpq. induction s as [|c s IH]; [done|]. cbn.
  intros [Hq Hs]%orb_false_iff. rewrite (IH Hs), orb_false_r.
  destruct (p c) eqn:Hp; [|done]. by rewrite (Hpq c Hp) in Hq.
Qed.

Lemma remove_chars_none p s : contains p s = false -> remove_chars p s = s.
Proof.
  induction s as [|c s IH]; [done|]. cbn. intros [Hc Hs]%orb_false_iff.
  by rewrite Hc, IH.
Qed.

Lemma split_on_none p s : contains p s = false -> split_on p s = [s].
Proof.
  induction s as [|c s IH]; [done|]. cbn. intros [Hc Hs]%orb_false_iff.
  by rewrite Hc, IH.
Qed.

Lemma split_on_app p a c b :
  contains p a = false -> p c = true ->
  split_on p (a ++ String c b) = a :: split_on p b.
Proof.
  intros Ha Hc. induction a as [|x a IH].
  - rewrite string_app_nil_l. cbn [split_on]. by rewrite Hc.
  - cbn [contains] in Ha. apply orb_false_iff in Ha as [Hx Ha].
    rewrite string_app_cons. cbn [split_on]. by rewrite Hx, IH.
Qed.

Lemma split_on_join p c l :
  p c = true -> l <> [] ->
  Forall (fun s => contains p s = false) l ->
  split_on p (join (String c "") l) = l.
Proof.
  intros Hc Hne Hl. induction Hl as [|s l Hs Hl IH]; [done|].
  destruct l as [|s' l].
  - cbn. by apply split_on_none.
  - change (join (String c "") (s :: s' :: l))
      with (s ++ String c (join (String c "") (s' :: l))).
    rewrite split_on_app by done. by rewrite IH.
Qed.

Lemma contains_join p c l :
  p c = false ->
  Forall (fun s => contains p s = false) l ->
  contains p (join (String c "") l) = false.
Proof.
  intros Hc Hl. induction Hl as [|s l Hs Hl IH]; [done|].
  destruct l as [|s' l]; [done|].
  change (join (String c "") (s :: s' :: l))
    with (s ++ String c (join (String c "") (s' :: l))).
  rewrite contains_app. cbn [contains]. by rewrite Hs, Hc, IH.
Qed.

Lemma take_while_app p a c b :
  contains (fun x => negb (p x)) a = false -> p c = false ->
  take_while p (a ++ String c b) = a.
Proof.
  intros Ha Hc. induction a as [|x a IH].
  - rewrite string_app_nil_l. cbn [take_while]. by rewrite Hc.
  - cbn [contains] in Ha. apply orb_false_iff in Ha as [Hx Ha].
    apply negb_false_iff in Hx. rewrite string_app_cons. cbn [take_while].
    by rewrite Hx, IH.
Qed.

Lemma take_while_all p a :
  contains (fun x => negb (p x)) a = false -> take_while p a = a.
Proof.
  induction a as [|x a IH]; [done|]. cbn. intros [Hx Ha]%orb_false_iff.
  apply negb_false_iff in Hx. by rewrite Hx, IH.
Qed.

Lemma upto_last_close_app a b :
  contains is_close b = false ->
  upto_last_close (a ++ String ")" b) = Some (a ++ ")").
Proof.
  intros Hb. induction a as [|x a IH].
  - rewrite !string_app_nil_l. cbn [upto_last_close].
    assert (upto_last_close b = None) as ->; [|done].
    induction b as [|y b IHb]; [done|]. cbn [contains upto_last_close] in *.
    apply orb_false_iff in Hb as [Hy Hb]. by rewrite IHb, Hy.
  - rewrite !string_app_cons. cbn [upto_last_close]. by rewrite IH.
Qed.

Lemma match_parens_none s : contains is_open s = false -> match_parens s = None.
Proof.
  induction s as [|c s IH]; [done|]. cbn. intros [Hc Hs]%orb_false_iff.
  by rewrite Hc, IH.
Qed.

(** The text of a plain attribute is read back by [parse12_kvp], and has
    no parenthesis, comma or line terminator. *)
Lemma parse12_kvp_text a :
  plain_attribute a = true ->
  parse12_kvp (attribute_text a) = parsed_attribute a
  /\ contains (fun c => is_paren c || is_comma c || is_line_terminator c)
       (attribute_text a) = false.
Proof.
  unfold plain_attribute, plain_text, parsed_attribute, attribute_text, out_text.
  set (sep := fun c => is_paren c || is_comma c || is_line_terminator c).
  intros [Hid Hv]%andb_true_iff. apply negb_true_iff in Hid.
  assert (Hsep : forall s, contains is_reserved s = false -> contains sep s = false).
  { intros s. apply contains_weaken. intros c. unfold sep, is_reserved.
    destruct (is_paren c), (is_comma c), (is_line_terminator c), (is_equals c); done. }
  assert (Heq : forall s, contains is_reserved s = false -> contains is_equals s = false).
  { intros s. apply contains_weaken. intros c Hc. unfold is_reserved.
    rewrite Hc. by rewrite !orb_true_r. }
  assert (Hkey : parse12_kvp (out_id a) = mkAttr (out_id a) VTrue).
  { unfold parse12_kvp. by rewrite split_on_none by auto. }
  assert (Hkv : forall v, contains is_reserved v = false ->
            parse12_kvp (out_id a ++ "=" ++ v) = mkAttr (out_id a) (VStr v)
            /\ contains sep (out_id a ++ "=" ++ v) = false).
  { intros v Hvr. change ("=" ++ v) with (String "=" v). split.
    - unfold parse12_kvp.
      rewrite split_on_app by auto. by rewrite split_on_none by auto.
    - rewrite contains_app. cbn [contains].
      rewrite (Hsep _ Hid), (Hsep _ Hvr). done. }
  destruct (out_value_ a) as [|n|v].
  - split; [done|]. by apply Hsep.
  - destruct (num_truthy n).
    + apply negb_true_iff in Hv. by apply Hkv.
    + split; [done|]. by apply Hsep.
  - destruct (String.eqb v "").
    + split; [done|]. by apply Hsep.
    + apply negb_true_iff in Hv. by apply Hkv.
Qed.

Lemma remove_chars_app p a b :
  remove_chars p (a ++ b) = remove_chars p a ++ remove_chars p b.
Proof.
  induction a as [|x a IH]; [done|]. rewrite string_app_cons. cbn [remove_chars].
  destruct (p x); [done|]. by rewrite string_app_cons, IH.
Qed.

Lemma match_parens_skip a b :
  contains is_open a = false -> match_parens (a ++ b) = match_parens b.
Proof.
  induction a as [|x a IH]; [done|]. cbn [contains].
  intros [Hx Ha]%orb_false_iff. rewrite string_app_cons. cbn [match_parens].
  by rewrite Hx, IH.
Qed.

Lemma match_layerId_prefix id rest :
  id <> "" ->
  contains (fun c => is_open c || is_comma c) id = false ->
  match rest with
  | "" => True
  | String d _ => is_open d || is_comma d = true
  end ->
  match_layerId (id ++ rest) = Some id.
Proof.
  intros Hne Hid Hrest. destruct id as [|c id]; [done|].
  pose proof Hid as Hid'. cbn [contains] in Hid'.
  apply orb_false_iff in Hid' as [Hc _].
  rewrite string_app_cons. cbn [match_layerId]. rewrite Hc.
  rewrite <- string_app_cons. f_equal.
  assert (Hn : contains (fun x => negb (negb (is_open x || is_comma x)))
                        (String c id) = false).
  { eapply contains_weaken; [|exact Hid]. intros x. by rewrite negb_involutive. }
  destruct rest as [|d rest].
  - rewrite string_app_nil_r. by apply take_while_all.
  - apply take_while_app; [done|]. by rewrite Hrest.
Qed.

(** The text of a token with attributes. *)
Lemma appendAttributesForURL_text id a attrs :
  appendAttributesForURL {| item_id := Some id; item_attributes := a :: attrs |}
  = id ++ "(" ++ join "," (attribute_text <$> a :: attrs) ++ ")".
Proof. reflexivity. Qed.

Lemma plain_texts attrs :
  Forall (fun a => plain_attribute a = true) attrs ->
  parse12_kvp <$> (attribute_text <$> attrs) = parsed_attribute <$> attrs
  /\ forall p, (forall c, p c = true ->
                 is_paren c || is_comma c || is_line_terminator c = true) ->
       Forall (fun s => contains p s = false) (attribute_text <$> attrs).
Proof.
  induction 1 as [|a attrs Ha _ [IH1 IH2]]; [by split; [|constructor]|].
  destruct (parse12_kvp_text a Ha) as [Hk Hs].
  split.
  - cbn [fmap list_fmap] in *. by rewrite Hk, IH1.
  - intros p Hp. rewrite fmap_cons. constructor; [|by apply IH2].
    eapply contains_weaken; [|exact Hs]. exact Hp.
Qed.

Lemma parse12_layerDef_token {CatalogLayer} (inherited_text : string -> string)
    (config : Config CatalogLayer) acc id attrs sfx :
  id <> "" ->
  contains (fun c => is_open c || is_comma c) id = false ->
  Forall (fun a => plain_attribute a = true) attrs ->
  sfx = "" \/ sfx = "," ->
  parse12_layerDef inherited_text config acc
    (appendAttributesForURL {| item_id := Some id; item_attributes := attrs |} ++ sfx)
  = (Ret (acc ++ [mkLstate (redirect inherited_text config id) (parsed_attribute <$> attrs)])%list,
     [PushEvent (redirect inherited_text config id)]).
Proof.
  intros Hne Hid Hattrs Hsfx.
  assert (Hopen : contains is_open id = false).
  { eapply contains_weaken; [|exact Hid]. intros c Hc; cbv beta; rewrite ?negb_involutive in *; rewrite Hc, ?orb_true_r; done. }
  destruct (plain_texts attrs Hattrs) as [Hkvp Htexts].
  unfold parse12_layerDef. destruct attrs as [|a attrs].
  - change (appendAttributesForURL _) with id.
    rewrite match_layerId_prefix by (try done; by destruct Hsfx as [->| ->]).
    rewrite match_parens_skip by done.
    assert (match_parens sfx = None) as -> by (by destruct Hsfx as [->| ->]).
    done.
  - rewrite appendAttributesForURL_text.
    set (texts := attribute_text <$> a :: attrs) in *.
    set (body := join "," texts).
    rewrite !string_app_assoc.
    rewrite match_layerId_prefix by done.
    rewrite match_parens_skip by done.
    assert (Hbody : forall p, p ","%char = false ->
              (forall c, p c = true ->
                 is_paren c || is_comma c || is_line_terminator c = true) ->
              contains p body = false).
    { intros p Hc Hp. apply contains_join; [done|]. by apply Htexts. }
    assert (Hparens :
      match_parens ("(" ++ body ++ ")" ++ sfx) = Some ("(" ++ body ++ ")")).
    { change ("(" ++ body ++ ")" ++ sfx) with (String "(" (body ++ String ")" sfx)).
      cbn [match_parens]. change (is_open "("%char) with true. cbv iota.
      rewrite take_while_all.
      - rewrite upto_last_close_app by (by destruct Hsfx as [->| ->]). done.
      - rewrite contains_app. cbn [contains].
        rewrite (Hbody (fun x => negb (negb (is_line_terminator x)))).
        + by destruct Hsfx as [->| ->].
        + done.
        + intros c Hc; cbv beta; rewrite ?negb_involutive in *; rewrite Hc, ?orb_true_r; done. }
    rewrite Hparens.
    change ("(" ++ body ++ ")") with (String "(" (body ++ ")")).
    cbn [remove_chars]. change (is_paren "("%char) with true. cbv iota.
    rewrite remove_chars_app.
    rewrite (remove_chars_none is_paren body)
      by (apply Hbody; [done|]; intros c Hc; cbv beta; rewrite ?negb_involutive in *; rewrite Hc, ?orb_true_r; done).
    change (remove_chars is_paren ")") with "". rewrite string_app_nil_r.
    unfold body. rewrite (split_on_join is_comma ","%char); [|done|done|].
    + by rewrite Hkvp.
    + apply Htexts. intros c Hc; cbv beta; rewrite ?negb_involutive in *; rewrite Hc, ?orb_true_r; done.
Qed.

Lemma scan_run s : forall run rest,
  contains (fun c => is_open c || is_comma c) s = false ->
  scan_layerDefs (InRun run) (s ++ rest) = scan_layerDefs (InRun (run ++ s)) rest.
Proof.
  induction s as [|c s IH]; intros run rest Hs.
  - by rewrite string_app_nil_l, string_app_nil_r.
  - cbn [contains] in Hs. apply orb_false_iff in Hs as [Hc Hs].
    apply orb_false_iff in Hc as [Ho Hk].
    rewrite string_app_cons. cbn [scan_layerDefs]. rewrite Ho, Hk.
    rewrite IH by done. unfold snoc. by rewrite string_app_assoc.
Qed.

Lemma scan_group s : forall tok rest,
  contains is_close s = false ->
  scan_layerDefs (InGroup tok) (s ++ rest) = scan_layerDefs (InGroup (tok ++ s)) rest.
Proof.
  induction s as [|c s IH]; intros tok rest Hs.
  - by rewrite string_app_nil_l, string_app_nil_r.
  - cbn [contains] in Hs. apply orb_false_iff in Hs as [Hc Hs].
    rewrite string_app_cons. cbn [scan_layerDefs]. rewrite Hc.
    rewrite IH by done. unfold snoc. by rewrite string_app_assoc.
Qed.

(** The scan cuts a token off the front of a comma-separated list. *)
Lemma scan_token id attrs :
  id <> "" ->
  contains (fun c => is_open c || is_comma c) id = false ->
  Forall (fun a => plain_attribute a = true) attrs ->
  let tok := appendAttributesForURL {| item_id := Some id; item_attributes := attrs |} in
  scan_layerDefs Idle tok = [tok]
  /\ forall more, scan_layerDefs Idle (tok ++ "," ++ more)
                  = (tok ++ ",") :: scan_layerDefs Idle more.
Proof.
  intros Hne Hid Hattrs tok.
  assert (Hstart : forall rest,
            scan_layerDefs Idle (id ++ rest) = scan_layerDefs (InRun id) rest).
  { intros rest. destruct id as [|c id]; [done|].
    cbn [contains] in Hid. apply orb_false_iff in Hid as [Hc Hid].
    rewrite string_app_cons. cbn [scan_layerDefs]. rewrite Hc.
    by rewrite scan_run. }
  destruct attrs as [|a attrs].
  - change tok with id. split.
    + rewrite <- (string_app_nil_r id) at 1. by rewrite Hstart.
    + intros more. by rewrite Hstart.
  - unfold tok. rewrite appendAttributesForURL_text.
    destruct (plain_texts _ Hattrs) as [_ Htexts].
    set (body := join "," (attribute_text <$> a :: attrs)).
    assert (Hbody : contains is_close body = false).
    { apply contains_join; [done|]. apply Htexts.
      intros c Hc. unfold is_paren. by rewrite Hc, orb_true_r. }
    assert (Hgroup : forall rest,
      scan_layerDefs Idle (id ++ "(" ++ body ++ ")" ++ rest)
      = scan_layerDefs (AfterGroup (id ++ "(" ++ body ++ ")")) rest).
    { intros rest. rewrite Hstart.
      change ("(" ++ body ++ ")" ++ rest) with (String "(" (body ++ String ")" rest)).
      cbn [scan_layerDefs]. change (is_comma "(") with false.
      change (is_open "(") with true. cbv iota.
      rewrite contains_app. cbn [contains]. change (is_close ")") with true.
      rewrite orb_true_r. rewrite scan_group by done.
      cbn [scan_layerDefs]. change (is_close ")") with true. cbv iota.
      unfold snoc. by rewrite !string_app_assoc. }
    split.
    + rewrite <- (string_app_nil_r (id ++ "(" ++ body ++ ")")).
      rewrite !string_app_assoc. by rewrite Hgroup.
    + intros more. rewrite !string_app_assoc. rewrite Hgroup.
      change ("," ++ more) with (String "," more). cbn [scan_layerDefs].
      change (is_comma ",") with true. cbv iota. unfold snoc.
      by rewrite !string_app_assoc.
Qed.

Lemma encode_char_plain c :
  is_paren c = false -> contains is_reserved (encode_char c) = false.
Proof.
  destruct c as [[] [] [] [] [] [] [] []]; vm_compute; intros H;
    first [reflexivity | discriminate H].
Qed.

Lemma encodeURIComponent_plain s :
  contains is_paren s = false -> contains is_reserved (encodeURIComponent s) = false.
Proof.
  induction s as [|c s IH]; [done|]. cbn [contains encodeURIComponent].
  intros [Hc Hs]%orb_false_iff.
  by rewrite contains_app, (encode_char_plain c Hc), IH.
Qed.

Lemma replace_parens_none s :
  contains is_paren (replace_char ")" ">" (replace_char "(" "<" s)) = false.
Proof.
  induction s as [|c s IH]; [done|]. cbn [replace_char contains]. rewrite IH.
  rewrite orb_false_r.
  destruct (Ascii.eqb_spec c "(") as [->|Ho]; [done|].
  destruct (Ascii.eqb_spec c ")") as [->|Hc]; [done|].
  unfold is_paren, is_open, is_close.
  apply Ascii.eqb_neq in Ho, Hc. by rewrite Ho, Hc.
Qed.

Lemma serialized_bandCombo_plain_aux json :
  plain_text (encodeURIComponent (replace_char ")" ">" (replace_char "(" "<" json)))
  = true.
Proof.
  unfold plain_text. apply negb_true_iff, encodeURIComponent_plain, replace_parens_none.
Qed.

Section Serialized.
Context {CatalogLayer ActiveLayer : Type}.
Variable inherited_text : string -> string.
Variable addLayer :
  string -> LayerSpec -> list ActiveLayer -> Config CatalogLayer -> list ActiveLayer.
Variable config : Config CatalogLayer.
Variable getPaletteAttributeArray : string -> list out_attribute.
Variable getVectorStyleAttributeArray : LayerState -> list out_attribute.
Variable getGranuleCount : string -> option number.

Let attributes_of :=
  serialize_attributes getPaletteAttributeArray getVectorStyleAttributeArray
                       getGranuleCount.
Let token_of :=
  serializeLayer getPaletteAttributeArray getVectorStyleAttributeArray getGranuleCount.
Let readable (def : LayerState) : Prop :=
  def_id def <> ""
  /\ contains (fun c => is_open c || is_comma c) (def_id def) = false
  /\ Forall (fun a => plain_attribute a = true) (attributes_of def).
Let lstate_of (def : LayerState) : lstate :=
  mkLstate (redirect inherited_text config (def_id def)) (parsed_attribute <$> attributes_of def).

Lemma serializeLayer_token def :
  def_id def <> "" ->
  token_of def
  = appendAttributesForURL
      {| item_id := Some (def_id def); item_attributes := attributes_of def |}.
Proof.
  intros Hne. unfold token_of, serializeLayer.
  by destruct (String.eqb_spec (def_id def) "").
Qed.

Lemma scan_serialized defs :
  Forall readable defs ->
  scan_layerDefs Idle (join "," (token_of <$> defs)) = with_commas (token_of <$> defs).
Proof.
  induction 1 as [|def defs (Hne & Hid & Hattrs) Hrest IH]; [done|].
  destruct (scan_token _ _ Hne Hid Hattrs) as [Hlast Hmore].
  rewrite <- serializeLayer_token in Hlast, Hmore by done.
  destruct defs as [|def' defs]; [exact Hlast|].
  change (join "," (token_of <$> def :: def' :: defs))
    with (token_of def ++ "," ++ join "," (token_of <$> def' :: defs)).
  rewrite Hmore, IH. done.
Qed.

Lemma foldM_parse12_serialized defs :
  Forall readable defs ->
  forall acc,
    foldM (parse12_layerDef inherited_text config) acc (with_commas (token_of <$> defs))
    = (Ret (acc ++ (lstate_of <$> defs))%list,
       (fun l => PushEvent (lstate_id l)) <$> (lstate_of <$> defs)).
Proof.
  induction 1 as [|def defs (Hne & Hid & Hattrs) Hrest IH]; intros acc.
  - cbn. by rewrite app_nil_r.
  - assert (Htok : forall sfx, sfx = "" \/ sfx = "," ->
              parse12_layerDef inherited_text config acc (token_of def ++ sfx)
              = (Ret (acc ++ [lstate_of def])%list,
                 [PushEvent (lstate_id (lstate_of def))])).
    { intros sfx Hsfx. rewrite serializeLayer_token by done.
      by apply parse12_layerDef_token. }
    destruct defs as [|def' defs].
    + cbn [fmap list_fmap with_commas]. rewrite foldM_cons.
      rewrite <- (string_app_nil_r (token_of def)), Htok by auto. done.
    + change (with_commas (token_of <$> def :: def' :: defs))
        with ((token_of def ++ ",") :: with_commas (token_of <$> def' :: defs)).
      rewrite foldM_cons, Htok by auto. unfold mbind. rewrite IH.
      rewrite <- app_assoc. done.
Qed.

(** X11. The permalink of [serializeLayers] is read back by the v1.2
    parser.  For layers with an id that is non-empty and free of [(] and
    [,], whose serialized attributes are plain (no parenthesis, comma,
    equals sign or line terminator in a key or a value), the parser cuts
    the comma-joined tokens into one layer state per layer, with the
    redirected id and the attributes as serialized, a falsy value read as
    [true]; it pushes one telemetry event per layer and goes on to
    [createLayerArrayFromState] with these states.
    [util.appendAttributesForURL] is as modelled from the spec. *)
Theorem layersParse12_reads_serialized defs :
  Forall (fun def =>
            def_id def <> ""
            /\ contains (fun c => is_open c || is_comma c) (def_id def) = false
            /\ Forall (fun a => plain_attribute a = true)
                      (serialize_attributes getPaletteAttributeArray
                         getVectorStyleAttributeArray getGranuleCount def)) defs ->
  let lstates :=
    (fun def =>
       mkLstate (redirect inherited_text config (def_id def))
         (parsed_attribute
            <$> serialize_attributes getPaletteAttributeArray
                  getVectorStyleAttributeArray getGranuleCount def)) <$> defs in
  let made := createLayerArrayFromState addLayer (Some lstates) config in
  layersParse12_try inherited_text addLayer
    (join "," (serializeLayers getPaletteAttributeArray getVectorStyleAttributeArray
                 getGranuleCount defs)) config
  = (fst made, ((fun l => PushEvent (lstate_id l)) <$> lstates) ++ snd made)%list.
Proof.
  intros Hdefs lstates made. unfold layersParse12_try, serializeLayers, match_layerDefs.
  fold token_of. rewrite (scan_serialized defs Hdefs).
  assert (Htokens :
    match with_commas (token_of <$> defs) with [] => [] | l => l end
    = with_commas (token_of <$> defs)) by (by destruct (with_commas _)).
  assert (Hm : match match with_commas (token_of <$> defs) with
                     | [] => None | l => Some l end
               with Some l => l | None => [] end
               = with_commas (token_of <$> defs)) by (by destruct (with_commas _)).
  rewrite Hm, (foldM_parse12_serialized defs Hdefs). cbn [app].
  unfold mbind. subst made lstates. fold attributes_of. fold lstate_of.
  by destruct (createLayerArrayFromState addLayer (Some (lstate_of <$> defs)) config).
Qed.

(** X12. The attributes [serializeLayers] builds are plain as soon as the
    texts of the opacity and of the granule count are, and the palette and
    vector-style attributes it is handed are: its own keys are, and the band
    combination is percent-encoded after its parentheses are replaced. *)
Lemma serialize_attributes_plain def :
  match def_opacity def with
  | Some o => plain_text (num_text o) = true
  | None => True
  end ->
  Forall (fun a => plain_attribute a = true) (getPaletteAttributeArray (def_id def)) ->
  Forall (fun a => plain_attribute a = true) (getVectorStyleAttributeArray def) ->
  match getGranuleCount (def_id def) with
  | Some n => plain_text (num_text n) = true
  | None => True
  end ->
  Forall (fun a => plain_attribute a = true) (attributes_of def).
Proof.
  intros Ho Hp Hv Hg. unfold attributes_of, serialize_attributes.
  assert (Hnum : forall key n,
            plain_text key = true -> plain_text (num_text n) = true ->
            plain_attribute (mkOut key (ONum n)) = true).
  { intros key n Hkey Hn. unfold plain_attribute, out_text. cbn [out_id out_value_].
    rewrite Hkey. by destruct (num_truthy n). }
  assert (Hband : forall json,
            plain_attribute
              (mkOut "bandCombo"
                 (OStr (encodeURIComponent
                          (replace_char ")" ">" (replace_char "(" "<" json))))) = true).
  { intros json. unfold plain_attribute, out_text. cbn [out_id out_value_].
    destruct (String.eqb _ ""); [done|]. by rewrite serialized_bandCombo_plain_aux. }
  repeat case_match; subst;
    rewrite ?Forall_app, ?Forall_cons, ?Forall_nil; repeat split; auto.
Qed.
End Serialized.

End RoundTrip.

(** ** Overlay groups *)

Section GroupFacts.
Import JSString JSObject Layers Groups.
Local Open Scope string_scope.

Lemma sort_insert_perm_any {A} (cmp : A -> A -> Z) x l :
  Permutation (sort_insert cmp x l) (x :: l).
Proof.
  induction l as [|y l IH]; cbn; [done|].
  destruct (0 <? cmp x y)%Z; [|done]. rewrite IH. apply perm_swap.
Qed.

Lemma array_sort_perm_any {A} (cmp : A -> A -> Z) l :
  Permutation (array_sort cmp l) l.
Proof.
  induction l as [|x l IH]; cbn; [done|]. by rewrite sort_insert_perm_any, IH.
Qed.

Lemma filter_split_perm {A} (p : A -> bool) l :
  Permutation (List.filter p l ++ List.filter (fun x => negb (p x)) l) l.
Proof.
  induction l as [|x l IH]; [done|]. cbn. destruct (p x); cbn.
  - by rewrite IH.
  - rewrite <- Permutation_middle. by rewrite IH.
Qed.

Lemma object_keys_perm m : Permutation (object_keys m) (fst <$> m).
Proof.
  unfold object_keys. rewrite array_sort_perm_any. apply filter_split_perm.
Qed.

Lemma own_property_None k m : own_property k m = None <-> k ∉ fst <$> m.
Proof.
  induction m as [|[k' v] m IH]; cbn.
  - split; [intros _; apply not_elem_of_nil|done].
  - rewrite not_elem_of_cons. destruct (String.eqb_spec k' k) as [->|Hne].
    + split; [done|]. by intros [? _].
    + rewrite IH. split; [intros ?; split; [congruence|done]|by intros [_ ?]].
Qed.

Lemma own_property_push_to k0 id m k ids0 :
  own_property k0 m = Some ids0 ->
  own_property k (push_to k0 id m)
  = if String.eqb k0 k then Some (ids0 ++ [id])%list else own_property k m.
Proof.
  induction m as [|[k' v] m IH]; [done|]. cbn.
  destruct (String.eqb_spec k' k0) as [->|Hne].
  - intros [= ->]. cbn. by destruct (String.eqb_spec k0 k).
  - intros H. cbn. destruct (String.eqb_spec k' k) as [->|Hne'].
    + destruct (String.eqb_spec k0 k); [congruence|done].
    + by apply IH.
Qed.

Lemma push_to_keys k0 id m : fst <$> push_to k0 id m = fst <$> m.
Proof.
  induction m as [|[k' v] m IH]; [done|]. cbn.
  destruct (String.eqb k' k0); cbn; [done|]. by rewrite IH.
Qed.

Lemma own_property_snoc k0 v0 m k :
  own_property k (m ++ [(k0, v0)])%list
  = match own_property k m with
    | Some v => Some v
    | None => if String.eqb k0 k then Some v0 else None
    end.
Proof.
  induction m as [|[k' v] m IH]; [done|]. cbn.
  by destruct (String.eqb k' k).
Qed.

Lemma overlay_ids_snoc k done l :
  overlay_ids k (done ++ [l])
  = (overlay_ids k done
     ++ if String.eqb (gl_group l) "overlays" && String.eqb (gl_layergroup l) k
        then [gl_id l] else [])%list.
Proof.
  unfold overlay_ids. rewrite List.filter_app, fmap_app. cbn.
  by destruct (_ && _).
Qed.

Lemma overlay_groups_snoc done l :
  overlay_groups (done ++ [l])
  = (overlay_groups done
     ++ if String.eqb (gl_group l) "overlays" then [gl_layergroup l] else [])%list.
Proof.
  unfold overlay_groups. rewrite List.filter_app, fmap_app. cbn.
  by destruct (String.eqb _ _).
Qed.

Lemma collect_layer_groups done m l :
  groups_of done m ->
  (String.eqb (gl_group l) "overlays" = true -> inherited (gl_layergroup l) = false) ->
  exists m', collect_layer m l = Ret m' /\ groups_of (done ++ [l]) m'.
Proof.
  intros (Hnd & Hown & Hkeys) Hin. unfold collect_layer.
  destruct (String.eqb (gl_group l) "overlays") eqn:Hg; cbn [negb].
  - specialize (Hin eq_refl).
    destruct (own_property (gl_layergroup l) m) as [ids0|] eqn:Hl.
    + eexists. split; [done|]. split; [by rewrite push_to_keys|]. split.
      * intros k. rewrite (own_property_push_to _ _ _ _ _ Hl), overlay_ids_snoc, Hg.
        cbn [andb]. destruct (String.eqb_spec (gl_layergroup l) k) as [<-|Hne].
        -- rewrite Hown in Hl. destruct (overlay_ids (gl_layergroup l) done); [done|].
           injection Hl as <-. done.
        -- by rewrite Hown, app_nil_r.
      * intros k. rewrite push_to_keys, overlay_groups_snoc, Hg, elem_of_app, Hkeys.
        rewrite list_elem_of_singleton. split; [auto|]. intros [?| ->]; [done|].
        apply Hkeys. apply dec_stable. intros Hn%own_property_None. congruence.
    + rewrite Hin. eexists. split; [done|].
      pose proof Hl as Hnot%own_property_None. split.
      * rewrite fmap_app. cbn. apply NoDup_app. split; [done|].
        split; [|apply NoDup_singleton].
        intros k Hk ->%list_elem_of_singleton. done.
      * split.
        -- intros k. rewrite own_property_snoc, overlay_ids_snoc, Hg, Hown. cbn [andb].
           destruct (String.eqb_spec (gl_layergroup l) k) as [<-|Hne].
           ++ rewrite Hown in Hl. by destruct (overlay_ids (gl_layergroup l) done).
           ++ rewrite app_nil_r. by destruct (overlay_ids k done).
        -- intros k. rewrite fmap_app, overlay_groups_snoc, Hg, !elem_of_app, Hkeys.
           cbn. done.
  - eexists. split; [done|]. split; [done|]. split.
    + intros k. by rewrite overlay_ids_snoc, Hg, app_nil_r.
    + intros k. by rewrite overlay_groups_snoc, Hg, app_nil_r.
Qed.

Lemma collect_layers_groups rest : forall done m,
  groups_of done m ->
  Forall (fun l => String.eqb (gl_group l) "overlays" = true ->
                   inherited (gl_layergroup l) = false) rest ->
  exists m', collect_layers m rest = Ret m' /\ groups_of (done ++ rest) m'.
Proof.
  induction rest as [|l rest IH]; intros done m Hm Hrest.
  - exists m. by rewrite app_nil_r.
  - inversion_clear Hrest as [|? ? Hl Hrest'].
    destruct (collect_layer_groups done m l Hm Hl) as (m1 & Hm1 & Hinv).
    destruct (IH (done ++ [l])%list m1 Hinv Hrest') as (m' & Hm' & Hinv').
    exists m'. cbn [collect_layers]. rewrite Hm1. cbn [obind].
    by rewrite <- app_assoc in Hinv'.
Qed.

Lemma groups_of_nil : groups_of [] [].
Proof.
  split; [constructor|]. split; [done|]. intros k. cbn.
  split; intros H; by apply elem_of_nil in H.
Qed.
End GroupFacts.

Section GroupTheorems.
Import JSString JSObject Layers Groups.
Local Open Scope string_scope.

Lemma collect_layers_throws rest : forall seen m,
  groups_of seen m ->
  Forall (fun l => String.eqb (gl_group l) "overlays" = true ->
                   inherited (gl_layergroup l) = false) seen ->
  existsb (fun l => String.eqb (gl_group l) "overlays" && inherited (gl_layergroup l))
          rest = true ->
  collect_layers m rest = TypeError.
Proof.
  induction rest as [|l rest IH]; intros seen m Hm Hdone Hbad; [done|].
  cbn [existsb] in Hbad. cbn [collect_layers].
  destruct (String.eqb (gl_group l) "overlays" && inherited (gl_layergroup l)) eqn:Hl.
  - apply andb_true_iff in Hl as [Hg Hi]. unfold collect_layer. rewrite Hg. cbn [negb].
    assert (own_property (gl_layergroup l) m = None) as ->.
    { apply own_property_None. destruct Hm as (_ & _ & Hkeys). rewrite Hkeys.
      unfold overlay_groups. intros (l' & Heq & Hin)%list_elem_of_fmap.
      apply list_elem_of_In, filter_In in Hin as [Hin Hg'].
      rewrite List.Forall_forall in Hdone. specialize (Hdone l' Hin Hg'). congruence. }
    by rewrite Hi.
  - assert (Hgood : String.eqb (gl_group l) "overlays" = true ->
                    inherited (gl_layergroup l) = false).
    { intros Hg. rewrite Hg in Hl. done. }
    destruct (collect_layer_groups seen m l Hm Hgood) as (m1 & -> & Hinv).
    cbn [obind]. apply (IH (seen ++ [l])%list); [done| |done].
    apply Forall_app. split; [done|]. by constructor.
Qed.

Lemma find_group_fmap (f : string -> OverlayGroup) name keys :
  (forall k, groupName (f k) = k) ->
  name ∈ keys ->
  find_group name (f <$> keys) = Some (f name).
Proof.
  intros Hf. induction keys as [|k keys IH]; [by intros ?%elem_of_nil|].
  intros Hin. unfold find_group. cbn. rewrite Hf.
  destruct (String.eqb_spec k name) as [->|Hne]; [done|].
  apply elem_of_cons in Hin as [->|Hin]; [done|]. by apply IH.
Qed.

Lemma overlay_groups_total layers prevGroups :
  existsb (fun l => String.eqb (gl_group l) "overlays" && inherited (gl_layergroup l))
          layers = false ->
  exists groups, getOverlayGroups layers prevGroups = Ret groups.
Proof.
  intros Hgood.
  assert (Hall : Forall (fun l => String.eqb (gl_group l) "overlays" = true ->
                                  inherited (gl_layergroup l) = false) layers).
  { apply List.Forall_forall. intros l Hin Hg.
    apply not_true_is_false. intros Hi.
    assert (existsb (fun l => String.eqb (gl_group l) "overlays"
                              && inherited (gl_layergroup l)) layers = true); [|congruence].
    apply existsb_exists. exists l. by rewrite Hg, Hi. }
  destruct (collect_layers_groups layers [] [] groups_of_nil Hall) as (m & Hm & _).
  unfold getOverlayGroups. rewrite Hm. by eexists.
Qed.

(** X13. [getOverlayGroups], when no overlay has a layer group named like
    a property of [Object.prototype]: the groups have pairwise distinct
    names, which are the layer groups of the overlays; the layers of a group
    are the ids of the overlays of that layer group, in the order of the
    layers; a group is collapsed as the first previous group of its name is,
    and not collapsed when there is none. *)
Theorem getOverlayGroups_groups layers prevGroups :
  existsb (fun l => String.eqb (gl_group l) "overlays" && inherited (gl_layergroup l))
          layers = false ->
  exists groups,
    getOverlayGroups layers prevGroups = Ret groups
    /\ NoDup (groupName <$> groups)
    /\ (forall name, name ∈ groupName <$> groups <-> name ∈ overlay_groups layers)
    /\ Forall (fun g =>
                 group_layers g = overlay_ids (groupName g) layers
                 /\ collapsed g = match find_group (groupName g) prevGroups with
                                  | Some prevGroup => collapsed prevGroup
                                  | None => false
                                  end) groups.
Proof.
  intros Hgood.
  assert (Hall : Forall (fun l => String.eqb (gl_group l) "overlays" = true ->
                                  inherited (gl_layergroup l) = false) layers).
  { apply List.Forall_forall. intros l Hin Hg.
    apply not_true_is_false. intros Hi.
    assert (existsb (fun l => String.eqb (gl_group l) "overlays"
                              && inherited (gl_layergroup l)) layers = true); [|congruence].
    apply existsb_exists. exists l. by rewrite Hg, Hi. }
  destruct (collect_layers_groups layers [] [] groups_of_nil Hall)
    as (m & Hm & Hnd & Hown & Hkeys).
  cbn [app] in *. unfold getOverlayGroups. rewrite Hm. cbn [obind].
  eexists. split; [reflexivity|].
  rewrite <- list_fmap_compose.
  assert (Hnames : forall f : string -> OverlayGroup,
            (forall k, groupName (f k) = k) ->
            (groupName ∘ f) <$> object_keys m = object_keys m).
  { intros f Hf. rewrite <- (list_fmap_id (object_keys m)) at 2.
    apply list_fmap_ext. intros _ k _. apply Hf. }
  rewrite Hnames by done.
  split; [by rewrite object_keys_perm|].
  split; [intros name; by rewrite object_keys_perm|].
  apply Forall_fmap, List.Forall_forall. intros name _. cbn.
  split; [|done]. rewrite Hown. by destruct (overlay_ids name layers).
Qed.

(** X14. [getOverlayGroups] raises a [TypeError] exactly when some
    overlay has a layer group named like a property of [Object.prototype]
    (constructor, toString, ...): the lookup finds the inherited value,
    which has no [push]. *)
Theorem getOverlayGroups_throws layers prevGroups :
  getOverlayGroups layers prevGroups = TypeError
  <-> existsb (fun l => String.eqb (gl_group l) "overlays"
                        && inherited (gl_layergroup l)) layers = true.
Proof.
  split.
  - intros Hthrow.
    destruct (existsb _ layers) eqn:Hbad; [done|].
    destruct (overlay_groups_total layers prevGroups Hbad) as (gs & Hgs).
    congruence.
  - intros Hbad. unfold getOverlayGroups.
    by rewrite (collect_layers_throws layers [] [] groups_of_nil (List.Forall_nil _) Hbad).
Qed.

(** X15. [getOverlayGroups] is stable: given its own result as the
    previous groups, it returns that result. *)
Theorem getOverlayGroups_keeps_collapsed layers prevGroups groups :
  getOverlayGroups layers prevGroups = Ret groups ->
  getOverlayGroups layers groups = Ret groups.
Proof.
  unfold getOverlayGroups.
  destruct (collect_layers [] layers) as [m|]; [|done]. cbn [obind].
  intros [= <-]. f_equal. apply list_fmap_ext. intros _ name Hin%list_elem_of_lookup_2.
  f_equal. by rewrite (find_group_fmap _ name (object_keys m)).
Qed.
End GroupTheorems.

(** ** Dates next to a requested date *)

Section NearestFacts.
Import ESDate Util Layers Nearest.

Lemma MakeDay_fields t :
  MakeDay (YearFromTime t) (MonthFromTime t) (DateFromTime t) = Day t.
Proof.
  unfold MakeDay. pose proof (MonthFromTime_range t) as Hm.
  rewrite Z.div_small, Z.mod_small, Z.add_0_r by lia.
  unfold DateFromTime, DayWithinYear. lia.
Qed.

(** X16. [nearestInterval] rounds the minutes within the hour down to a
    multiple of the interval of the first date range: the result is not
    after the date, less than an interval and less than an hour before it,
    in the same hour, with minutes divisible by the interval (local years
    0..99 apart, which the [Date] constructor maps to 1900..1999). *)
Theorem nearestInterval_rounds_down tzo def r rs date :
  dateRanges def = Some (r :: rs) ->
  ~ (0 <= getFullYear tzo date <= 99) ->
  exists t,
    nearestInterval tzo def date = Some t
    /\ t <= date
    /\ date - t < Z.pos (dateInterval r) * msPerMinute
    /\ date - t < msPerHour
    /\ getMinutes tzo t mod Z.pos (dateInterval r) = 0
    /\ getHours tzo t = getHours tzo date.
Proof.
  intros Hr Hy. unfold nearestInterval. rewrite Hr. eexists. split; [reflexivity|].
  unfold newDate, getFullYear, getMonth, getDate, getHours, getMinutes in *.
  unfold MakeFullYear.
  destruct ((0 <=? YearFromTime (LocalTime tzo date))
            && (YearFromTime (LocalTime tzo date) <=? 99)) eqn:Hc; [lia|].
  rewrite MakeDay_fields.
  unfold UTC, LocalTime, MakeDate, MakeTime, Day, HourFromTime, MinFromTime,
    msPerDay, msPerHour, msPerMinute, msPerSecond in *.
  set (l := date - tzo * 60000). set (k := Z.pos (dateInterval r)).
  assert (Hk : 0 < k) by (unfold k; lia).
  replace (l / 86400000 * 86400000 + (l / 3600000 mod 24 * 3600000
           + (l / 60000 mod 60 - (l / 60000 mod 60) mod k) * 60000 + 0 * 1000 + 0)
           + tzo * 60000 - tzo * 60000)
    with (l / 86400000 * 86400000 + (l / 3600000 mod 24 * 3600000
           + (l / 60000 mod 60 - (l / 60000 mod 60) mod k) * 60000)) by lia.
  set (mi := l / 60000 mod 60). set (rem := mi mod k).
  assert (Hmi : 0 <= mi < 60) by (unfold mi; apply Z.mod_pos_bound; lia).
  assert (Hrem : 0 <= rem < k) by (unfold rem; apply Z.mod_pos_bound; lia).
  assert (Hrem' : rem <= mi) by (unfold rem; apply Z.mod_le; lia).
  set (d := l / 86400000). set (h := l / 3600000 mod 24).
  assert (Hh : 0 <= h < 24) by (unfold h; apply Z.mod_pos_bound; lia).
  assert (Hl : l = d * 86400000 + h * 3600000 + mi * 60000 + l mod 60000).
  { unfold d, h, mi. Z.div_mod_to_equations. lia. }
  assert (Hs : 0 <= l mod 60000 < 60000) by (apply Z.mod_pos_bound; lia).
  set (t' := d * 86400000 + (h * 3600000 + (mi - rem) * 60000)).
  assert (Hdate : date = l + tzo * 60000) by (unfold l; lia).
  assert (Hmin : (t' / 60000) mod 60 = mi - rem).
  { unfold t'. Z.div_mod_to_equations. lia. }
  assert (Hhour : (t' / 3600000) mod 24 = h).
  { unfold t'. Z.div_mod_to_equations. lia. }
  repeat split.
  - lia.
  - nia.
  - lia.
  - rewrite Hmin. unfold rem. rewrite Zminus_mod, Z.mod_mod, Z.sub_diag by lia.
    by apply Z.mod_0_l; lia.
  - by rewrite Hhour.
Qed.

Section Closest.
Variable tzo : Z.
Variable closestToIndex : list Z -> Z -> option Z.

Lemma at_index_elem {A} (arr : list A) i x : at_index arr i = Some x -> x ∈ arr.
Proof.
  unfold at_index. destruct i as [i|]; [|done]. destruct (0 <=? i); [|done].
  apply list_elem_of_lookup_2.
Qed.

(** X17. When [prevDateInDateRange] returns an object, [previous] is the
    date it was given or a date of the array that is before it, and [next],
    when there is one, is a date of the array; this holds whatever
    [util.closestToIndex] returns. *)
Theorem prevDateInDateRange_previous_not_after def date dateArray previous next :
  prevDateInDateRange tzo closestToIndex def date (Some dateArray)
  = PrevNext previous next ->
  (previous = date \/ (previous ∈ dateArray /\ previous < date))
  /\ match next with Some n => n ∈ dateArray | None => True end.
Proof.
  unfold prevDateInDateRange. destruct (_ || _); [done|].
  intros [= <- <-]. split.
  - destruct (at_index _ _) as [c|] eqn:Hc; [|by left].
    apply at_index_elem, list_elem_of_In, filter_In in Hc as [Hin Hle].
    apply list_elem_of_In in Hin.
    destruct (Z.ltb_spec c date); [by right|]. left.
    cbn in Hle. by apply Z.eqb_eq in Hle.
  - destruct (at_index dateArray _) as [n|] eqn:Hn; [|done].
    by apply at_index_elem in Hn.
Qed.

Lemma filter_sorted_prefix date l :
  StronglySorted Z.lt l ->
  List.filter (fun x => (x <? date) || (x =? date)) l
  = take (length (List.filter (fun x => (x <? date) || (x =? date)) l)) l.
Proof.
  induction 1 as [|x l Hs IH Hx]; [done|]. cbn [List.filter].
  destruct ((x <? date) || (x =? date)) eqn:Hc.
  - cbn [length take]. by rewrite <- IH.
  - assert (List.filter (fun x => (x <? date) || (x =? date)) l = []) as ->; [|done].
    apply orb_false_iff in Hc as [H1%Z.ltb_ge H2%Z.eqb_neq].
    clear IH Hs. induction Hx as [|y l Hxy _ IHl]; [done|]. cbn [List.filter].
    destruct (Z.ltb_spec y date); [lia|]. destruct (Z.eqb_spec y date); [lia|].
    exact IHl.
Qed.

(** X18. For a strictly ascending array, the dates not after the requested
    date are a prefix of the array, so the index [util.closestToIndex]
    returns into them is an index into the array: [previous] is the date at
    that index and [next] the date at the following index of the array. *)
Theorem prevDateInDateRange_neighbours def date dateArray previous next i c :
  StronglySorted Z.lt dateArray ->
  prevDateInDateRange tzo closestToIndex def date (Some dateArray)
  = PrevNext previous next ->
  closestToIndex (List.filter (fun x => (x <? date) || (x =? date)) dateArray) date
  = Some (Z.of_nat i) ->
  List.filter (fun x => (x <? date) || (x =? date)) dateArray !! i = Some c ->
  previous = c
  /\ dateArray !! i = Some c
  /\ next = dateArray !! S i.
Proof.
  intros Hs. unfold prevDateInDateRange. destruct (_ || _); [done|].
  intros [= <- <-] Hi Hc. rewrite Hi. cbn [fmap option_fmap option_map at_index].
  destruct (Z.leb_spec 0 (Z.of_nat i)); [|lia].
  destruct (Z.leb_spec 0 (Z.of_nat i + 1)); [|lia].
  rewrite Nat2Z.id. replace (Z.to_nat (Z.of_nat i + 1)) with (S i) by lia.
  rewrite Hc. split; [done|]. split; [|done].
  rewrite filter_sorted_prefix in Hc by done.
  by apply lookup_take_Some in Hc as [Hc _].
Qed.
End Closest.

End NearestFacts.


(** ** Vector layers *)

Section VectorFacts.
Import Vector.
Local Open Scope string_scope.
Context {Num : Type}.
Variable truthy : Num -> bool.
Variable half : Num -> Num.
Variable less : Num -> Num -> bool.

Lemma hasNonClickableVectorLayer_loop_exists mapRes projId isMobile layers :
  hasNonClickableVectorLayer_loop Num truthy half less false layers mapRes projId isMobile
  = existsb (fun def =>
               String.eqb (vl_type def) "vector" && vl_visible def
               && negb (isVectorLayerClickable Num truthy half less def mapRes
                          projId isMobile)) layers.
Proof.
  induction layers as [|def rest IH]; [done|].
  cbn [hasNonClickableVectorLayer_loop existsb].
  destruct (String.eqb (vl_type def) "vector" && vl_visible def); cbn [andb orb].
  - destruct (negb (isVectorLayerClickable Num truthy half less def mapRes projId
                      isMobile)); cbn [orb]; [done|apply IH].
  - apply IH.
Qed.

Lemma hasVectorLayers_exists (layers : list (VectorLayer Num)) :
  hasVectorLayers layers
  = existsb (fun def => String.eqb (vl_type def) "vector" && vl_visible def) layers.
Proof.
  unfold hasVectorLayers. induction layers as [|def rest IH]; [done|].
  cbn [hasVectorLayers_loop existsb].
  by destruct (String.eqb (vl_type def) "vector" && vl_visible def).
Qed.

(** X19. [hasNonClickableVectorLayer] holds exactly when the map
    resolution is truthy and some visible vector layer is not clickable at
    it: overwriting the flag at each vector layer loses nothing, since the
    loop stops at the first that is not clickable. *)
Theorem hasNonClickableVectorLayer_exists layers mapRes projId isMobile :
  hasNonClickableVectorLayer Num truthy half less layers mapRes projId isMobile
  = truthy mapRes
    && existsb (fun def =>
                  String.eqb (vl_type def) "vector" && vl_visible def
                  && negb (isVectorLayerClickable Num truthy half less def mapRes
                             projId isMobile)) layers.
Proof.
  unfold hasNonClickableVectorLayer. destruct (truthy mapRes); cbn [negb andb]; [|done].
  apply hasNonClickableVectorLayer_loop_exists.
Qed.

(** X20. When [hasNonClickableVectorLayer] holds, [hasVectorLayers]
    holds. *)
Theorem hasNonClickableVectorLayer_has_vector layers mapRes projId isMobile :
  hasNonClickableVectorLayer Num truthy half less layers mapRes projId isMobile = true ->
  hasVectorLayers layers = true.
Proof.
  unfold hasNonClickableVectorLayer. destruct (truthy mapRes); cbn [negb]; [|done].
  rewrite hasNonClickableVectorLayer_loop_exists, hasVectorLayers_exists.
  rewrite !existsb_exists. intros (def & Hin & H).
  exists def. split; [done|]. by apply andb_true_iff in H as [H _].
Qed.
End VectorFacts.

(** ** Requests outside the date ranges *)

Section MoreResolverFacts.
Import ESDate Util Layers.

(** X21. [getSubdailyDateRange], with or without limits, keeps the dates
    it is given and pushes a date only after the last one: starting from a
    strictly ascending array, the pushed dates are strictly ascending and
    each is after every date given. *)
Theorem getSubdailyDateRange_keeps_order tzo o :
  StronglySorted Z.lt (dateArray o) ->
  exists new,
    getSubdailyDateRange tzo o = dateArray o ++ new
    /\ StronglySorted Z.lt new
    /\ Forall (fun x => Forall (fun y => y < x) (dateArray o)) new.
Proof.
  intros Hs. destruct (getSubdailyDateRange_appends_sorted tzo o Hs) as (new & Hnew & Hsn).
  exists new. split; [done|]. rewrite Hnew in Hsn. clear Hnew.
  induction (dateArray o) as [|y l IH].
  - split; [done|]. apply List.Forall_forall. intros x _. constructor.
  - cbn in Hsn. apply StronglySorted_inv in Hsn as [Hl Hy].
    inversion_clear Hs as [|? ? Hs' _].
    destruct (IH Hs' Hl) as [Hn Hall]. split; [done|].
    apply Forall_app in Hy as [_ Hy].
    rewrite List.Forall_forall in Hall, Hy. apply List.Forall_forall.
    intros x Hx. constructor; [by apply Hy|by apply Hall].
Qed.

Lemma getYearDateRange_before tzo cur mn mx k arr :
  cur < mn -> getYearDateRange tzo cur mn mx k arr = arr.
Proof.
  intros H. unfold getYearDateRange.
  destruct (Z.leb_spec mn cur); [lia|]. done.
Qed.

Lemma getMonthDateRange_before tzo o :
  limits o = None -> currentDateTime o < minDate o ->
  getMonthDateRange tzo o = dateArray o.
Proof.
  intros Hl H. unfold getMonthDateRange. rewrite Hl.
  destruct (Z.leb_spec (minDate o) (currentDateTime o)); [lia|]. done.
Qed.

Lemma getDayDateRange_before tzo o :
  limits o = None -> currentDateTime o < minDate o ->
  getDayDateRange tzo o = dateArray o.
Proof.
  intros Hl H. unfold getDayDateRange. rewrite Hl.
  destruct (Z.leb_spec (minDate o) (currentDateTime o)); [lia|]. done.
Qed.

Lemma getSubdailyDateRange_before tzo o :
  limits o = None -> currentDateTime o < minDate o ->
  getSubdailyDateRange tzo o = dateArray o.
Proof.
  intros Hl H. unfold getSubdailyDateRange. rewrite Hl. cbv zeta.
  set (hb := setMinutes tzo (currentDateTime o) _ - 60 * 60000).
  set (mm := if hb <? minDate o then minDate o else hb).
  assert (Hmm : currentDateTime o < mm).
  { unfold mm. destruct (Z.ltb_spec hb (minDate o)); lia. }
  destruct (Z.leb_spec mm (currentDateTime o)); [lia|]. done.
Qed.

Lemma eachDateRanges_before tzo def ranges appNow date rs : forall st index,
  singleDateRangeAndInterval ranges None None = false ->
  rs_hitMaxLimitOfRange st = true ->
  rs_currentDate st = date ->
  Forall (fun r => date < startDate r) rs ->
  exists st',
    eachDateRanges tzo def ranges None None appNow st index rs = Ret st'
    /\ rs_dateArray st' = rs_dateArray st.
Proof.
  intros st index Hsingle Hhit Hcur Hrs. revert st index Hhit Hcur.
  induction Hrs as [|r rs Hr _ IH]; intros st index Hhit Hcur.
  - by exists st.
  - cbn [eachDateRanges]. unfold eachDateRange. cbn [rangeLimits].
    rewrite Hhit, Hcur. cbn [negb andb]. rewrite andb_false_r.
    unfold resolve_range. rewrite Hsingle. cbn [rangeLimits obind].
    match goal with |- context [eachDateRanges _ _ _ _ _ _ ?s _ _] =>
      destruct (IH s (S index)) as (st' & Hst' & Harr); [done|done|] end.
    exists st'. split; [exact Hst'|]. rewrite Harr. cbn [rs_dateArray].
    destruct (period def).
    + by apply getYearDateRange_before.
    + by rewrite getMonthDateRange_before.
    + by rewrite getDayDateRange_before.
    + by rewrite getSubdailyDateRange_before.
Qed.

Lemma eachDateRanges_cons tzo def ranges sl el appNow st index r rs :
  eachDateRanges tzo def ranges sl el appNow st index (r :: rs)
  = (st' <-! eachDateRange tzo def ranges sl el appNow st index r ;;
     eachDateRanges tzo def ranges sl el appNow st' (S index) rs).
Proof. reflexivity. Qed.

(** X22. Without limits, a request for a date before the start of every
    date range resolves to the start of the first range alone, whatever the
    period and the intervals. *)
Theorem request_before_all_ranges tzo def r rs date appNow :
  dateRanges def = Some (r :: rs) ->
  Forall (fun r' => date < startDate r') (r :: rs) ->
  datesInDateRanges tzo def date None None appNow = Ret [startDate r].
Proof.
  intros Hr Hall. inversion_clear Hall as [|? ? Hlt Hrs].
  destruct rs as [|r2 rs].
  { by apply (datesInDateRanges_before_single _ _ _ _ None None). }
  unfold datesInDateRanges. rewrite Hr, eachDateRanges_cons.
  unfold eachDateRange at 1. cbn [rangeLimits rs_currentDate rs_dateArray
    rs_hitMaxLimitOfRange last_date last negb].
  destruct (Z.ltb_spec date (startDate r)); [|lia]. cbn [orb andb app obind].
  match goal with |- context [eachDateRanges _ _ ?rg _ _ _ ?s _ _] =>
    destruct (eachDateRanges_before tzo def rg appNow date (r2 :: rs) s 1%nat)
      as (st' & -> & Harr); try done end.
  cbn [obind]. by rewrite Harr.
Qed.
End MoreResolverFacts.

(** ** Instances of the properties above *)

Section Instances.
Import ESDate Util Layers JSString JSObject Codec CodecNotions Groups Nearest Vector.

Lemma getDateArrayLastDateInOrder_keeps_order_witness :
  getDateArrayLastDateInOrder 5 [1; 3; 7; 9] = [1; 3; 5]
  /\ StronglySorted Z.lt (getDateArrayLastDateInOrder 5 [1; 3; 7; 9]).
Proof.
  apply (getDateArrayLastDateInOrder_keeps_order 5 [1; 3; 7; 9] 9).
  - repeat (constructor; try lia).
  - reflexivity.
  - lia.
Defined.

Lemma getSubdailyDateRange_keeps_order_witness :
  exists new,
    getSubdailyDateRange 0
      {| limits := None; currentDateTime := DateUTC 2020 0 1 0 30 0;
         minDate := DateUTC 2020 0 1 0 0 0; maxDate := DateUTC 2020 0 1 2 0 0;
         dateIntervalNum := 10; dateArray := [0; 1000] |}
    = [0; 1000] ++ new
    /\ StronglySorted Z.lt new
    /\ Forall (fun x => Forall (fun y => y < x) [0; 1000]) new.
Proof.
  apply (getSubdailyDateRange_keeps_order 0
           {| limits := None; currentDateTime := DateUTC 2020 0 1 0 30 0;
              minDate := DateUTC 2020 0 1 0 0 0; maxDate := DateUTC 2020 0 1 2 0 0;
              dateIntervalNum := 10; dateArray := [0; 1000] |}).
  simpl. repeat (constructor; try lia).
Defined.

Lemma single_range_dates_ascending_witness :
  exists l,
    datesInDateRanges 0
      (plain_layer yearly [mkRange (ymd 2010 1 1) (ymd 2020 1 1) 2])
      (ymd 2014 6 1) None None 0 = Ret l
    /\ StronglySorted Z.lt l.
Proof.
  apply (single_range_dates_ascending 0
           (plain_layer yearly [mkRange (ymd 2010 1 1) (ymd 2020 1 1) 2])
           (mkRange (ymd 2010 1 1) (ymd 2020 1 1) 2) (ymd 2014 6 1) 0).
  - reflexivity.
  - intros _. vm_compute. discriminate.
  - intros [H _]. discriminate H.
Defined.

Lemma request_before_all_ranges_witness :
  datesInDateRanges 0
    (plain_layer daily [mkRange (ymd 2020 1 10) (ymd 2020 1 20) 1;
                        mkRange (ymd 2020 2 1) (ymd 2020 2 10) 1])
    (ymd 2020 1 1) None None 0
  = Ret [startDate (mkRange (ymd 2020 1 10) (ymd 2020 1 20) 1)].
Proof.
  apply (request_before_all_ranges 0
           (plain_layer daily [mkRange (ymd 2020 1 10) (ymd 2020 1 20) 1;
                               mkRange (ymd 2020 2 1) (ymd 2020 2 10) 1])
           (mkRange (ymd 2020 1 10) (ymd 2020 1 20) 1)
           [mkRange (ymd 2020 2 1) (ymd 2020 2 10) 1] (ymd 2020 1 1) 0).
  - reflexivity.
  - repeat constructor.
Defined.

Lemma subdaily_limited_mode_throws_witness :
  datesInDateRanges 0
    (plain_layer subdaily [mkRange (ymd 2020 1 1) (ymd 2020 1 2) 1])
    (ymd 2020 1 1) None None 0
  = TypeError.
Proof.
  apply (subdaily_limited_mode_throws 0
           (plain_layer subdaily [mkRange (ymd 2020 1 1) (ymd 2020 1 2) 1])
           (mkRange (ymd 2020 1 1) (ymd 2020 1 2) 1) (ymd 2020 1 1) 0).
  - reflexivity.
  - reflexivity.
  - reflexivity.
  - vm_compute. discriminate.
Defined.

Lemma single_date_ranges_within_limits_witness :
  datesInDateRanges 0
    (plain_layer daily [mkRange (ymd 2020 1 5) (ymd 2020 1 5) 1;
                        mkRange (ymd 2020 3 1) (ymd 2020 3 1) 1])
    (ymd 2020 1 1) (Some (ymd 2020 1 1)) (Some (ymd 2020 1 31)) 0
  = Ret (List.filter (fun s => (ymd 2020 1 1 <=? s) && (s <=? ymd 2020 1 31))
           (startDate <$> [mkRange (ymd 2020 1 5) (ymd 2020 1 5) 1;
                           mkRange (ymd 2020 3 1) (ymd 2020 3 1) 1])).
Proof.
  apply (single_date_ranges_within_limits 0
           (plain_layer daily [mkRange (ymd 2020 1 5) (ymd 2020 1 5) 1;
                               mkRange (ymd 2020 3 1) (ymd 2020 3 1) 1])
           [mkRange (ymd 2020 1 5) (ymd 2020 1 5) 1;
            mkRange (ymd 2020 3 1) (ymd 2020 3 1) 1]).
  - reflexivity.
  - repeat constructor.
Defined.

Lemma getMinStartDate_last_step_before_limit_witness :
  let unit := fun i => getTimezoneOffsetDate 0 (newDate3 0 2020 (0 + i * 1) 1) in
  exists i, 0 <= i <= 5
            /\ ymd 2020 3 1 = unit i /\ unit i <= ymd 2020 3 15
            /\ ymd 2020 3 15 < unit (i + 1).
Proof.
  apply (getMinStartDate_last_step_before_limit 0 5 monthly 1 (ymd 2020 3 15)
           2020 0 1 (ymd 2020 3 1)).
  - left. reflexivity.
  - vm_compute. reflexivity.
Defined.


Lemma dateOverlap_order_independent_witness :
  dateOverlap 0 daily [mkRange (ymd 2020 1 5) (ymd 2020 1 20) 1;
                       mkRange (ymd 2020 1 1) (ymd 2020 1 10) 1]
  = dateOverlap 0 daily [mkRange (ymd 2020 1 1) (ymd 2020 1 10) 1;
                         mkRange (ymd 2020 1 5) (ymd 2020 1 20) 1].
Proof.
  apply (dateOverlap_order_independent 0 daily).
  - apply perm_swap.
  - apply (bool_decide_unpack _). vm_compute. exact I.
Defined.

Lemma layersParse12_reads_serialized_witness :
  let none_p : string -> list out_attribute := fun _ => [] in
  let none_v : LayerState -> list out_attribute := fun _ => [] in
  let none_g : string -> option number := fun _ => None in
  let lstates :=
    (fun def =>
       mkLstate (redirect v8_text two_layer_config (def_id def))
         (parsed_attribute <$> serialize_attributes none_p none_v none_g def))
      <$> [example_bandCombo_layer] in
  let made := createLayerArrayFromState insert_layer (Some lstates) two_layer_config in
  layersParse12_try v8_text insert_layer
    (join "," (serializeLayers none_p none_v none_g [example_bandCombo_layer]))
    two_layer_config
  = (fst made, ((fun l => PushEvent (lstate_id l)) <$> lstates) ++ snd made)%list.
Proof.
  apply (layersParse12_reads_serialized v8_text insert_layer two_layer_config
           (fun _ => []) (fun _ => []) (fun _ => None) [example_bandCombo_layer]).
  repeat constructor.
  - vm_compute. discriminate.
Defined.

Lemma serialize_attributes_plain_witness :
  Forall (fun a => plain_attribute a = true)
    (serialize_attributes (fun _ => []) (fun _ => []) (fun _ => None)
       example_bandCombo_layer).
Proof.
  apply (serialize_attributes_plain (fun _ => []) (fun _ => []) (fun _ => None)
           example_bandCombo_layer).
  - reflexivity.
  - constructor.
  - constructor.
  - exact I.
Defined.

Lemma getOverlayGroups_groups_witness :
  let layers :=
    [ {| gl_id := "fires"; gl_group := "overlays"; gl_layergroup := "Fires" |};
      {| gl_id := "terra"; gl_group := "baselayers"; gl_layergroup := "Imagery" |};
      {| gl_id := "smoke"; gl_group := "overlays"; gl_layergroup := "Fires" |} ] in
  let prevGroups :=
    [ {| groupName := "Fires"; group_layers := ["fires"]; collapsed := true |} ] in
  exists groups,
    getOverlayGroups layers prevGroups = Ret groups
    /\ NoDup (groupName <$> groups)
    /\ (forall name, name ∈ groupName <$> groups <-> name ∈ overlay_groups layers)
    /\ Forall (fun g =>
                 group_layers g = overlay_ids (groupName g) layers
                 /\ collapsed g = match find_group (groupName g) prevGroups with
                                  | Some prevGroup => collapsed prevGroup
                                  | None => false
                                  end) groups.
Proof.
  apply (getOverlayGroups_groups
           [ {| gl_id := "fires"; gl_group := "overlays"; gl_layergroup := "Fires" |};
             {| gl_id := "terra"; gl_group := "baselayers"; gl_layergroup := "Imagery" |};
             {| gl_id := "smoke"; gl_group := "overlays"; gl_layergroup := "Fires" |} ]).
  reflexivity.
Defined.

Lemma getOverlayGroups_keeps_collapsed_witness :
  let layers :=
    [ {| gl_id := "fires"; gl_group := "overlays"; gl_layergroup := "Fires" |};
      {| gl_id := "smoke"; gl_group := "overlays"; gl_layergroup := "Fires" |} ] in
  let groups :=
    [ {| groupName := "Fires"; group_layers := ["fires"; "smoke"];
         collapsed := true |} ] in
  getOverlayGroups layers groups = Ret groups.
Proof.
  apply (getOverlayGroups_keeps_collapsed
           [ {| gl_id := "fires"; gl_group := "overlays"; gl_layergroup := "Fires" |};
             {| gl_id := "smoke"; gl_group := "overlays"; gl_layergroup := "Fires" |} ]
           [ {| groupName := "Fires"; group_layers := []; collapsed := true |} ]).
  vm_compute. reflexivity.
Defined.

Lemma nearestInterval_rounds_down_witness :
  let date := DateUTC 2020 0 1 7 37 12 in
  exists t,
    nearestInterval 0 (plain_layer subdaily [mkRange (ymd 2020 1 1) (ymd 2020 1 2) 10])
                    date = Some t
    /\ t <= date
    /\ date - t < Z.pos 10 * msPerMinute
    /\ date - t < msPerHour
    /\ getMinutes 0 t mod Z.pos 10 = 0
    /\ getHours 0 t = getHours 0 date.
Proof.
  apply (nearestInterval_rounds_down 0
           (plain_layer subdaily [mkRange (ymd 2020 1 1) (ymd 2020 1 2) 10])
           (mkRange (ymd 2020 1 1) (ymd 2020 1 2) 10) [] (DateUTC 2020 0 1 7 37 12)).
  - reflexivity.
  - vm_compute. intros [_ H]. apply H. reflexivity.
Defined.

Lemma prevDateInDateRange_previous_not_after_witness :
  (3 = 5 \/ (3 ∈ [1; 3; 7] /\ 3 < 5))
  /\ match Some 7 with Some n => n ∈ [1; 3; 7] | None => True end.
Proof.
  apply (prevDateInDateRange_previous_not_after 0
           (fun l _ => Some (Z.of_nat (length l) - 1))
           (plain_layer daily []) 5 [1; 3; 7] 3 (Some 7)).
  vm_compute. reflexivity.
Defined.

Lemma prevDateInDateRange_neighbours_witness :
  3 = 3 /\ [1; 3; 7] !! 1%nat = Some 3 /\ Some 7 = [1; 3; 7] !! 2%nat.
Proof.
  apply (prevDateInDateRange_neighbours 0
           (fun l _ => Some (Z.of_nat (length l) - 1))
           (plain_layer daily []) 5 [1; 3; 7] 3 (Some 7) 1 3).
  - repeat (constructor; try lia).
  - vm_compute. reflexivity.
  - vm_compute. reflexivity.
  - reflexivity.
Defined.

Lemma hasNonClickableVectorLayer_has_vector_witness :
  hasVectorLayers
    [ {| vl_type := "vector"; vl_visible := true;
         vl_breakPoint := fun _ : string => Some 10 |} ] = true.
Proof.
  apply (hasNonClickableVectorLayer_has_vector
           (fun z => negb (z =? 0)) (fun z => z / 2) Z.ltb
           [ {| vl_type := "vector"; vl_visible := true;
                vl_breakPoint := fun _ : string => Some 10 |} ]
           20 "geographic" false).
  reflexivity.
Defined.
End Instances.
